(** * PINT vertex relocation (ciftify_PINT_vertices.py): model and properties

    A shallow embedding of the iterative vertex-relocation search of
    [ciftify/bin/ciftify_PINT_vertices.py].

    Conventions of the embedding.
    - numpy arrays are lists; a position in an array is a [nat]; a value
      stored in the seed table (a vertex number, a label) is a [Z], because
      the code stores negative fill values and subtracts hemisphere offsets.
    - time-series values, means, regression residuals and distances are
      rationals [Q]: the real-number reading of the floating-point sums and
      differences of the code.  A score that numpy would report as NaN is
      [None].
    - a Python exception is a [Raise] result; numpy's indexing rules are
      those of numpy 1.12 and later (an index array must be of integer or
      boolean type).
    - the external collaborators (wb_command geometry, scipy's lstsq, the
      correlation routines np.corrcoef and stats.pearsonr, the random
      shuffle) are fields of the record [externals]; nothing is assumed of
      the values the correlation routines return.
    - logging and the writing of the csv outputs are left out; what
      [run_PINT] would write is what the model returns. *)

From Stdlib Require Import String.
From Stdlib Require Import List ZArith QArith Bool Lia Permutation Arith Sorted.
From Stdlib Require PrimFloat.
Import ListNotations.

Set Implicit Arguments.

(** ** Exceptions *)

Inductive exn : Type :=
| IndexError | KeyError | ValueError | TypeError | AttributeError | UnboundLocalError.

Inductive result (A : Type) : Type :=
| Ok (a : A)
| Raise (e : exn).

Arguments Ok {A} a.
Arguments Raise {A} e.

Definition bind {A B : Type} (r : result A) (f : A -> result B) : result B :=
  match r with
  | Ok a => f a
  | Raise e => Raise e
  end.

Notation "x <- r ;; k" := (bind r (fun x => k))
  (at level 61, r at next level, right associativity).

Fixpoint mapM {A B : Type} (f : A -> result B) (l : list A) : result (list B) :=
  match l with
  | [] => Ok []
  | a :: l' => b <- f a ;; bs <- mapM f l' ;; Ok (b :: bs)
  end.

(** ** numpy helpers *)

Definition Qltb (x y : Q) : bool := negb (Qle_bool y x).

(** [np.where(cond)[0]]: the positions at which the condition holds, in
    ascending order. *)
Fixpoint where_from {A : Type} (i : nat) (p : A -> bool) (xs : list A) : list nat :=
  match xs with
  | [] => []
  | x :: xs' => if p x then i :: where_from (S i) p xs' else where_from (S i) p xs'
  end.

Definition np_where {A : Type} (p : A -> bool) (xs : list A) : list nat :=
  where_from 0 p xs.

(** A two-dimensional array of rationals: [shape1] columns, one list per
    row.  [shape0] is the number of rows. *)
Record ndarray2 : Type := mk_ndarray2 { shape1 : nat; rows : list (list Q) }.

Definition shape0 (m : ndarray2) : nat := length (rows m).

Definition wf_ndarray2 (m : ndarray2) : Prop :=
  Forall (fun r => length r = shape1 m) (rows m).

(** [m[:, j]] for a non-negative literal [j]. *)
Definition column (m : ndarray2) (j : nat) : result (list Q) :=
  if j <? shape1 m then Ok (map (fun r => nth j r 0%Q) (rows m))
  else Raise IndexError.

(** Integer indexing of an axis of length [n], with Python's wrap-around of
    negative indices. *)
Definition np_index (n : nat) (i : Z) : result nat :=
  if (0 <=? i)%Z && (i <? Z.of_nat n)%Z then Ok (Z.to_nat i)
  else if (- Z.of_nat n <=? i)%Z && (i <? 0)%Z then Ok (Z.to_nat (Z.of_nat n + i))
  else Raise IndexError.

(** [a[idx] = v] for an array of positions [idx] (all non-negative). *)
Fixpoint set_at {A : Type} (i : nat) (v : A) (l : list A) : list A :=
  match l, i with
  | [], _ => []
  | _ :: l', O => v :: l'
  | x :: l', S i' => x :: set_at i' v l'
  end.

Fixpoint assign_at {A : Type} (l : list A) (idx : list nat) (v : A) : result (list A) :=
  match idx with
  | [] => Ok l
  | i :: idx' =>
      if i <? length l then assign_at (set_at i v l) idx' v else Raise IndexError
  end.

(** ** run_PINT, lines 93-96: the invalid-vertex list *)

(** [func_zeros = np.where(func_data[:,5] < 5)[0]] *)
Definition func_zeros_of (func_data : ndarray2) : result (list nat) :=
  c <- column func_data 5 ;;
  Ok (np_where (fun x => Qltb x 5) c).

(** ** The seed table (the pandas DataFrame [df]) *)

(** The input schema fixes [hemi] to the two values "L" and "R". *)
Inductive hemisphere : Type := L | R.

(** The surface files handed to the geometry commands. *)
Inductive surface : Type := surfL | surfR.

(** The integer-valued columns the code reads and writes by name:
    'tvertex', 'avertex', 'ivertex' and 'vertex_{k}'. *)
Inductive vcol : Type := tvertex | avertex | ivertex | vertex_ (k : nat).

(** The distance columns: 'distance' and 'dist_{k}'. *)
Inductive dcol : Type := distance | dist_ (k : nat).

Definition vcol_eqb (a b : vcol) : bool :=
  match a, b with
  | tvertex, tvertex | avertex, avertex | ivertex, ivertex => true
  | vertex_ j, vertex_ k => Nat.eqb j k
  | _, _ => false
  end.

Definition dcol_eqb (a b : dcol) : bool :=
  match a, b with
  | distance, distance => true
  | dist_ j, dist_ k => Nat.eqb j k
  | _, _ => false
  end.

(** One row of the table.  The named columns of a row are kept in the order
    in which they were created. *)
Record seed : Type := mk_seed {
  roiidx : Z;
  NETWORK : string;
  hemi : hemisphere;
  vcols : list (vcol * Z);
  dcols : list (dcol * Q)
}.

(** The row labels [df.index] are the positions [0 .. len(df)-1]. *)
Definition dataframe : Type := list seed.

Fixpoint lookup {K V : Type} (eqb : K -> K -> bool) (k : K) (l : list (K * V)) : option V :=
  match l with
  | [] => None
  | (k', v) :: l' => if eqb k k' then Some v else lookup eqb k l'
  end.

Fixpoint upsert {K V : Type} (eqb : K -> K -> bool) (k : K) (v : V) (l : list (K * V))
  : list (K * V) :=
  match l with
  | [] => [(k, v)]
  | (k', v') :: l' => if eqb k k' then (k, v) :: l' else (k', v') :: upsert eqb k v l'
  end.

Definition set_vcol (c : vcol) (v : Z) (s : seed) : seed :=
  mk_seed (roiidx s) (NETWORK s) (hemi s) (upsert vcol_eqb c v (vcols s)) (dcols s).

Definition set_dcol (c : dcol) (v : Q) (s : seed) : seed :=
  mk_seed (roiidx s) (NETWORK s) (hemi s) (vcols s) (upsert dcol_eqb c v (dcols s)).

(** [df.loc[idx, col]] *)
Definition loc_v (df : dataframe) (idx : nat) (c : vcol) : result Z :=
  match nth_error df idx with
  | Some s => match lookup vcol_eqb c (vcols s) with
              | Some v => Ok v
              | None => Raise KeyError
              end
  | None => Raise KeyError
  end.

Definition loc_d (df : dataframe) (idx : nat) (c : dcol) : result Q :=
  match nth_error df idx with
  | Some s => match lookup dcol_eqb c (dcols s) with
              | Some v => Ok v
              | None => Raise KeyError
              end
  | None => Raise KeyError
  end.

(** [df.loc[idx, col] = v] for a row label [idx] of the table. *)
Fixpoint update_row (idx : nat) (f : seed -> seed) (df : dataframe) : dataframe :=
  match df, idx with
  | [], _ => []
  | s :: df', O => f s :: df'
  | s :: df', S i => s :: update_row i f df'
  end.

Definition set_loc_v (df : dataframe) (idx : nat) (c : vcol) (v : Z) : dataframe :=
  update_row idx (set_vcol c v) df.

Definition set_loc_d (df : dataframe) (idx : nat) (c : dcol) (v : Q) : dataframe :=
  update_row idx (set_dcol c v) df.

(** [df.loc[:, col] = v] *)
Definition fill_v (df : dataframe) (c : vcol) (v : Z) : dataframe :=
  map (set_vcol c v) df.

Definition fill_d (df : dataframe) (c : dcol) (v : Q) : dataframe :=
  map (set_dcol c v) df.

(** [df.index.tolist()] *)
Definition index_tolist (df : dataframe) : list nat := seq 0 (length df).

(** [df[df.NETWORK == network].roiidx.tolist()] *)
Definition network_labels (df : dataframe) (network : string) : list Z :=
  map roiidx (filter (fun s => String.eqb (NETWORK s) network) df).

(** [df[col].unique()]: distinct values in order of first appearance. *)
Fixpoint unique_first (seen : list string) (l : list string) : list string :=
  match l with
  | [] => []
  | x :: l' =>
      if existsb (String.eqb x) seen then unique_first seen l'
      else x :: unique_first (x :: seen) l'
  end.

Definition networks_unique (df : dataframe) : list string :=
  unique_first [] (map NETWORK df).

(** ** External collaborators *)

Record externals : Type := mk_externals {
  (** wb_command -surface-geodesic-rois ... -overlap-logic EXCLUDE, loaded
      back: one row per surface vertex, one 0/1 entry per listed vertex. *)
  geodesic_rois : surface -> Q -> list Z -> list (list Z);
  (** ciftify.io.get_surf_distances: column 0 of the distance array. *)
  get_surf_distances : surface -> Z -> Q -> list Q;
  (** scipy.linalg.lstsq(Z, X)[0], with [Z] given by its columns. *)
  lstsq : list (list Q) -> list Q -> list Q;
  (** np.corrcoef(x, y)[0][1]; NaN is [None]. *)
  corrcoef : list Q -> list Q -> option Q;
  (** stats.pearsonr(x, y)[0]; NaN is [None]. *)
  pearsonr : list Q -> list Q -> option Q;
  (** random.shuffle applied to the row labels in sweep [k]. *)
  shuffle : nat -> list nat -> list nat
}.

(** The run-wide radii (the module globals RADIUS_SAMPLING, RADIUS_SEARCH,
    RADIUS_PADDING). *)
Record radii : Type := mk_radii {
  RADIUS_SAMPLING : Q;
  RADIUS_SEARCH : Q;
  RADIUS_PADDING : Q
}.

(** ** Region Builder: roi_surf_data and rois_bilateral *)

Definition hemisphere_eqb (a b : hemisphere) : bool :=
  match a, b with
  | L, L | R, R => true
  | _, _ => false
  end.

Definition seed_vcol (c : vcol) (s : seed) : result Z :=
  match lookup vcol_eqb c (vcols s) with
  | Some v => Ok v
  | None => Raise KeyError
  end.

(** [np.max(np.multiply(row, vlabels))] for one row of the ROI matrix. *)
Definition row_label (vlabels : list Z) (row : list Z) : result Z :=
  if negb (length row =? length vlabels) then Raise ValueError
  else match map (fun p => (fst p * snd p)%Z) (combine row vlabels) with
       | [] => Raise ValueError
       | x :: xs => Ok (fold_left Z.max xs x)
       end.

Definition roi_surf_data (E : externals) (df : dataframe) (vertex_colname : vcol)
  (surf : surface) (hemisphere_ : hemisphere) (roi_radius : Q) : result (list Z) :=
  let these := filter (fun s => hemisphere_eqb (hemi s) hemisphere_) df in
  vertex_list <- mapM (seed_vcol vertex_colname) these ;;
  let rois_data := geodesic_rois E surf roi_radius vertex_list in
  let vlabels := map roiidx these in
  match vlabels with
  | [] => Raise ValueError
  | _ => mapM (row_label vlabels) rois_data
  end.

Definition rois_bilateral (E : externals) (df : dataframe) (vertex_colname : vcol)
  (roi_radius : Q) : result (list Z) :=
  rois_L <- roi_surf_data E df vertex_colname surfL L roi_radius ;;
  rois_R <- roi_surf_data E df vertex_colname surfR R roi_radius ;;
  Ok (rois_L ++ rois_R).

(** ** Aggregator: calc_sampling_meants and calc_network_meants *)

(** [np.unique]: the distinct values, ascending. *)
Fixpoint insert_unique (x : Z) (l : list Z) : list Z :=
  match l with
  | [] => [x]
  | y :: l' =>
      if (x <? y)%Z then x :: y :: l'
      else if (x =? y)%Z then y :: l'
      else y :: insert_unique x l'
  end.

Definition np_unique (l : list Z) : list Z := fold_right insert_unique [] l.

Definition Qsum (l : list Q) : Q := fold_right Qplus 0%Q l.

Definition Qmean (l : list Q) : Q := (Qsum l / inject_Z (Z.of_nat (length l)))%Q.

(** [np.mean(rows, axis=0)] for a non-empty selection of rows of width [T]. *)
Definition mean_axis0 (T : nat) (rs : list (list Q)) : list Q :=
  map (fun j => Qmean (map (fun r => nth j r 0%Q) rs)) (seq 0 T).

(** [m[idx, :]] for an array of non-negative positions. *)
Definition take_rows (m : ndarray2) (idx : list nat) : result (list (list Q)) :=
  mapM (fun i => match nth_error (rows m) i with
                 | Some r => Ok r
                 | None => Raise IndexError
                 end) idx.

(** [m[labels - 1, :]] for an integer array of labels. *)
Definition take_label_rows (m : ndarray2) (labels : list Z) : result (list (list Q)) :=
  mapM (fun l => i <- np_index (shape0 m) (l - 1) ;;
                 match nth_error (rows m) i with
                 | Some r => Ok r
                 | None => Raise IndexError
                 end) labels.

Definition calc_sampling_meants (func_data : ndarray2) (sampling_roi_mask : list Z)
  : result ndarray2 :=
  let rois := tl (np_unique sampling_roi_mask) in
  out_data <- mapM (fun roi =>
                      let idx := np_where (Z.eqb roi) sampling_roi_mask in
                      sel <- take_rows func_data idx ;;
                      Ok (mean_axis0 (shape1 func_data) sel)) rois ;;
  Ok (mk_ndarray2 (shape1 func_data) out_data).

(** The network means, one named column per network of the table. *)
Definition calc_network_meants (sampling_meants : ndarray2) (df : dataframe)
  : result (list (string * list Q)) :=
  mapM (fun network =>
          let netlabels := network_labels df network in
          sel <- take_label_rows sampling_meants netlabels ;;
          Ok (network, mean_axis0 (shape1 sampling_meants) sel))
       (networks_unique df).

(** ** Objective Evaluator: correlation scores *)

Definition centered (x : list Q) : list Q := map (fun v => (v - Qmean x)%Q) x.

Definition dot (x y : list Q) : Q :=
  Qsum (map (fun p => (fst p * snd p)%Q) (combine x y)).

(** [Z.dot(beta)], with [Z] given by its columns, for series of length [T]. *)
Definition Zdot (T : nat) (Zcols : list (list Q)) (beta : list Q) : list Q :=
  map (fun t => Qsum (map (fun p => (nth t (fst p) 0 * snd p)%Q) (combine Zcols beta)))
      (seq 0 T).

Definition vsub (x y : list Q) : list Q :=
  map (fun p => (fst p - snd p)%Q) (combine x y).

Definition partial_corr (E : externals) (X Y : list Q) (Zcols : list (list Q)) : option Q :=
  let beta_x := lstsq E Zcols X in
  let beta_y := lstsq E Zcols Y in
  let res_x := vsub X (Zdot (length X) Zcols beta_x) in
  let res_y := vsub Y (Zdot (length Y) Zcols beta_y) in
  pearsonr E res_x res_y.

(** [np.argmax]: the first position of the maximum; a NaN counts as the
    maximum, so the first NaN wins. *)
Fixpoint argmax_go (i bi : nat) (b : Q) (xs : list (option Q)) : nat :=
  match xs with
  | [] => bi
  | None :: _ => i
  | Some x :: xs' =>
      if Qltb b x then argmax_go (S i) i x xs' else argmax_go (S i) bi b xs'
  end.

Definition np_argmax (xs : list (option Q)) : result nat :=
  match xs with
  | [] => Raise ValueError
  | None :: _ => Ok 0%nat
  | Some x :: xs' => Ok (argmax_go 1 0 x xs')
  end.

(** [np.intersect1d(a, b, assume_unique=True)] for two outputs of
    [np.where]: the common positions, ascending. *)
Definition intersect1d (a b : list nat) : list nat :=
  filter (fun i => existsb (Nat.eqb i) b) a.

(** The loop of lines 376-384: every candidate's score is stored at the
    candidate's own position of [seed_corrs]. *)
Fixpoint score_loop (score : list Q -> option Q) (func_data : ndarray2)
  (idx_mask : list nat) (seed_corrs : list (option Q)) : result (list (option Q)) :=
  match idx_mask with
  | [] => Ok seed_corrs
  | v :: rest =>
      match nth_error (rows func_data) v with
      | None => Raise IndexError
      | Some ts => score_loop score func_data rest (set_at v (score ts) seed_corrs)
      end
  end.

(** Lines 357-358: the target series of a seed.  The labels of the seed's
    network without its own, as a set (modelled ascending); an empty label
    list makes [np.array(netlabels) - 1] a float array, which numpy refuses
    as an index. *)
Definition target_meants (df : dataframe) (network : string) (vlabel : Z)
  (sampling_meants : ndarray2) : result (list Q) :=
  let netlabels :=
    filter (fun l => negb (l =? vlabel)%Z) (np_unique (network_labels df network)) in
  match netlabels with
  | [] => Raise IndexError
  | _ => sel <- take_label_rows sampling_meants netlabels ;;
         Ok (mean_axis0 (shape1 sampling_meants) sel)
  end.

(** The admissible candidates of a seed (lines 362-364). *)
Definition candidates (search_rois padding_rois : list Z) (vlabel : Z) : list nat :=
  intersect1d (np_where (Z.eqb vlabel) search_rois) (np_where (Z.eqb vlabel) padding_rois).

Definition pint_move_vertex (E : externals) (df : dataframe) (idx : nat)
  (vertex_incol vertex_outcol : vcol) (func_data sampling_meants : ndarray2)
  (search_rois padding_rois : list Z) (pcorr : bool) (num_Lverts : nat)
  (netmeants : option (list (string * list Q))) : result dataframe :=
  match nth_error df idx with
  | None => Raise KeyError
  | Some s =>
      let vlabel := roiidx s in
      let network := NETWORK s in
      orig_vertex <- seed_vcol vertex_incol s ;;
      meants <- target_meants df network vlabel sampling_meants ;;
      let idx_mask := candidates search_rois padding_rois vlabel in
      match idx_mask with
      | [] => Ok (set_loc_v df idx vertex_outcol orig_vertex)
      | _ =>
          let seed_corrs := repeat (Some (-1)%Q) (shape0 func_data) in
          score <- (if pcorr then
                      match netmeants with
                      | None => Raise AttributeError
                      | Some nm =>
                          let o_networks :=
                            filter (fun c => negb (String.eqb (fst c) network)) nm in
                          Ok (fun ts => partial_corr E meants ts (map snd o_networks))
                      end
                    else Ok (fun ts => corrcoef E meants ts)) ;;
          seed_corrs' <- score_loop score func_data idx_mask seed_corrs ;;
          peakvert <- np_argmax seed_corrs' ;;
          let peakvert' := match hemi s with
                           | R => (Z.of_nat peakvert - Z.of_nat num_Lverts)%Z
                           | L => Z.of_nat peakvert
                           end in
          Ok (set_loc_v df idx vertex_outcol peakvert')
      end
  end.

(** ** Displacement: calc_surf_distance and calc_distance_column *)

(** One invocation of the geometry provider's distance command. *)
Record geo_call : Type := mk_geo_call {
  call_surf : surface;
  call_orig : Z;
  call_radius : Q
}.

(** The distance, together with the provider invocations it cost. *)
Definition calc_surf_distance (E : externals) (surf : surface)
  (orig_vertex target_vertex : Z) (radius_search : Q) : result (Q * list geo_call) :=
  if (orig_vertex =? target_vertex)%Z then Ok (0%Q, [])
  else
    let distances := get_surf_distances E surf orig_vertex radius_search in
    i <- np_index (length distances) target_vertex ;;
    Ok (nth i distances 0%Q, [mk_geo_call surf orig_vertex radius_search]).

Definition distance_step (E : externals) (orig_vertex_col target_vertex_col : vcol)
  (distance_outcol : dcol) (radius_search : Q)
  (acc : dataframe * list geo_call) (idx : nat) : result (dataframe * list geo_call) :=
  let df := fst acc in
  orig_vertex <- loc_v df idx orig_vertex_col ;;
  target_vertex <- loc_v df idx target_vertex_col ;;
  match nth_error df idx with
  | None => Raise KeyError
  | Some s =>
      let surf := match hemi s with L => surfL | R => surfR end in
      d <- calc_surf_distance E surf orig_vertex target_vertex radius_search ;;
      Ok (set_loc_d df idx distance_outcol (fst d), snd acc ++ snd d)
  end.

Fixpoint foldM {A B : Type} (f : A -> B -> result A) (l : list B) (a : A) : result A :=
  match l with
  | [] => Ok a
  | b :: l' => a' <- f a b ;; foldM f l' a'
  end.

Definition calc_distance_column (E : externals) (df : dataframe)
  (orig_vertex_col target_vertex_col : vcol) (distance_outcol : dcol)
  (radius_search : Q) : result (dataframe * list geo_call) :=
  let df := fill_d df distance_outcol (-(999 # 10))%Q in
  foldM (distance_step E orig_vertex_col target_vertex_col distance_outcol radius_search)
        (index_tolist df) (df, []).

(** ** Iteration Controller: iterate_pint *)

(** The three region masks of a sweep (lines 414-423). *)
Record masks : Type := mk_masks {
  sampling_rois : list Z;
  search_rois : list Z;
  padding_rois : list Z
}.

Definition build_masks (E : externals) (rad : radii) (df : dataframe)
  (vertex_incol : vcol) (func_zeros : list nat) : result masks :=
  sampling <- rois_bilateral E df vertex_incol (RADIUS_SAMPLING rad) ;;
  sampling <- assign_at sampling func_zeros 0%Z ;;
  search <- rois_bilateral E df vertex_incol (RADIUS_SEARCH rad) ;;
  search <- assign_at search func_zeros 0%Z ;;
  padding <- rois_bilateral E df vertex_incol (RADIUS_PADDING rad) ;;
  Ok (mk_masks sampling search padding).

(** The per-seed loop of lines 437-441, in the given visiting order. *)
Definition move_all (E : externals) (thisorder : list nat)
  (vertex_incol vertex_outcol : vcol) (func_data sampling_meants : ndarray2)
  (m : masks) (pcorr : bool) (num_Lverts : nat)
  (netmeants : option (list (string * list Q))) (df : dataframe) : result dataframe :=
  foldM (fun df idx =>
           pint_move_vertex E df idx vertex_incol vertex_outcol func_data sampling_meants
                            (search_rois m) (padding_rois m) pcorr num_Lverts netmeants)
        thisorder df.

(** Python's [max] of a column. *)
Definition Qmax (a b : Q) : Q := if Qltb a b then b else a.

Definition max_of (l : list Q) : result Q :=
  match l with
  | [] => Raise ValueError
  | x :: xs => Ok (fold_left Qmax xs x)
  end.

(** The local variables of [iterate_pint] that live across sweeps. *)
Record loop_state : Type := mk_loop_state {
  st_df : dataframe;
  st_iter_num : nat;
  st_max_distance : Q;
  st_vertex_incol : vcol;
  st_vertex_outcol : option vcol;
  st_distance_outcol : option dcol;
  st_calls : list geo_call
}.

(** The body of the while loop (lines 409-451). *)
Definition sweep (E : externals) (rad : radii) (func_data : ndarray2)
  (func_zeros : list nat) (pcorr : bool) (num_Lverts : nat) (st : loop_state)
  : result loop_state :=
  let iter_num := st_iter_num st in
  let vertex_incol := st_vertex_incol st in
  let vertex_outcol := vertex_ iter_num in
  let distance_outcol := dist_ iter_num in
  let df := fill_v (st_df st) vertex_outcol (-999)%Z in
  let df := fill_d df distance_outcol (-(999 # 10))%Q in
  m <- build_masks E rad df vertex_incol func_zeros ;;
  sampling_meants <- calc_sampling_meants func_data (sampling_rois m) ;;
  netmeants <- (if pcorr
                then nm <- calc_network_meants sampling_meants df ;; Ok (Some nm)
                else Ok None) ;;
  let thisorder := shuffle E iter_num (index_tolist df) in
  df <- move_all E thisorder vertex_incol vertex_outcol func_data sampling_meants
                 m pcorr num_Lverts netmeants df ;;
  dl <- calc_distance_column E df vertex_incol vertex_outcol distance_outcol
                             (RADIUS_SEARCH rad) ;;
  let df := fst dl in
  col <- mapM (fun idx => loc_d df idx distance_outcol) (index_tolist df) ;;
  max_distance <- max_of col ;;
  Ok (mk_loop_state df (S iter_num) max_distance vertex_outcol
                    (Some vertex_outcol) (Some distance_outcol)
                    (st_calls st ++ snd dl)).

(** The while loop of line 408.  [fuel] bounds the number of unfoldings;
    [None] means the fuel ran out before the loop condition became false. *)
Fixpoint pint_loop (E : externals) (rad : radii) (func_data : ndarray2)
  (func_zeros : list nat) (pcorr : bool) (num_Lverts start_iter : nat)
  (fuel : nat) (st : loop_state) : option (result loop_state) :=
  if (st_iter_num st <? start_iter + 50) && Qltb 1 (st_max_distance st) then
    match fuel with
    | O => None
    | S fuel' =>
        match sweep E rad func_data func_zeros pcorr num_Lverts st with
        | Raise e => Some (Raise e)
        | Ok st' =>
            pint_loop E rad func_data func_zeros pcorr num_Lverts start_iter fuel' st'
        end
    end
  else Some (Ok st).

Record pint_result : Type := mk_pint_result {
  res_df : dataframe;
  res_max_distance : Q;
  res_distance_outcol : dcol;
  res_iter_num : nat;
  res_calls : list geo_call
}.

Definition init_state (df : dataframe) (vertex_incol : vcol) (start_iter : nat)
  : loop_state :=
  mk_loop_state df start_iter 10%Q vertex_incol None None [].

(** Lines 453-458: the final position and the template-to-final distance. *)
Definition finish (E : externals) (st : loop_state) : result pint_result :=
  match st_vertex_outcol st, st_distance_outcol st with
  | Some vertex_outcol, Some distance_outcol =>
      df <- mapM (fun s => v <- seed_vcol vertex_outcol s ;; Ok (set_vcol ivertex v s))
                 (st_df st) ;;
      dl <- calc_distance_column E df tvertex ivertex distance 150%Q ;;
      Ok (mk_pint_result (fst dl) (st_max_distance st) distance_outcol
                         (st_iter_num st) (st_calls st ++ snd dl))
  | _, _ => Raise UnboundLocalError
  end.

Definition iterate_pint (E : externals) (rad : radii) (fuel : nat) (df : dataframe)
  (vertex_incol : vcol) (func_data : ndarray2) (func_zeros : list nat) (pcorr : bool)
  (num_Lverts : nat) (start_iter : nat) : option (result pint_result) :=
  match pint_loop E rad func_data func_zeros pcorr num_Lverts start_iter fuel
                  (init_state df vertex_incol start_iter) with
  | None => None
  | Some (Raise e) => Some (Raise e)
  | Some (Ok st) => Some (finish E st)
  end.

(** ** Calling convention *)

(** How Python binds a call's arguments to a function's parameters:
    [params] lists the parameter names with whether each has a default,
    [npos] is the number of positional arguments and [kw] the keywords
    used.  A parameter left without a value, a surplus argument, an unknown
    keyword or a parameter given twice is a TypeError. *)
Definition bind_arguments (params : list (string * bool)) (npos : nat) (kw : list string)
  : result unit :=
  if length params <? npos then Raise TypeError
  else
    let positional := map fst (firstn npos params) in
    let rest := skipn npos params in
    if existsb (fun k => existsb (String.eqb k) positional
                         || negb (existsb (fun p => String.eqb k (fst p)) rest)) kw
    then Raise TypeError
    else if negb (Nat.eqb (length (nodup string_dec kw)) (length kw)) then Raise TypeError
    else if forallb (fun p => snd p || existsb (String.eqb (fst p)) kw) rest
         then Ok tt
         else Raise TypeError.

(** def iterate_pint(df, vertex_incol, func_data, func_zeros, pcorr,
                     surfL, surfR, num_Lverts, start_iter = 0) *)
Definition iterate_pint_params : list (string * bool) :=
  [("df", false); ("vertex_incol", false); ("func_data", false);
   ("func_zeros", false); ("pcorr", false); ("surfL", false); ("surfR", false);
   ("num_Lverts", false); ("start_iter", true)]%string.

(** ** run_PINT *)

(** The template table as read from the csv file; the 'roiidx' column is
    optional. *)
Record csv_table : Type := mk_csv_table {
  csv_rows : list (hemisphere * string * Z);
  csv_roiidx : option (list Z)
}.

Definition read_csv (t : csv_table) : dataframe :=
  let labels := match csv_roiidx t with
                | Some l => l
                | None => map (fun i => Z.of_nat (S i)) (seq 0 (length (csv_rows t)))
                end in
  map (fun p => match fst p with
                | (h, n, v) => mk_seed (snd p) n h [(tvertex, v)] []
                end)
      (combine (csv_rows t) labels).

Definition vstack (a b : ndarray2) : result ndarray2 :=
  if shape1 a =? shape1 b then Ok (mk_ndarray2 (shape1 a) (rows a ++ rows b))
  else Raise ValueError.

Record arguments : Type := mk_arguments {
  arg_pcorr : bool;
  arg_outputall : bool;
  arg_radii : radii;
  (** '--roi-limits': the two hemispheres of the limits file, when given. *)
  arg_roi_limits : option (ndarray2 * ndarray2)
}.

(** Lines 118-129: the limits check of one seed. *)
Definition limits_step (limits : ndarray2) (num_limLverts : nat)
  (acc : dataframe * bool) (i : nat) : result (dataframe * bool) :=
  let df := fst acc in
  match nth_error df i with
  | None => Raise KeyError
  | Some s =>
      thisivertex <- loc_v df i ivertex ;;
      let thisivertex := match hemi s with
                         | R => (thisivertex + Z.of_nat num_limLverts)%Z
                         | L => thisivertex
                         end in
      r <- np_index (shape0 limits) thisivertex ;;
      c <- np_index (shape1 limits) (Z.of_nat i) ;;
      if Qltb 0 (nth c (nth r (rows limits) []) 0%Q)
      then iv <- loc_v df i ivertex ;;
           Ok (set_loc_v df i avertex iv, snd acc)
      else tv <- loc_v df i tvertex ;;
           Ok (set_loc_v df i avertex tv, false)
  end.

(** Computations that may also fail to finish within the given fuel. *)
Definition bindO {A B : Type} (r : option (result A)) (f : A -> option (result B))
  : option (result B) :=
  match r with
  | None => None
  | Some (Raise e) => Some (Raise e)
  | Some (Ok a) => f a
  end.

(** Lines 112-135: the check against the limits file and the second pass. *)
Definition reconcile (E : externals) (rad : radii) (fuel : nat)
  (limitsL limitsR : ndarray2) (func_data : ndarray2) (func_zeros : list nat)
  (pcorr : bool) (num_Lverts : nat) (first : pint_result)
  : option (result pint_result) :=
  bindO (Some (vstack limitsL limitsR)) (fun limits =>
  let num_limLverts := shape0 limitsL in
  let df := fill_v (res_df first) avertex (-99)%Z in
  bindO (Some (foldM (limits_step limits num_limLverts) (index_tolist df) (df, true)))
        (fun acc =>
  if snd acc then
    Some (Ok (mk_pint_result (fst acc) (res_max_distance first)
                             (res_distance_outcol first) (res_iter_num first)
                             (res_calls first)))
  else
    (* iterate_pint(df, 'avertex', func_data, func_zeros, pcorr, num_Lverts,
                    start_iter = 50) *)
    bindO (Some (bind_arguments iterate_pint_params 6 ["start_iter"%string])) (fun _ =>
    iterate_pint E rad fuel (fst acc) avertex func_data func_zeros pcorr
                 num_Lverts 50))).

Record outputs : Type := mk_outputs {
  out_summary : pint_result;
  out_tvertex_meants : ndarray2;
  out_ivertex_meants : ndarray2
}.

(** Lines 148-156: the mean series of the sampling regions around a column
    of positions. *)
Definition output_meants (E : externals) (rad : radii) (df : dataframe) (c : vcol)
  (func_data : ndarray2) (func_zeros : list nat) : result ndarray2 :=
  rois <- rois_bilateral E df c (RADIUS_SAMPLING rad) ;;
  rois <- assign_at rois func_zeros 0%Z ;;
  calc_sampling_meants func_data rois.

Definition run_PINT (E : externals) (fuel : nat) (args : arguments)
  (origcsv : csv_table) (func_dataL func_dataR : ndarray2) : option (result outputs) :=
  let rad := arg_radii args in
  let pcorr := arg_pcorr args in
  (* line 83: '...{}'.roi_limits_file, an attribute a str does not have *)
  bindO (Some (match arg_roi_limits args with
               | Some _ => Raise AttributeError
               | None => Ok tt
               end)) (fun _ =>
  let df := read_csv origcsv in
  let num_Lverts := shape0 func_dataL in
  bindO (Some (vstack func_dataL func_dataR)) (fun func_data =>
  bindO (Some (func_zeros_of func_data)) (fun func_zeros =>
  bindO (Some (bind_arguments iterate_pint_params 8 [])) (fun _ =>
  bindO (iterate_pint E rad fuel df tvertex func_data func_zeros pcorr num_Lverts 0)
        (fun first =>
  bindO (match arg_roi_limits args with
         | Some (limitsL, limitsR) =>
             reconcile E rad fuel limitsL limitsR func_data func_zeros pcorr
                       num_Lverts first
         | None => Some (Ok first)
         end) (fun final =>
  let df := res_df final in
  bindO (Some (output_meants E rad df tvertex func_data func_zeros)) (fun tm =>
  bindO (Some (output_meants E rad df ivertex func_data func_zeros)) (fun im =>
  Some (Ok (mk_outputs final tm im)))))))))).

(** ** Notions used in the statements *)

(** [k] consecutive sweeps from a state, without the loop test: the states
    the while loop passes through. *)
Fixpoint sweeps (E : externals) (rad : radii) (func_data : ndarray2)
  (func_zeros : list nat) (pcorr : bool) (num_Lverts : nat)
  (k : nat) (st : loop_state) : result loop_state :=
  match k with
  | O => Ok st
  | S k' =>
      st' <- sweep E rad func_data func_zeros pcorr num_Lverts st ;;
      sweeps E rad func_data func_zeros pcorr num_Lverts k' st'
  end.

(** The position [pint_move_vertex] writes for a seed, as a value. *)
Definition new_position (E : externals) (df : dataframe) (idx : nat)
  (vertex_incol : vcol) (func_data sampling_meants : ndarray2)
  (search_rois padding_rois : list Z) (pcorr : bool) (num_Lverts : nat)
  (netmeants : option (list (string * list Q))) : result Z :=
  match nth_error df idx with
  | None => Raise KeyError
  | Some s =>
      let vlabel := roiidx s in
      let network := NETWORK s in
      orig_vertex <- seed_vcol vertex_incol s ;;
      meants <- target_meants df network vlabel sampling_meants ;;
      let idx_mask := candidates search_rois padding_rois vlabel in
      match idx_mask with
      | [] => Ok orig_vertex
      | _ =>
          let seed_corrs := repeat (Some (-1)%Q) (shape0 func_data) in
          score <- (if pcorr then
                      match netmeants with
                      | None => Raise AttributeError
                      | Some nm =>
                          let o_networks :=
                            filter (fun c => negb (String.eqb (fst c) network)) nm in
                          Ok (fun ts => partial_corr E meants ts (map snd o_networks))
                      end
                    else Ok (fun ts => corrcoef E meants ts)) ;;
          seed_corrs' <- score_loop score func_data idx_mask seed_corrs ;;
          peakvert <- np_argmax seed_corrs' ;;
          Ok (match hemi s with
              | R => (Z.of_nat peakvert - Z.of_nat num_Lverts)%Z
              | L => Z.of_nat peakvert
              end)
      end
  end.

(** One write of the per-seed loop. *)
Definition write (c : vcol) (d : dataframe) (iv : nat * Z) : dataframe :=
  set_loc_v d (fst iv) c (snd iv).

(** What the evaluation of a seed reads from a row of the table. *)
Definition frame (vertex_incol : vcol) (s : seed) : Z * string * hemisphere * option Z :=
  (roiidx s, NETWORK s, hemi s, lookup vcol_eqb vertex_incol (vcols s)).

(** The seed of row [idx] passes the test of line 122: the limits array is
    positive at the row of the seed's 'ivertex' (shifted by the number of
    left vertices for a right seed) and the column of the seed. *)
Definition within_limits (limits : ndarray2) (num_limLverts : nat) (df : dataframe)
  (idx : nat) : Prop :=
  exists (h : hemisphere) (iv : Z) (r c : nat),
    option_map hemi (nth_error df idx) = Some h /\
    loc_v df idx ivertex = Ok iv /\
    np_index (shape0 limits)
             (match h with
              | R => (iv + Z.of_nat num_limLverts)%Z
              | L => iv
              end) = Ok r /\
    np_index (shape1 limits) (Z.of_nat idx) = Ok c /\
    (0 < nth c (nth r (rows limits) []) 0)%Q.

(** The maximum displacement of a sweep from state [st] to state [st']:
    every seed's entry in the sweep's distance column is the geodesic
    distance, as [calc_surf_distance] reports it, from the seed's entry in
    the input column to its entry in the sweep's vertex column, and the
    [max_distance] of the new state is the largest of these entries (lines
    443-448). *)
Definition sweep_max_displacement (E : externals) (rad : radii)
  (st st' : loop_state) : Prop :=
  (forall idx, (idx < length (st_df st'))%nat ->
     exists (h : hemisphere) (a b : Z) (d : Q) (calls : list geo_call),
       option_map hemi (nth_error (st_df st') idx) = Some h /\
       loc_v (st_df st') idx (st_vertex_incol st) = Ok a /\
       loc_v (st_df st') idx (vertex_ (st_iter_num st)) = Ok b /\
       calc_surf_distance E (match h with L => surfL | R => surfR end) a b
                          (RADIUS_SEARCH rad) = Ok (d, calls) /\
       loc_d (st_df st') idx (dist_ (st_iter_num st)) = Ok d /\
       (d <= st_max_distance st')%Q) /\
  (exists idx, (idx < length (st_df st'))%nat /\
     loc_d (st_df st') idx (dist_ (st_iter_num st)) = Ok (st_max_distance st')).

(** ** Least squares, as a specification of [lstsq] *)

(** The residual [X - Z.dot(beta)] of lines 327-328. *)
Definition residual (X : list Q) (Zcols : list (list Q)) (beta : list Q) : list Q :=
  vsub X (Zdot (length X) Zcols beta).

(** [beta] solves the least-squares problem of regressing [X] on the
    columns of [Z]: the residual is orthogonal to every column (the normal
    equations). *)
Definition is_lstsq (Zcols : list (list Q)) (X beta : list Q) : Prop :=
  Forall (fun z => length z = length X) Zcols /\
  Forall (fun z => dot z (residual X Zcols beta) == 0)%Q Zcols.

(** Equality of scores up to the representation of a rational. *)
Definition score_eq (a b : option Q) : Prop :=
  match a, b with
  | Some x, Some y => (x == y)%Q
  | None, None => True
  | _, _ => False
  end.

(** The sum of [f 0 .. f (T-1)]. *)
Fixpoint sumT (f : nat -> Q) (T : nat) : Q :=
  match T with
  | O => 0%Q
  | S n => (sumT f n + f n)%Q
  end.

(** Entry [t] of [Z.dot(beta)]. *)
Definition lin (Zcols : list (list Q)) (beta : list Q) (t : nat) : Q :=
  Qsum (map (fun p => (nth t (fst p) 0 * snd p)%Q) (combine Zcols beta)).

(** ** The reference regression

    Written from the specification's words and independently of
    [partial_corr], [Zdot] and [vsub]: the fitted value of a coefficient
    vector at time [t], the residual series it leaves, and the normal
    equations that single out the least-squares solutions. *)
Fixpoint reference_fit (Zcols : list (list Q)) (beta : list Q) (t : nat) : Q :=
  match Zcols, beta with
  | z :: Zs, b :: bs => (b * nth t z 0 + reference_fit Zs bs t)%Q
  | _, _ => 0%Q
  end.

Definition reference_residual (X : list Q) (Zcols : list (list Q)) (beta : list Q)
  : list Q :=
  map (fun t => (nth t X 0 - reference_fit Zcols beta t)%Q) (seq 0 (length X)).

Definition reference_lstsq (Zcols : list (list Q)) (X beta : list Q) : Prop :=
  Forall (fun z => length z = length X) Zcols /\
  Forall (fun z =>
            sumT (fun t => nth t z 0 * nth t (reference_residual X Zcols beta) 0)
                 (length X) == 0)%Q Zcols.

(** [p] is the position [np.argmax] reports for [arr]: the first NaN if
    there is one, else the first position holding the maximum. *)
Definition first_max (arr : list (option Q)) (p : nat) : Prop :=
  (nth_error arr p = Some None /\
   forall j, (j < p)%nat -> exists q, nth_error arr j = Some (Some q)) \/
  (exists q, nth_error arr p = Some (Some q) /\
     forall j, (j < length arr)%nat ->
       exists qj, nth_error arr j = Some (Some qj) /\
                  (qj <= q)%Q /\ ((j < p)%nat -> (qj < q)%Q)).

(** ** A small mesh for examples

    Each hemisphere is a path of [nverts] vertices; the geodesic distance of
    two vertices is the difference of their numbers.  A region of radius
    [radius] around a listed vertex holds the vertices within that distance
    that are within reach of no other listed vertex. *)

Definition path_rois (nverts : nat) (surf : surface) (radius : Q) (vs : list Z)
  : list (list Z) :=
  map (fun v =>
         let near := fun c => Qle_bool (inject_Z (Z.abs (Z.of_nat v - c))) radius in
         map (fun c => if near c && (length (filter near vs) =? 1) then 1%Z else 0%Z) vs)
      (seq 0 nverts).

Definition path_distances (nverts : nat) (surf : surface) (orig : Z) (radius : Q)
  : list Q :=
  map (fun v => inject_Z (Z.abs (Z.of_nat v - orig))) (seq 0 nverts).

(** Least squares for at most one control series: the projection
    coefficient. *)
Definition lstsq1 (Zcols : list (list Q)) (X : list Q) : list Q :=
  match Zcols with
  | [z] => if Qeq_bool (dot z z) 0 then [0%Q] else [(dot z X / dot z z)%Q]
  | _ => map (fun _ => 0%Q) Zcols
  end.

(** The correlation routine of the examples: Pearson's r over the
    rationals.  A score r is represented by sgn(r)*r^2, which is rational,
    strictly increasing in r and fixes -1, 0 and 1; a series without
    variance gives NaN ([None]).  The library routines round in binary64, so
    this is one possible instance of [corrcoef] and [pearsonr], not their
    definition. *)
Definition pearson (x y : list Q) : option Q :=
  let cx := centered x in
  let cy := centered y in
  let c := dot cx cy in
  let v := (dot cx cx * dot cy cy)%Q in
  if Qeq_bool v 0 then None
  else if Qle_bool 0 c then Some (c * c / v)%Q
  else Some (- (c * c / v))%Q.

Definition path_externals (nverts : nat) (order : nat -> list nat -> list nat)
  : externals :=
  mk_externals (path_rois nverts) (path_distances nverts) lstsq1 pearson pearson order.

Definition series (l : list Z) : list Q := map inject_Z l.

(** Five vertices per hemisphere, six timepoints; vertex 1 of the left
    hemisphere and vertex 3 of the right have a low value at timepoint 5. *)
Definition example_func_L : ndarray2 :=
  mk_ndarray2 6 [series [10; 20; 30; 40; 50; 60]%Z;
                 series [10; 30; 20; 50; 40; 4]%Z;
                 series [60; 50; 40; 30; 20; 70]%Z;
                 series [10; 20; 30; 40; 50; 60]%Z;
                 series [20; 10; 40; 30; 60; 50]%Z].

Definition example_func_R : ndarray2 :=
  mk_ndarray2 6 [series [10; 20; 30; 40; 50; 60]%Z;
                 series [10; 30; 20; 50; 40; 60]%Z;
                 series [60; 50; 40; 30; 20; 70]%Z;
                 series [10; 20; 30; 40; 50; 0]%Z;
                 series [20; 10; 40; 30; 60; 50]%Z].

Definition example_func : ndarray2 :=
  mk_ndarray2 6 (rows example_func_L ++ rows example_func_R).

(** Three seeds of one network, two on the left and one on the right. *)
Definition example_csv : csv_table :=
  mk_csv_table [(L, "A"%string, 1%Z); (L, "A"%string, 3%Z); (R, "A"%string, 2%Z)] None.

Definition example_df : dataframe := read_csv example_csv.

Definition example_radii : radii := mk_radii 1 1 2.

Definition in_order (k : nat) (l : list nat) : list nat := l.

(** The masks of the first sweep of the example, with stacked positions 1
    and 8 invalid. *)
Definition example_masks : masks :=
  mk_masks [1; 0; 0; 2; 2; 0; 3; 3; 0; 0]%Z
           [1; 0; 0; 2; 2; 0; 3; 3; 0; 0]%Z
           [1; 0; 0; 0; 2; 3; 3; 3; 3; 3]%Z.

(** The sampling means of the example's first sweep. *)
Definition example_sampling_meants : ndarray2 :=
  match calc_sampling_meants example_func (sampling_rois example_masks) with
  | Ok m => m
  | Raise _ => mk_ndarray2 0 []
  end.

(** Masks in which seed 1 has search vertices but no padding vertices. *)
Definition crowded_search : list Z := [1; 0; 0; 2; 0; 0; 3; 3; 0; 0]%Z.

Definition crowded_padding : list Z := [0; 0; 0; 0; 2; 3; 3; 3; 3; 3]%Z.

(** A table whose network "B" has a single member seed. *)
Definition single_member_df : dataframe :=
  read_csv (mk_csv_table [(L, "A"%string, 1%Z); (L, "B"%string, 3%Z);
                          (R, "A"%string, 2%Z)] None).

(** Series that rise, fall, and do neither. *)
Definition rising : list Q := series [10; 20; 30; 40; 50; 60]%Z.

Definition falling : list Q := series [60; 50; 40; 30; 20; 10]%Z.

Definition mixed : list Q := series [10; 30; 20; 60; 40; 50]%Z.

(** Two series that mirror each other around their common mean 10.  Their
    deviations from the mean are -3, -1, 0, 0, 1, 3 and the opposite, so the
    sample covariance is -20/5 = -4 and both sample variances are 20/5 = 4:
    every intermediate quantity of the correlation is a small integer or a
    power of two, and the correlation is -1 without any rounding. *)
Definition waxing : list Q := series [7; 9; 10; 10; 11; 13]%Z.

Definition waning : list Q := series [13; 11; 10; 10; 9; 7]%Z.

(** Seeds of one network at vertices 2 and 4 of both hemispheres; the
    series around left vertex 2 wane while the network's other seeds wax. *)
Definition opposed_csv : csv_table :=
  mk_csv_table [(L, "A"%string, 2%Z); (L, "A"%string, 4%Z);
                (R, "A"%string, 2%Z); (R, "A"%string, 4%Z)] None.

Definition opposed_func_L : ndarray2 :=
  mk_ndarray2 6 [mixed; waning; waning; mixed; waxing].

Definition opposed_func_R : ndarray2 :=
  mk_ndarray2 6 [mixed; waxing; waxing; mixed; waxing].

Definition opposed_func : ndarray2 :=
  mk_ndarray2 6 (rows opposed_func_L ++ rows opposed_func_R).

Definition opposed_radii : radii := mk_radii 0 1 1.

(** A limits file with one column per seed, permitting nothing. *)
Definition forbidding_limits : ndarray2 :=
  mk_ndarray2 3 (repeat (series [0; 0; 0]%Z) 5).

(** The masks of the first sweep on these seeds. *)
Definition opposed_masks : masks :=
  mk_masks [0; 0; 1; 0; 2; 0; 0; 3; 0; 4]%Z
           [0; 1; 1; 0; 2; 0; 3; 3; 0; 4]%Z
           [0; 1; 1; 0; 2; 0; 3; 3; 0; 4]%Z.

(** The sampling means of the first sweep on these seeds, and the target
    series of the first seed. *)
Definition opposed_sampling_meants : ndarray2 :=
  match calc_sampling_meants opposed_func (sampling_rois opposed_masks) with
  | Ok m => m
  | Raise _ => mk_ndarray2 0 []
  end.

Definition opposed_target : list Q :=
  match target_meants (read_csv opposed_csv) "A" 1 opposed_sampling_meants with
  | Ok t => t
  | Raise _ => []
  end.

(** Seeds of one network at vertices 1 and 4 of both hemispheres, with a
    sampling radius of 1: the regions of the seeds cover every vertex, and
    every vertex is valid. *)
Definition covering_csv : csv_table :=
  mk_csv_table [(L, "A"%string, 1%Z); (L, "A"%string, 4%Z);
                (R, "A"%string, 1%Z); (R, "A"%string, 4%Z)] None.

Definition covering_radii : radii := mk_radii 1 1 1.

Definition covering_func_L : ndarray2 :=
  mk_ndarray2 6 [rising; rising; rising; mixed; mixed].

Definition covering_func_R : ndarray2 :=
  mk_ndarray2 6 [falling; falling; falling; rising; rising].

Definition covering_func : ndarray2 :=
  mk_ndarray2 6 (rows covering_func_L ++ rows covering_func_R).

Definition covering_arguments : arguments := mk_arguments false false covering_radii None.

(** Three vertices, used with masks written by hand. *)
Definition three_vertices : ndarray2 := mk_ndarray2 6 [rising; falling; mixed].

(** The result of the first pass on the example, for the limits check. *)
Definition example_first : pint_result :=
  match iterate_pint (path_externals 5 in_order) example_radii 50 example_df tvertex
                     example_func [1; 8]%nat false 5 0 with
  | Some (Ok r) => r
  | _ => mk_pint_result [] 0%Q distance 0 []
  end.

(** The example with a search radius of 0: every seed's only candidate is
    its own vertex. *)
Definition still_radii : radii := mk_radii 1 0 1.

Definition still_state : loop_state :=
  match sweep (path_externals 5 in_order) still_radii example_func [1; 8]%nat false 5
              (init_state example_df tvertex 0) with
  | Ok st => st
  | Raise _ => init_state example_df tvertex 0
  end.

(** A row whose two positions both exist and differ. *)
Definition position_differs (ic oc : vcol) (s : seed) : bool :=
  match lookup vcol_eqb ic (vcols s), lookup vcol_eqb oc (vcols s) with
  | Some a, Some b => negb (a =? b)%Z
  | _, _ => false
  end.

(** The template-to-final distances of the example, computed once more. *)
Definition example_distances : dataframe * list geo_call :=
  match calc_distance_column (path_externals 5 in_order) (res_df example_first)
                             tvertex ivertex (dist_ 7) 3%Q with
  | Ok p => p
  | Raise _ => ([], [])
  end.

(** The left-hemisphere regions of radius 1 around the example's template
    vertices. *)
Definition example_left_mask : list Z :=
  match roi_surf_data (path_externals 5 in_order) example_df tvertex surfL L 1%Q with
  | Ok m => m
  | Raise _ => []
  end.

(** The target series of the example's second seed in its first sweep. *)
Definition example_target : list Q :=
  mean_axis0 6 [nth 0 (rows example_sampling_meants) [];
                nth 2 (rows example_sampling_meants) []].

(** A limits file that permits every vertex, and the example checked
    against it. *)
Definition permitting_limits : ndarray2 :=
  mk_ndarray2 3 (repeat (series [1; 1; 1]%Z) 5).

Definition example_reconciled : pint_result :=
  match reconcile (path_externals 5 in_order) example_radii 50 permitting_limits
                  permitting_limits example_func [1; 8]%nat false 5 example_first with
  | Some (Ok r) => r
  | _ => mk_pint_result [] 0%Q distance 0 []
  end.

(** The whole run on the example, without a limits file. *)
Definition example_arguments : arguments := mk_arguments false false example_radii None.

Definition example_outputs : outputs :=
  match run_PINT (path_externals 5 in_order) 50 example_arguments example_csv
                 example_func_L example_func_R with
  | Some (Ok out) => out
  | _ => mk_outputs (mk_pint_result [] 0%Q distance 0 []) (mk_ndarray2 0 [])
                    (mk_ndarray2 0 [])
  end.

(** ** The correlation of the mirror series in binary64

    [np.corrcoef(x, y)[0][1]] as numpy evaluates it on binary64 numbers: the
    rows are centred on their means, the covariance matrix is the matrix of
    dot products times [1 / (n - 1)], and the entry is divided by the square
    roots of both diagonal entries, then clipped to [-1, 1].  It serves to
    check that, on the mirror series of the example, rounding changes
    nothing: the score numpy reports is the number -1.0. *)
Module Binary64.
Import PrimFloat.
Local Open Scope float_scope.

Definition sum64 (l : list float) : float := fold_left add l 0.

Definition count64 (l : list float) : float := sum64 (map (fun _ => 1) l).

Definition mean64 (l : list float) : float := sum64 l / count64 l.

Definition dot64 (x y : list float) : float :=
  sum64 (map (fun p => fst p * snd p) (combine x y)).

Definition clip64 (c : float) : float :=
  if ltb c (-1) then -1 else if ltb 1 c then 1 else c.

Definition corrcoef64 (x y : list float) : float :=
  let dx := map (fun v => v - mean64 x) x in
  let dy := map (fun v => v - mean64 y) y in
  let scale := 1 / (count64 x - 1) in
  let c := dot64 dx dy * scale in
  let vx := dot64 dx dx * scale in
  let vy := dot64 dy dy * scale in
  clip64 (c / sqrt vx / sqrt vy).

(** [np.mean(rows, axis=0)]. *)
Fixpoint mean_axis0_64 (T : nat) (rows : list (list float)) : list float :=
  match T with
  | O => []
  | S n => mean64 (map (fun r => hd 0 r) rows) :: mean_axis0_64 n (map (@tl float) rows)
  end.

Definition waxing64 : list float := [7; 9; 10; 10; 11; 13].

Definition waning64 : list float := [13; 11; 10; 10; 9; 7].

(** The target of the first seed of the opposed example: the mean of the
    sampling rows of the three other seeds, each the mean of one vertex. *)
Definition opposed_target64 : list float :=
  mean_axis0_64 6 [mean_axis0_64 6 [waxing64]; mean_axis0_64 6 [waxing64];
                   mean_axis0_64 6 [waxing64]].

Definition fill_value64 : float := 0 - 1.

End Binary64.

(** * Properties *)

Unset Implicit Arguments.

(** ** Helper lemmas *)

Lemma Qltb_lt (x y : Q) : Qltb x y = true <-> (x < y)%Q.
Proof.
  unfold Qltb. rewrite negb_true_iff. split; intros H.
  - apply Qnot_le_lt. intros Hle. apply Qle_bool_iff in Hle. congruence.
  - destruct (Qle_bool y x) eqn:E; [|reflexivity].
    apply Qle_bool_iff in E. exfalso. exact (Qlt_not_le _ _ H E).
Qed.

Lemma where_from_In {A : Type} (p : A -> bool) (d : A) (xs : list A) :
  forall i v, In v (where_from i p xs) <->
              (i <= v /\ v - i < length xs /\ p (nth (v - i) xs d) = true)%nat.
Proof.
  induction xs as [|x xs IH]; intros i v.
  - simpl. split; [tauto | intros (_ & H & _); lia].
  - assert (Hnth : (i < v)%nat -> nth (v - i) (x :: xs) d = nth (v - S i) xs d).
    { intros Hlt. replace (v - i)%nat with (S (v - S i)) by lia. reflexivity. }
    cbn [where_from length].
    destruct (p x) eqn:Hp; split.
    + intros [<- | H].
      * rewrite Nat.sub_diag. cbn. repeat split; try lia. exact Hp.
      * apply IH in H. destruct H as (H1 & H2 & H3).
        rewrite Hnth by lia. repeat split; try lia. exact H3.
    + intros (H1 & H2 & H3).
      destruct (Nat.eq_dec v i) as [->|Hne]; [left; reflexivity | right].
      apply IH. rewrite Hnth in H3 by lia. repeat split; try lia. exact H3.
    + intros H. apply IH in H. destruct H as (H1 & H2 & H3).
      rewrite Hnth by lia. repeat split; try lia. exact H3.
    + intros (H1 & H2 & H3).
      destruct (Nat.eq_dec v i) as [->|Hne].
      * rewrite Nat.sub_diag in H3. cbn in H3. congruence.
      * apply IH. rewrite Hnth in H3 by lia. repeat split; try lia. exact H3.
Qed.

Lemma np_where_In {A : Type} (p : A -> bool) (d : A) (xs : list A) (v : nat) :
  In v (np_where p xs) <-> (v < length xs /\ p (nth v xs d) = true)%nat.
Proof.
  unfold np_where. rewrite (where_from_In p d xs 0 v), Nat.sub_0_r.
  split; [intros (_ & H); exact H | intros H; split; [lia | exact H]].
Qed.

(** ** The validity flag (run_PINT, lines 93-96) *)



(** ** Termination of the Iteration Controller *)

Section Controller.
Variables (E : externals) (rad : radii) (func_data : ndarray2)
          (func_zeros : list nat) (pcorr : bool) (num_Lverts start_iter : nat).


Lemma sweep_iter_num (st st' : loop_state) :
  sweep E rad func_data func_zeros pcorr num_Lverts st = Ok st' ->
  st_iter_num st' = S (st_iter_num st) /\
  st_vertex_outcol st' = Some (vertex_ (st_iter_num st)) /\
  st_distance_outcol st' = Some (dist_ (st_iter_num st)) /\
  st_vertex_incol st' = vertex_ (st_iter_num st).
Proof.
  unfold sweep. intros H.
  repeat match type of H with
         | bind ?r _ = Ok _ => destruct r; cbn [bind] in H; [|discriminate H]
         end.
  injection H as <-. cbn. auto.
Qed.

Lemma pint_loop_trace (fuel : nat) :
  forall st : loop_state,
    (st_iter_num st <= start_iter + 50)%nat ->
    (start_iter + 50 - st_iter_num st <= fuel)%nat ->
    exists n : nat,
      (n <= start_iter + 50 - st_iter_num st)%nat /\
      (forall j, (j < n)%nat ->
         exists stj,
           sweeps E rad func_data func_zeros pcorr num_Lverts j st = Ok stj /\
           (1 < st_max_distance stj)%Q) /\
      match sweeps E rad func_data func_zeros pcorr num_Lverts n st with
      | Raise e =>
          pint_loop E rad func_data func_zeros pcorr num_Lverts start_iter fuel st
          = Some (Raise e)
      | Ok stn =>
          pint_loop E rad func_data func_zeros pcorr num_Lverts start_iter fuel st
          = Some (Ok stn) /\
          st_iter_num stn = (st_iter_num st + n)%nat /\
          ((st_max_distance stn <= 1)%Q \/ n = (start_iter + 50 - st_iter_num st)%nat)
      end.
Proof.
  induction fuel as [|fuel IH]; intros st Hle Hfuel.
  - exists 0%nat. cbn [sweeps pint_loop].
    assert (Hc : (st_iter_num st <? start_iter + 50) = false)
      by (apply Nat.ltb_ge; lia).
    rewrite Hc. cbn [andb].
    split; [lia|]. split; [intros j Hj; lia|].
    split; [reflexivity|]. split; [lia|]. right. lia.
  - cbn [pint_loop].
    destruct ((st_iter_num st <? start_iter + 50) && Qltb 1 (st_max_distance st))
      eqn:Hc.
    + apply andb_true_iff in Hc. destruct Hc as [Hlt Hd].
      apply Nat.ltb_lt in Hlt. apply Qltb_lt in Hd.
      destruct (sweep E rad func_data func_zeros pcorr num_Lverts st) as [st'|e] eqn:Hs.
      * destruct (sweep_iter_num _ _ Hs) as (Hi & _).
        destruct (IH st') as (n & Hn & Htr & Hfin); [lia | lia |].
        exists (S n). split; [lia|]. split.
        -- intros [|j] Hj.
           ++ exists st. split; [reflexivity | exact Hd].
           ++ cbn [sweeps]. rewrite Hs. cbn [bind]. apply Htr. lia.
        -- cbn [sweeps]. rewrite Hs. cbn [bind].
           destruct (sweeps E rad func_data func_zeros pcorr num_Lverts n st')
             as [stn|e']; [|exact Hfin].
           destruct Hfin as (H1 & H2 & H3). repeat split; [exact H1 | lia |].
           destruct H3 as [H3|H3]; [left; exact H3 | right; lia].
      * exists 1%nat. split; [lia|]. split.
        -- intros j Hj. assert (j = 0)%nat as -> by lia.
           exists st. split; [reflexivity | exact Hd].
        -- cbn [sweeps]. rewrite Hs. reflexivity.
    + exists 0%nat. cbn [sweeps].
      split; [lia|]. split; [intros j Hj; lia|].
      split; [reflexivity|]. split; [lia|].
      apply andb_false_iff in Hc. destruct Hc as [Hc|Hc].
      * right. apply Nat.ltb_ge in Hc. lia.
      * left. apply Qnot_lt_le. intros Hd. apply Qltb_lt in Hd. congruence.
Qed.
End Controller.

(** ** Masks and invalid vertices *)

Lemma set_at_length {A : Type} (v : A) (l : list A) :
  forall i, length (set_at i v l) = length l.
Proof.
  induction l as [|x l IH]; intros [|i]; cbn; try reflexivity.
  now rewrite IH.
Qed.

Lemma set_at_nth_same {A : Type} (v d : A) (l : list A) :
  forall i, (i < length l)%nat -> nth i (set_at i v l) d = v.
Proof.
  induction l as [|x l IH]; intros [|i] H; cbn in *; try lia; try reflexivity.
  apply IH. lia.
Qed.

Lemma set_at_nth_other {A : Type} (v d : A) (l : list A) :
  forall i j, i <> j -> nth j (set_at i v l) d = nth j l d.
Proof.
  induction l as [|x l IH]; intros [|i] [|j] H; cbn; try reflexivity; try congruence.
  apply IH. congruence.
Qed.

Lemma assign_at_spec {A : Type} (v d : A) (idx : list nat) :
  forall l l', assign_at l idx v = Ok l' ->
    length l' = length l /\
    (forall i, In i idx -> (i < length l)%nat /\ nth i l' d = v) /\
    (forall i, ~ In i idx -> nth i l' d = nth i l d).
Proof.
  induction idx as [|i idx IH]; intros l l' H; cbn [assign_at] in H.
  - injection H as <-. repeat split; intros; try reflexivity; contradiction.
  - destruct (i <? length l) eqn:Hi; [|discriminate H].
    apply Nat.ltb_lt in Hi.
    destruct (IH _ _ H) as (Hlen & Hin & Hout).
    rewrite set_at_length in Hlen, Hin. split; [exact Hlen|]. split.
    + intros j [<-|Hj].
      * split; [exact Hi|].
        destruct (in_dec Nat.eq_dec i idx) as [Hi'|Hi'].
        -- apply Hin, Hi'.
        -- rewrite (Hout _ Hi'). apply set_at_nth_same, Hi.
      * apply Hin, Hj.
    + intros j Hj. rewrite Hout by (intros Hj'; apply Hj; right; exact Hj').
      apply set_at_nth_other. intros ->. apply Hj. left. reflexivity.
Qed.

Lemma candidates_In (search padding : list Z) (vlabel : Z) (v : nat) :
  In v (candidates search padding vlabel) <->
  (v < length search)%nat /\ (v < length padding)%nat /\
  nth v search 0%Z = vlabel /\ nth v padding 0%Z = vlabel.
Proof.
  unfold candidates, intersect1d. rewrite filter_In, existsb_exists.
  rewrite (np_where_In _ 0%Z). split.
  - intros ((H1 & H2) & x & Hx & Hvx). apply Nat.eqb_eq in Hvx. subst x.
    apply (np_where_In _ 0%Z) in Hx. destruct Hx as [H3 H4].
    apply Z.eqb_eq in H2, H4. auto.
  - intros (H1 & H2 & H3 & H4). split.
    + split; [exact H1 | apply Z.eqb_eq; auto].
    + exists v. split; [|apply Nat.eqb_refl].
      apply (np_where_In _ 0%Z). split; [exact H2 | apply Z.eqb_eq; auto].
Qed.

Lemma mapM_nth {A B : Type} (f : A -> result B) (l : list A) :
  forall bs, mapM f l = Ok bs ->
    length bs = length l /\
    (forall i a, nth_error l i = Some a ->
       exists b, f a = Ok b /\ nth_error bs i = Some b).
Proof.
  induction l as [|x l IH]; intros bs H; cbn [mapM] in H.
  - injection H as <-. split; [reflexivity|]. intros [|i] a Ha; discriminate Ha.
  - destruct (f x) as [b|] eqn:Hx; [|discriminate H]. cbn [bind] in H.
    destruct (mapM f l) as [bs'|]; [|discriminate H]. cbn [bind] in H.
    injection H as <-. destruct (IH bs' eq_refl) as [Hlen Hnth].
    split; [cbn; now rewrite Hlen|].
    intros [|i] a Ha; cbn in Ha.
    + injection Ha as <-. exists b. split; [exact Hx | reflexivity].
    + apply Hnth, Ha.
Qed.

(** The stages of a sweep that completes: the masks are built from the
    incoming positions, the sampling means (and in partial mode the network
    means) are computed from them, and only then are the seeds moved. *)
Lemma sweep_stages (E : externals) (rad : radii) (func_data : ndarray2)
  (func_zeros : list nat) (pcorr : bool) (num_Lverts : nat) (st st' : loop_state) :
  sweep E rad func_data func_zeros pcorr num_Lverts st = Ok st' ->
  exists (m : masks) (sampling_meants : ndarray2)
         (netmeants : option (list (string * list Q))) (df' : dataframe),
    build_masks E rad
                (fill_d (fill_v (st_df st) (vertex_ (st_iter_num st)) (-999)%Z)
                        (dist_ (st_iter_num st)) (-(999 # 10))%Q)
                (st_vertex_incol st) func_zeros = Ok m /\
    calc_sampling_meants func_data (sampling_rois m) = Ok sampling_meants /\
    (if pcorr
     then exists nm,
            calc_network_meants sampling_meants
              (fill_d (fill_v (st_df st) (vertex_ (st_iter_num st)) (-999)%Z)
                      (dist_ (st_iter_num st)) (-(999 # 10))%Q) = Ok nm /\
            netmeants = Some nm
     else netmeants = None) /\
    move_all E
             (shuffle E (st_iter_num st)
                (index_tolist
                   (fill_d (fill_v (st_df st) (vertex_ (st_iter_num st)) (-999)%Z)
                           (dist_ (st_iter_num st)) (-(999 # 10))%Q)))
             (st_vertex_incol st) (vertex_ (st_iter_num st)) func_data sampling_meants
             m pcorr num_Lverts netmeants
             (fill_d (fill_v (st_df st) (vertex_ (st_iter_num st)) (-999)%Z)
                     (dist_ (st_iter_num st)) (-(999 # 10))%Q) = Ok df'.
Proof.
  unfold sweep. intros H.
  destruct (build_masks E rad _ (st_vertex_incol st) func_zeros) as [m|] eqn:Hb;
    [|discriminate H].
  cbn [bind] in H.
  destruct (calc_sampling_meants func_data (sampling_rois m)) as [sm|] eqn:Hsm;
    [|discriminate H].
  cbn [bind] in H.
  destruct pcorr.
  - destruct (calc_network_meants sm _) as [nm|] eqn:Hnm; [|discriminate H].
    cbn [bind] in H.
    destruct (move_all E _ _ _ func_data sm m true num_Lverts (Some nm) _)
      as [df'|] eqn:Hm; [|discriminate H].
    exists m, sm, (Some nm), df'. split; [auto|]. split; [auto|].
    split; [exists nm; split; auto | auto].
  - cbn [bind] in H.
    destruct (move_all E _ _ _ func_data sm m false num_Lverts None _)
      as [df'|] eqn:Hm; [|discriminate H].
    exists m, sm, None, df'. auto.
Qed.

(** C1 (as amended). When the masks of a sweep are built, every invalid
    vertex carries label 0 in the sampling mask and in the search mask; the
    padding mask is exactly what the Region Builder returned, invalid
    vertices included.  Still no invalid vertex is an admissible candidate
    of a seed with a nonzero label; and the sampling means computed from
    the sampling mask have one row per entry of [np.unique(mask)[1:]], the
    row of a nonzero label being the mean of the time series of the
    vertices that carry the label, none of which is invalid.  A sweep that
    completes has built its masks in this way, and computed its sampling
    means from them, before it moves any seed. *)
Theorem build_masks_invalid_vertices (E : externals) (rad : radii) (df : dataframe)
  (vertex_incol : vcol) (func_zeros : list nat) (m : masks) :
  build_masks E rad df vertex_incol func_zeros = Ok m ->
  (forall v, In v func_zeros ->
             nth v (sampling_rois m) 0%Z = 0%Z /\ nth v (search_rois m) 0%Z = 0%Z) /\
  rois_bilateral E df vertex_incol (RADIUS_PADDING rad) = Ok (padding_rois m) /\
  (forall vlabel v, vlabel <> 0%Z -> In v func_zeros ->
                    ~ In v (candidates (search_rois m) (padding_rois m) vlabel)) /\
  (forall roi v, roi <> 0%Z -> In v func_zeros ->
                 ~ In v (np_where (Z.eqb roi) (sampling_rois m))) /\
  (forall (func_data sampling_meants : ndarray2),
     calc_sampling_meants func_data (sampling_rois m) = Ok sampling_meants ->
     shape0 sampling_meants = length (tl (np_unique (sampling_rois m))) /\
     forall i roi, nth_error (tl (np_unique (sampling_rois m))) i = Some roi ->
       roi <> 0%Z ->
       exists sel,
         take_rows func_data (np_where (Z.eqb roi) (sampling_rois m)) = Ok sel /\
         nth_error (rows sampling_meants) i = Some (mean_axis0 (shape1 func_data) sel) /\
         forall v, In v func_zeros ->
                   ~ In v (np_where (Z.eqb roi) (sampling_rois m))) /\
  (forall (func_data : ndarray2) (pcorr : bool) (num_Lverts : nat)
          (st st' : loop_state),
     sweep E rad func_data func_zeros pcorr num_Lverts st = Ok st' ->
     exists (m' : masks) (sampling_meants : ndarray2)
            (netmeants : option (list (string * list Q))) (df' : dataframe),
       build_masks E rad
                   (fill_d (fill_v (st_df st) (vertex_ (st_iter_num st)) (-999)%Z)
                           (dist_ (st_iter_num st)) (-(999 # 10))%Q)
                   (st_vertex_incol st) func_zeros = Ok m' /\
       calc_sampling_meants func_data (sampling_rois m') = Ok sampling_meants /\
       move_all E
                (shuffle E (st_iter_num st)
                   (index_tolist
                      (fill_d (fill_v (st_df st) (vertex_ (st_iter_num st)) (-999)%Z)
                              (dist_ (st_iter_num st)) (-(999 # 10))%Q)))
                (st_vertex_incol st) (vertex_ (st_iter_num st)) func_data
                sampling_meants m' pcorr num_Lverts netmeants
                (fill_d (fill_v (st_df st) (vertex_ (st_iter_num st)) (-999)%Z)
                        (dist_ (st_iter_num st)) (-(999 # 10))%Q) = Ok df').
Proof.
  unfold build_masks. intros H.
  assert (Hsweep : forall (func_data : ndarray2) (pcorr : bool) (num_Lverts : nat)
                          (st st' : loop_state),
     sweep E rad func_data func_zeros pcorr num_Lverts st = Ok st' ->
     exists (m' : masks) (sampling_meants : ndarray2)
            (netmeants : option (list (string * list Q))) (df' : dataframe),
       build_masks E rad
                   (fill_d (fill_v (st_df st) (vertex_ (st_iter_num st)) (-999)%Z)
                           (dist_ (st_iter_num st)) (-(999 # 10))%Q)
                   (st_vertex_incol st) func_zeros = Ok m' /\
       calc_sampling_meants func_data (sampling_rois m') = Ok sampling_meants /\
       move_all E
                (shuffle E (st_iter_num st)
                   (index_tolist
                      (fill_d (fill_v (st_df st) (vertex_ (st_iter_num st)) (-999)%Z)
                              (dist_ (st_iter_num st)) (-(999 # 10))%Q)))
                (st_vertex_incol st) (vertex_ (st_iter_num st)) func_data
                sampling_meants m' pcorr num_Lverts netmeants
                (fill_d (fill_v (st_df st) (vertex_ (st_iter_num st)) (-999)%Z)
                        (dist_ (st_iter_num st)) (-(999 # 10))%Q) = Ok df').
  { intros func_data pcorr num_Lverts st st' Hs.
    destruct (sweep_stages E rad func_data func_zeros pcorr num_Lverts st st' Hs)
      as (m' & sm & nm & df' & H1 & H2 & _ & H4).
    exists m', sm, nm, df'. auto. }
  destruct (rois_bilateral E df vertex_incol (RADIUS_SAMPLING rad)) as [s0|]; [|discriminate H].
  cbn [bind] in H.
  destruct (assign_at s0 func_zeros 0%Z) as [s1|] eqn:Hs; [|discriminate H].
  cbn [bind] in H.
  destruct (rois_bilateral E df vertex_incol (RADIUS_SEARCH rad)) as [c0|]; [|discriminate H].
  cbn [bind] in H.
  destruct (assign_at c0 func_zeros 0%Z) as [c1|] eqn:Hc; [|discriminate H].
  cbn [bind] in H.
  destruct (rois_bilateral E df vertex_incol (RADIUS_PADDING rad)) as [p0|]; [|discriminate H].
  cbn [bind] in H. injection H as <-. cbn [sampling_rois search_rois padding_rois].
  destruct (assign_at_spec 0%Z 0%Z func_zeros _ _ Hs) as (_ & Hs1 & _).
  destruct (assign_at_spec 0%Z 0%Z func_zeros _ _ Hc) as (_ & Hc1 & _).
  assert (Hsamp : forall roi v, roi <> 0%Z -> In v func_zeros ->
                                ~ In v (np_where (Z.eqb roi) s1)).
  { intros roi v Hl Hv Hin. apply (np_where_In _ 0%Z) in Hin.
    destruct Hin as [_ Hin]. apply Z.eqb_eq in Hin.
    rewrite (proj2 (Hs1 v Hv)) in Hin. congruence. }
  split; [|split; [reflexivity|split; [|split; [exact Hsamp|split; [|exact Hsweep]]]]].
  - intros v Hv. split; [apply Hs1, Hv | apply Hc1, Hv].
  - intros vlabel v Hl Hv Hin. apply candidates_In in Hin.
    destruct Hin as (_ & _ & Hsearch & _).
    rewrite (proj2 (Hc1 v Hv)) in Hsearch. congruence.
  - intros func_data sm Hsm. unfold calc_sampling_meants in Hsm.
    destruct (mapM _ (tl (np_unique s1))) as [out|] eqn:Hm; [|discriminate Hsm].
    cbn [bind] in Hsm. injection Hsm as <-.
    destruct (mapM_nth _ _ _ Hm) as [Hlen Hnth].
    split; [exact Hlen|].
    intros i roi Hi Hroi. destruct (Hnth i roi Hi) as (row & Hrow & Hout).
    destruct (take_rows func_data (np_where (Z.eqb roi) s1)) as [sel|];
      [|discriminate Hrow].
    cbn [bind] in Hrow. injection Hrow as <-.
    exists sel. split; [reflexivity|]. split; [exact Hout|].
    intros v Hv. now apply Hsamp.
Qed.

Lemma build_masks_invalid_vertices_witness :
  nth 8 (search_rois example_masks) 0%Z = 0%Z.
Proof.
  refine (proj2 (proj1 (build_masks_invalid_vertices (path_externals 5 in_order)
                          example_radii example_df tvertex [1; 8]%nat _ _) 8%nat _)).
  - vm_compute. reflexivity.
  - cbn. auto.
Defined.

(** C1, as stated, fails for the padding mask: right-hemisphere vertex 3
    (stacked position 8) is invalid and keeps the label of seed 3 there. *)
Lemma padding_mask_keeps_invalid_vertex :
  ~ (forall m,
       build_masks (path_externals 5 in_order) example_radii example_df tvertex
                   [1; 8]%nat = Ok m ->
       forall v, In v [1; 8]%nat -> nth v (padding_rois m) 0%Z = 0%Z).
Proof.
  intros H.
  specialize (H example_masks).
  assert (Hb : build_masks (path_externals 5 in_order) example_radii example_df tvertex
                           [1; 8]%nat
               = Ok example_masks)
    by (vm_compute; reflexivity).
  specialize (H Hb 8%nat (or_intror (or_introl eq_refl))).
  cbn in H. discriminate H.
Qed.

(** ** One seed's evaluation reads only frozen data *)

Lemma pint_move_vertex_new_position (E : externals) (df : dataframe) (idx : nat)
  (vertex_incol vertex_outcol : vcol) (func_data sampling_meants : ndarray2)
  (search padding : list Z) (pcorr : bool) (num_Lverts : nat)
  (netmeants : option (list (string * list Q))) :
  pint_move_vertex E df idx vertex_incol vertex_outcol func_data sampling_meants
                   search padding pcorr num_Lverts netmeants
  = (v <- new_position E df idx vertex_incol func_data sampling_meants
                       search padding pcorr num_Lverts netmeants ;;
     Ok (set_loc_v df idx vertex_outcol v)).
Proof.
  unfold pint_move_vertex, new_position.
  destruct (nth_error df idx) as [s|]; [|reflexivity].
  destruct (seed_vcol vertex_incol s) as [orig|]; [|reflexivity]. cbn [bind].
  destruct (target_meants df (NETWORK s) (roiidx s) sampling_meants) as [t|];
    [|reflexivity].
  cbn [bind].
  destruct (candidates search padding (roiidx s)) as [|c cs]; [reflexivity|].
  destruct (if pcorr then _ else _) as [score|]; [|reflexivity]. cbn [bind].
  destruct (score_loop score func_data (c :: cs) _) as [sc|]; [|reflexivity].
  cbn [bind].
  destruct (np_argmax sc); reflexivity.
Qed.

Lemma lookup_upsert_other {V : Type} (c c' : vcol) (v : V) (l : list (vcol * V)) :
  vcol_eqb c c' = false -> lookup vcol_eqb c (upsert vcol_eqb c' v l) = lookup vcol_eqb c l.
Proof.
  intros Hne. induction l as [|[k w] l IH]; cbn.
  - rewrite Hne. reflexivity.
  - destruct (vcol_eqb c' k) eqn:Hk; cbn.
    + destruct (vcol_eqb c k) eqn:Hck; [|now rewrite Hne].
      exfalso.
      destruct c, c', k; cbn in *; try congruence;
        apply Nat.eqb_eq in Hk, Hck; subst; rewrite Nat.eqb_refl in Hne; congruence.
    + destruct (vcol_eqb c k); [reflexivity | exact IH].
Qed.

Lemma vcol_eqb_refl (c : vcol) : vcol_eqb c c = true.
Proof. destruct c; cbn; try reflexivity. apply Nat.eqb_refl. Qed.

Lemma vcol_eqb_eq (c c' : vcol) : vcol_eqb c c' = true <-> c = c'.
Proof.
  split; [|intros ->; apply vcol_eqb_refl].
  destruct c, c'; cbn; try congruence. intros H. apply Nat.eqb_eq in H. congruence.
Qed.

Lemma lookup_upsert_same {V : Type} (c : vcol) (v : V) (l : list (vcol * V)) :
  lookup vcol_eqb c (upsert vcol_eqb c v l) = Some v.
Proof.
  induction l as [|[k w] l IH]; cbn.
  - now rewrite vcol_eqb_refl.
  - destruct (vcol_eqb c k) eqn:Hk; cbn.
    + now rewrite vcol_eqb_refl.
    + now rewrite Hk.
Qed.

Lemma frame_set_vcol (incol outcol : vcol) (v : Z) (s : seed) :
  vcol_eqb incol outcol = false -> frame incol (set_vcol outcol v s) = frame incol s.
Proof.
  intros H. unfold frame, set_vcol. cbn. now rewrite lookup_upsert_other.
Qed.

Lemma map_update_row {B : Type} (g : seed -> B) (f : seed -> seed) (df : dataframe) :
  (forall s, g (f s) = g s) -> forall idx, map g (update_row idx f df) = map g df.
Proof.
  intros Hg. induction df as [|s df IH]; intros [|i]; cbn; try reflexivity.
  - now rewrite Hg.
  - now rewrite IH.
Qed.

Lemma frame_set_loc_v (incol outcol : vcol) (v : Z) (idx : nat) (df : dataframe) :
  vcol_eqb incol outcol = false ->
  map (frame incol) (set_loc_v df idx outcol v) = map (frame incol) df.
Proof.
  intros H. apply map_update_row. intros s. now apply frame_set_vcol.
Qed.

Lemma network_labels_frame (c : vcol) (network : string) (df : dataframe) :
  network_labels df network =
  map (fun f => fst (fst (fst f)))
      (filter (fun f => String.eqb (snd (fst (fst f))) network) (map (frame c) df)).
Proof.
  unfold network_labels. induction df as [|s df IH]; [reflexivity|].
  cbn. destruct (String.eqb (NETWORK s) network); cbn; now rewrite IH.
Qed.

Lemma new_position_frame (E : externals) (df df' : dataframe) (idx : nat)
  (vertex_incol : vcol) (func_data sampling_meants : ndarray2)
  (search padding : list Z) (pcorr : bool) (num_Lverts : nat)
  (netmeants : option (list (string * list Q))) :
  map (frame vertex_incol) df = map (frame vertex_incol) df' ->
  new_position E df idx vertex_incol func_data sampling_meants search padding
               pcorr num_Lverts netmeants
  = new_position E df' idx vertex_incol func_data sampling_meants search padding
                 pcorr num_Lverts netmeants.
Proof.
  intros Hf.
  assert (Hrow : option_map (frame vertex_incol) (nth_error df idx)
                 = option_map (frame vertex_incol) (nth_error df' idx)).
  { rewrite <- !nth_error_map. now rewrite Hf. }
  assert (Hnet : forall n, network_labels df n = network_labels df' n).
  { intros n. rewrite (network_labels_frame vertex_incol n df),
      (network_labels_frame vertex_incol n df'). now rewrite Hf. }
  unfold new_position, target_meants.
  destruct (nth_error df idx) as [s|], (nth_error df' idx) as [s'|];
    cbn in Hrow; try discriminate Hrow; [|reflexivity].
  unfold frame in Hrow. injection Hrow as Hr Hn Hh Hl.
  unfold seed_vcol. rewrite Hr, Hn, Hh, Hl, Hnet. reflexivity.
Qed.

(** The per-seed loop as a list of independent evaluations followed by the
    writes. *)
Lemma move_all_writes (E : externals) (vertex_incol vertex_outcol : vcol)
  (func_data sampling_meants : ndarray2) (m : masks) (pcorr : bool)
  (num_Lverts : nat) (netmeants : option (list (string * list Q)))
  (df0 : dataframe) :
  vcol_eqb vertex_incol vertex_outcol = false ->
  forall (thisorder : list nat) (df : dataframe),
    map (frame vertex_incol) df = map (frame vertex_incol) df0 ->
    move_all E thisorder vertex_incol vertex_outcol func_data sampling_meants m
             pcorr num_Lverts netmeants df
    = (vs <- mapM (fun idx => new_position E df0 idx vertex_incol func_data
                                sampling_meants (search_rois m) (padding_rois m)
                                pcorr num_Lverts netmeants) thisorder ;;
       Ok (fold_left (write vertex_outcol) (combine thisorder vs) df)).
Proof.
  intros Hne. unfold move_all.
  induction thisorder as [|i order IH]; intros df Hf; [reflexivity|].
  cbn [foldM mapM]. rewrite pint_move_vertex_new_position.
  rewrite (new_position_frame E df df0 i _ _ _ _ _ _ _ _ Hf).
  destruct (new_position E df0 i vertex_incol func_data sampling_meants
                         (search_rois m) (padding_rois m) pcorr num_Lverts netmeants)
    as [v|e]; [|reflexivity].
  cbn [bind]. rewrite IH.
  - destruct (mapM _ order) as [vs|e]; reflexivity.
  - rewrite frame_set_loc_v by exact Hne. exact Hf.
Qed.

(** ** Writes to different rows commute *)

Lemma nth_error_update_row (f : seed -> seed) (df : dataframe) :
  forall i j,
    nth_error (update_row i f df) j
    = if Nat.eqb i j then option_map f (nth_error df j) else nth_error df j.
Proof.
  induction df as [|s df IH]; intros i j.
  - destruct i, j; cbn; try reflexivity; destruct (Nat.eqb i j); reflexivity.
  - destruct i, j; cbn; try reflexivity. apply IH.
Qed.

Lemma update_row_length (f : seed -> seed) (df : dataframe) :
  forall i, length (update_row i f df) = length df.
Proof.
  induction df as [|s df IH]; intros [|i]; cbn; try reflexivity. now rewrite IH.
Qed.

Lemma update_row_comm (f g : seed -> seed) (df : dataframe) :
  forall i j, i <> j ->
    update_row i f (update_row j g df) = update_row j g (update_row i f df).
Proof.
  induction df as [|s df IH]; intros [|i] [|j] H; cbn; try reflexivity; try congruence.
  rewrite IH by congruence. reflexivity.
Qed.

Lemma writes_permutation (c : vcol) (l1 l2 : list (nat * Z)) :
  Permutation l1 l2 -> NoDup (map fst l1) ->
  forall d, fold_left (write c) l1 d = fold_left (write c) l2 d.
Proof.
  induction 1 as [|x l l' HP IH|x y l|l l' l'' HP1 IH1 HP2 IH2]; intros Hnd d.
  - reflexivity.
  - cbn. apply IH. now inversion Hnd.
  - cbn. unfold write at 2 3 5 6, set_loc_v. rewrite update_row_comm; [reflexivity|].
    cbn in Hnd. inversion Hnd as [|? ? Hnin _]. intros Heq. apply Hnin. left.
    exact Heq.
  - rewrite IH1 by exact Hnd. apply IH2.
    eapply Permutation_NoDup; [|exact Hnd]. now apply Permutation_map.
Qed.

Lemma writes_length (c : vcol) (l : list (nat * Z)) :
  forall d, length (fold_left (write c) l d) = length d.
Proof.
  induction l as [|x l IH]; intros d; [reflexivity|].
  cbn. rewrite IH. apply update_row_length.
Qed.

Lemma writes_loc_other (c : vcol) (idx : nat) (l : list (nat * Z)) :
  ~ In idx (map fst l) ->
  forall d, nth_error (fold_left (write c) l d) idx = nth_error d idx.
Proof.
  induction l as [|x l IH]; intros Hnin d; [reflexivity|].
  cbn. rewrite IH by (intros H; apply Hnin; right; exact H).
  unfold write, set_loc_v. rewrite nth_error_update_row.
  destruct (Nat.eqb (fst x) idx) eqn:Hx; [|reflexivity].
  apply Nat.eqb_eq in Hx. exfalso. apply Hnin. left. exact Hx.
Qed.

Lemma writes_loc_same (c : vcol) (val : nat -> Z) (idx : nat) (order : list nat) :
  NoDup order -> In idx order ->
  forall d, (idx < length d)%nat ->
    loc_v (fold_left (write c) (map (fun i => (i, val i)) order) d) idx c = Ok (val idx).
Proof.
  induction order as [|i order IH]; intros Hnd Hin d Hlt; [contradiction|].
  inversion Hnd as [|? ? Hnin Hnd']. subst. cbn [map fold_left].
  destruct (Nat.eq_dec i idx) as [->|Hne].
  - unfold loc_v. rewrite writes_loc_other.
    + unfold write, set_loc_v. cbn [fst snd]. rewrite nth_error_update_row, Nat.eqb_refl.
      destruct (nth_error d idx) as [s|] eqn:Hs.
      * cbn. now rewrite lookup_upsert_same.
      * apply nth_error_None in Hs. lia.
    + rewrite map_map. cbn. rewrite map_id. exact Hnin.
  - apply IH; [exact Hnd' | destruct Hin; [congruence | assumption] |].
    unfold write, set_loc_v. now rewrite update_row_length.
Qed.

Lemma mapM_cases {A B : Type} (f : A -> result B) (val : A -> B) (l : list A) :
  (forall a v, f a = Ok v -> val a = v) ->
  (Forall (fun a => exists v, f a = Ok v) l /\ mapM f l = Ok (map val l)) \/
  (exists a e, In a l /\ f a = Raise e /\ mapM f l = Raise e).
Proof.
  intros Hval. induction l as [|a l IH].
  - left. split; [constructor | reflexivity].
  - cbn [mapM]. destruct (f a) as [v|e] eqn:Ha.
    + destruct IH as [[Hall Hm]|(b & e & Hb & Hfb & Hm)].
      * left. split; [constructor; [eauto | exact Hall]|].
        rewrite Hm. cbn. now rewrite (Hval _ _ Ha).
      * right. exists b, e. split; [right; exact Hb|]. split; [exact Hfb|].
        rewrite Hm. reflexivity.
    + right. exists a, e. split; [left; reflexivity|]. split; [exact Ha | reflexivity].
Qed.

Lemma combine_map_val {A B : Type} (val : A -> B) (l : list A) :
  combine l (map val l) = map (fun i => (i, val i)) l.
Proof. induction l as [|a l IH]; cbn; [reflexivity | now rewrite IH]. Qed.

(** Two visiting orders of the per-seed loop give the same table. *)
Lemma move_all_permutation (E : externals) (vertex_incol vertex_outcol : vcol)
  (func_data sampling_meants : ndarray2) (m : masks) (pcorr : bool)
  (num_Lverts : nat) (netmeants : option (list (string * list Q)))
  (df : dataframe) (order1 order2 : list nat) :
  vcol_eqb vertex_incol vertex_outcol = false ->
  NoDup order1 ->
  Permutation order1 order2 ->
  match move_all E order1 vertex_incol vertex_outcol func_data sampling_meants m
                 pcorr num_Lverts netmeants df with
  | Ok df1 =>
      move_all E order2 vertex_incol vertex_outcol func_data sampling_meants m
               pcorr num_Lverts netmeants df = Ok df1 /\
      (forall idx, In idx order1 ->
         loc_v df1 idx vertex_outcol
         = new_position E df idx vertex_incol func_data sampling_meants
                        (search_rois m) (padding_rois m) pcorr num_Lverts netmeants)
  | Raise _ =>
      exists e, move_all E order2 vertex_incol vertex_outcol func_data sampling_meants
                         m pcorr num_Lverts netmeants df = Raise e
  end.
Proof.
  intros Hne Hnd HP.
  rewrite !(move_all_writes E vertex_incol vertex_outcol func_data sampling_meants m
              pcorr num_Lverts netmeants df Hne _ df eq_refl).
  set (f := fun idx => new_position E df idx vertex_incol func_data sampling_meants
                         (search_rois m) (padding_rois m) pcorr num_Lverts netmeants).
  set (val := fun idx => match f idx with Ok v => v | Raise _ => 0%Z end).
  assert (Hval : forall a v, f a = Ok v -> val a = v).
  { intros a v Ha. unfold val. now rewrite Ha. }
  destruct (mapM_cases f val order1 Hval) as [[Hall H1]|(a & e & Ha & Hfa & H1)];
    destruct (mapM_cases f val order2 Hval) as [[Hall2 H2]|(b & e2 & Hb & Hfb & H2)];
    rewrite H1, H2; cbn [bind].
  - rewrite !combine_map_val. split.
    + f_equal. symmetry. apply writes_permutation.
      * now apply Permutation_map.
      * rewrite map_map. cbn. now rewrite map_id.
    + intros idx Hin.
      rewrite Forall_forall in Hall. destruct (Hall idx Hin) as [v Hv].
      change (new_position E df idx vertex_incol func_data sampling_meants
                (search_rois m) (padding_rois m) pcorr num_Lverts netmeants)
        with (f idx).
      rewrite Hv, <- (Hval _ _ Hv).
      apply writes_loc_same; [exact Hnd | exact Hin |].
      unfold f, new_position in Hv.
      destruct (nth_error df idx) eqn:Hs; [|discriminate Hv].
      apply nth_error_Some. congruence.
  - exfalso. rewrite Forall_forall in Hall.
    destruct (Hall b) as [v Hv]; [|congruence].
    eapply Permutation_in; [symmetry; exact HP | exact Hb].
  - exfalso. rewrite Forall_forall in Hall2.
    destruct (Hall2 a) as [v Hv]; [|congruence].
    eapply Permutation_in; [exact HP | exact Ha].
  - exists e2. reflexivity.
Qed.

(** ** Networks with a single member *)

Lemma insert_unique_In (x y : Z) (l : list Z) :
  In y (insert_unique x l) -> y = x \/ In y l.
Proof.
  induction l as [|z l IH]; cbn.
  - intros [<-|[]]. now left.
  - destruct (x <? z)%Z.
    + intros [<-|H]; [now left | now right].
    + destruct (x =? z)%Z.
      * intros H. now right.
      * intros [<-|H]; [right; now left|].
        destruct (IH H) as [->|H']; [now left | right; now right].
Qed.

Lemma np_unique_In (y : Z) (l : list Z) : In y (np_unique l) -> In y l.
Proof.
  induction l as [|x l IH]; cbn; [tauto|].
  intros H. destruct (insert_unique_In _ _ _ H) as [->|H']; [now left | right; auto].
Qed.

(** C5 (as amended). The evaluation of a seed that is the only member of
    its network raises IndexError when the target series is computed, and
    does so in partial-correlation mode and in full-correlation mode
    alike: the code has no membership check of its own and no restriction
    that is specific to a mode. *)
Theorem single_member_network_raises (E : externals) (df : dataframe) (idx : nat)
  (s : seed) (vertex_incol vertex_outcol : vcol) (func_data sampling_meants : ndarray2)
  (search padding : list Z) (pcorr : bool) (num_Lverts : nat)
  (netmeants : option (list (string * list Q))) (v : Z) :
  nth_error df idx = Some s ->
  seed_vcol vertex_incol s = Ok v ->
  (forall l, In l (network_labels df (NETWORK s)) -> l = roiidx s) ->
  pint_move_vertex E df idx vertex_incol vertex_outcol func_data sampling_meants
                   search padding pcorr num_Lverts netmeants
  = Raise IndexError.
Proof.
  intros Hs Hv Hsingle. unfold pint_move_vertex. rewrite Hs, Hv. cbn [bind].
  unfold target_meants.
  destruct (filter (fun l => negb (l =? roiidx s)%Z)
                   (np_unique (network_labels df (NETWORK s)))) as [|l ls] eqn:Hf.
  - reflexivity.
  - exfalso. assert (Hin : In l (l :: ls)) by now left.
    rewrite <- Hf in Hin. apply filter_In in Hin. destruct Hin as [Hin Hneq].
    apply np_unique_In, Hsingle in Hin. subst l.
    rewrite Z.eqb_refl in Hneq. discriminate Hneq.
Qed.

Lemma single_member_network_raises_witness :
  pint_move_vertex (path_externals 5 in_order) single_member_df 1 tvertex (vertex_ 0)
                   example_func example_sampling_meants
                   (search_rois example_masks) (padding_rois example_masks)
                   true 5 (Some []) = Raise IndexError.
Proof.
  apply (single_member_network_raises (path_externals 5 in_order) single_member_df 1
           (mk_seed 2 "B" L [(tvertex, 3%Z)] []) tvertex (vertex_ 0) example_func
           example_sampling_meants (search_rois example_masks)
           (padding_rois example_masks) true 5 (Some []) 3%Z).
  - reflexivity.
  - reflexivity.
  - cbn. intros l [<-|[]]. reflexivity.
Defined.

(** C5, as stated, fails: in full-correlation mode the seed of a
    single-member network meets the very same failure as in partial mode,
    so the restriction is not particular to partial correlation. *)
Lemma full_mode_single_member_fails_too :
  ~ (exists df',
       pint_move_vertex (path_externals 5 in_order) single_member_df 1 tvertex
                        (vertex_ 0) example_func example_sampling_meants
                        (search_rois example_masks) (padding_rois example_masks)
                        false 5 None = Ok df') /\
  pint_move_vertex (path_externals 5 in_order) single_member_df 1 tvertex
                   (vertex_ 0) example_func example_sampling_meants
                   (search_rois example_masks) (padding_rois example_masks)
                   false 5 None
  = pint_move_vertex (path_externals 5 in_order) single_member_df 1 tvertex
                     (vertex_ 0) example_func example_sampling_meants
                     (search_rois example_masks) (padding_rois example_masks)
                     true 5 (Some [("A"%string, []); ("B"%string, [])]).
Proof.
  split.
  - intros [df' H]. vm_compute in H. discriminate H.
  - vm_compute. reflexivity.
Qed.

(** ** The reconciliation pass *)

(** C2. Whenever a limits file is supplied, [run_PINT] raises
    AttributeError at line 83, before any sweep; and the call that would
    start the second pass (line 132) leaves [surfR] and [num_Lverts]
    without a value, so that [reconcile] raises TypeError whenever a seed
    fails the limits check: the second pass starting at sweep 50 never
    runs.  The last two facts evaluate the check on the example after its
    first pass, with a limits file that permits no vertex. *)
Theorem reconciliation_never_runs :
  (forall (E : externals) (fuel : nat) (pcorr outputall : bool) (rad : radii)
          (limits : ndarray2 * ndarray2) (origcsv : csv_table)
          (func_dataL func_dataR : ndarray2),
     run_PINT E fuel (mk_arguments pcorr outputall rad (Some limits)) origcsv
              func_dataL func_dataR = Some (Raise AttributeError)) /\
  bind_arguments iterate_pint_params 6 ["start_iter"%string] = Raise TypeError /\
  bind_arguments iterate_pint_params 8 [] = Ok tt /\
  (forall (E : externals) (rad : radii) (fuel : nat) (limitsL limitsR : ndarray2)
          (func_data : ndarray2) (func_zeros : list nat) (pcorr : bool)
          (num_Lverts : nat) (first : pint_result),
     reconcile E rad fuel limitsL limitsR func_data func_zeros pcorr num_Lverts first
     = match vstack limitsL limitsR with
       | Raise e => Some (Raise e)
       | Ok limits =>
           let df := fill_v (res_df first) avertex (-99)%Z in
           match foldM (limits_step limits (shape0 limitsL)) (index_tolist df)
                       (df, true) with
           | Raise e => Some (Raise e)
           | Ok acc =>
               if snd acc
               then Some (Ok (mk_pint_result (fst acc) (res_max_distance first)
                                             (res_distance_outcol first)
                                             (res_iter_num first) (res_calls first)))
               else Some (Raise TypeError)
           end
       end) /\
  res_iter_num example_first = 1%nat /\
  reconcile (path_externals 5 in_order) example_radii 50 forbidding_limits
            forbidding_limits example_func [1; 8]%nat false 5 example_first
  = Some (Raise TypeError).
Proof.
  split; [|split; [|split; [|split; [|split]]]].
  - intros. reflexivity.
  - reflexivity.
  - reflexivity.
  - intros. unfold reconcile, bindO.
    destruct (vstack limitsL limitsR) as [limits|]; [|reflexivity].
    cbv zeta.
    destruct (foldM _ _ _) as [acc|]; [|reflexivity].
    destruct (snd acc); reflexivity.
  - vm_compute. reflexivity.
  - vm_compute. reflexivity.
Qed.

(** ** The selected vertex *)

Lemma argmax_go_first_max (xs : list (option Q)) :
  forall (pre : list (option Q)) (bi : nat) (b : Q),
    nth_error pre bi = Some (Some b) ->
    (forall j, (j < length pre)%nat ->
       exists qj, nth_error pre j = Some (Some qj) /\
                  (qj <= b)%Q /\ ((j < bi)%nat -> (qj < b)%Q)) ->
    first_max (pre ++ xs) (argmax_go (length pre) bi b xs).
Proof.
  induction xs as [|[x|] xs IH]; intros pre bi b Hbi Hpre.
  - cbn [argmax_go]. rewrite app_nil_r. right. exists b. split; [exact Hbi | exact Hpre].
  - cbn [argmax_go].
    assert (Hlt : (bi < length pre)%nat) by (apply nth_error_Some; congruence).
    assert (Happ : pre ++ Some x :: xs = (pre ++ [Some x]) ++ xs)
      by (now rewrite <- app_assoc).
    assert (Hlen : S (length pre) = length (pre ++ [Some x]))
      by (rewrite length_app; cbn; lia).
    rewrite Happ, Hlen.
    destruct (Qltb b x) eqn:Hbx.
    + apply Qltb_lt in Hbx. apply IH.
      * rewrite nth_error_app2 by lia. now rewrite Nat.sub_diag.
      * intros j Hj. rewrite length_app in Hj. cbn in Hj.
        destruct (Nat.eq_dec j (length pre)) as [->|Hne].
        -- exists x. rewrite nth_error_app2 by lia. rewrite Nat.sub_diag.
           split; [reflexivity|]. split; [apply Qle_refl | lia].
        -- destruct (Hpre j ltac:(lia)) as (qj & Hq & Hle & _).
           exists qj. rewrite nth_error_app1 by lia.
           split; [exact Hq|]. split.
           ++ apply Qlt_le_weak. eapply Qle_lt_trans; eassumption.
           ++ intros _. eapply Qle_lt_trans; eassumption.
    + assert (Hxb : (x <= b)%Q).
      { apply Qnot_lt_le. intros H. apply Qltb_lt in H. congruence. }
      apply IH.
      * now rewrite nth_error_app1 by lia.
      * intros j Hj. rewrite length_app in Hj. cbn in Hj.
        destruct (Nat.eq_dec j (length pre)) as [->|Hne].
        -- exists x. rewrite nth_error_app2 by lia. rewrite Nat.sub_diag.
           split; [reflexivity|]. split; [exact Hxb | lia].
        -- destruct (Hpre j ltac:(lia)) as (qj & Hq & Hle & Hlt').
           exists qj. rewrite nth_error_app1 by lia. auto.
  - cbn [argmax_go]. left. split.
    + rewrite nth_error_app2 by lia. now rewrite Nat.sub_diag.
    + intros j Hj. destruct (Hpre j Hj) as (qj & Hq & _).
      exists qj. now rewrite nth_error_app1 by lia.
Qed.

Lemma np_argmax_first_max (arr : list (option Q)) (p : nat) :
  np_argmax arr = Ok p -> first_max arr p.
Proof.
  destruct arr as [|[x|] xs]; cbn [np_argmax]; intros H; [discriminate H| |].
  - injection H as <-.
    apply (argmax_go_first_max xs [Some x] 0%nat x); [reflexivity|].
    intros j Hj. cbn in Hj. assert (j = 0%nat) as -> by lia.
    exists x. split; [reflexivity|]. split; [apply Qle_refl | lia].
  - injection H as <-. left. split; [reflexivity|]. intros j Hj. lia.
Qed.

Lemma score_loop_array (score : list Q -> option Q) (func_data : ndarray2)
  (cand : list nat) :
  forall arr0 arr : list (option Q),
    length arr0 = shape0 func_data ->
    score_loop score func_data cand arr0 = Ok arr ->
    length arr = length arr0 /\
    (forall v, In v cand ->
       (v < shape0 func_data)%nat /\
       nth_error arr v = Some (score (nth v (rows func_data) []))) /\
    (forall v, ~ In v cand -> nth_error arr v = nth_error arr0 v).
Proof.
  induction cand as [|c cand IH]; intros arr0 arr Hlen H; cbn [score_loop] in H.
  - injection H as <-. split; [reflexivity|]. split; [intros v []|reflexivity].
  - destruct (nth_error (rows func_data) c) as [ts|] eqn:Hts; [|discriminate H].
    assert (Hc : (c < shape0 func_data)%nat) by (apply nth_error_Some; congruence).
    destruct (IH _ _ ltac:(rewrite set_at_length; exact Hlen) H) as (Hl & Hin & Hout).
    rewrite set_at_length in Hl.
    assert (Hset : nth_error (set_at c (score ts) arr0) c = Some (score ts)).
    { rewrite (nth_error_nth' _ None) by (rewrite set_at_length; lia).
      rewrite set_at_nth_same by lia. reflexivity. }
    split; [exact Hl|]. split.
    + intros v [<-|Hv].
      * split; [exact Hc|].
        rewrite (nth_error_nth _ _ [] Hts).
        destruct (in_dec Nat.eq_dec c cand) as [Hcc|Hcc].
        -- destruct (Hin c Hcc) as [_ Hv]. rewrite Hv.
           now rewrite (nth_error_nth _ _ [] Hts).
        -- rewrite (Hout c Hcc). exact Hset.
      * apply Hin, Hv.
    + intros v Hv. rewrite Hout by (intros Hv'; apply Hv; now right).
      assert (Hne : c <> v) by (intros ->; apply Hv; now left).
      destruct (Nat.lt_ge_cases v (length arr0)) as [Hvl|Hvl].
      * rewrite (nth_error_nth' _ None) by (rewrite set_at_length; lia).
        rewrite (nth_error_nth' arr0 None) by lia.
        now rewrite set_at_nth_other.
      * rewrite (proj2 (nth_error_None _ _)) by (rewrite set_at_length; lia).
        symmetry. apply nth_error_None. lia.
Qed.


(** The score array of an evaluation and the position [np.argmax] takes
    from it: every candidate holds its score, every other position the fill
    value -1, and the new position is the first maximum of the array. *)
Lemma new_position_first_max (E : externals) (df : dataframe)
  (idx : nat) (s : seed) (vertex_incol : vcol) (func_data sampling_meants : ndarray2)
  (search padding : list Z) (pcorr : bool) (num_Lverts : nat)
  (netmeants : option (list (string * list Q))) (v : Z) (t : list Q)
  (score : list Q -> option Q) :
  nth_error df idx = Some s ->
  seed_vcol vertex_incol s = Ok v ->
  target_meants df (NETWORK s) (roiidx s) sampling_meants = Ok t ->
  (if pcorr
   then match netmeants with
        | None => Raise AttributeError
        | Some nm =>
            Ok (fun ts => partial_corr E t ts
                            (map snd (filter (fun c => negb (String.eqb (fst c) (NETWORK s)))
                                             nm)))
        end
   else Ok (fun ts => corrcoef E t ts)) = Ok score ->
  (forall c, In c (candidates search padding (roiidx s)) -> (c < shape0 func_data)%nat) ->
  candidates search padding (roiidx s) <> [] ->
  exists (arr : list (option Q)) (p : nat),
    length arr = shape0 func_data /\
    (forall c, In c (candidates search padding (roiidx s)) ->
       nth_error arr c = Some (score (nth c (rows func_data) []))) /\
    (forall j, ~ In j (candidates search padding (roiidx s)) ->
       (j < shape0 func_data)%nat -> nth_error arr j = Some (Some (-1)%Q)) /\
    first_max arr p /\
    new_position E df idx vertex_incol func_data sampling_meants search padding
                 pcorr num_Lverts netmeants
    = Ok (match hemi s with
          | R => (Z.of_nat p - Z.of_nat num_Lverts)%Z
          | L => Z.of_nat p
          end).
Proof.
  intros Hs Hv Ht Hscore Hrange Hne.
  unfold new_position. rewrite Hs, Hv. cbn [bind]. rewrite Ht. cbn [bind].
  set (cand := candidates search padding (roiidx s)) in *.
  destruct cand as [|c1 cs] eqn:Hcand; [now destruct Hne|].
  rewrite <- Hcand in *. rewrite Hscore. cbn [bind].
  assert (Hc0 : In c1 cand) by (rewrite Hcand; now left).
  assert (Hloop : exists arr,
            score_loop score func_data cand (repeat (Some (-1)%Q) (shape0 func_data))
            = Ok arr).
  { clear Hc0 Hcand Hne.
    generalize (repeat (Some (-1)%Q) (shape0 func_data)).
    induction cand as [|c cand IH]; intros arr0; cbn [score_loop]; [eauto|].
    destruct (nth_error (rows func_data) c) as [ts|] eqn:Hts.
    - apply IH. intros c' Hc'. apply Hrange. now right.
    - apply nth_error_None in Hts. specialize (Hrange c (or_introl eq_refl)).
      unfold shape0 in Hrange. lia. }
  destruct Hloop as [arr Harr]. rewrite Harr. cbn [bind].
  destruct (score_loop_array score func_data cand _ arr (repeat_length _ _) Harr)
    as (Hlen & Hin & Hout).
  rewrite repeat_length in Hlen.
  assert (Hfill : forall j, ~ In j cand -> (j < shape0 func_data)%nat ->
                            nth_error arr j = Some (Some (-1)%Q)).
  { intros j Hj Hjl. rewrite (Hout j Hj).
    rewrite (nth_error_nth' _ None) by (rewrite repeat_length; exact Hjl).
    f_equal. apply nth_repeat_lt. exact Hjl. }
  destruct (np_argmax arr) as [p|] eqn:Hp.
  2:{ destruct arr; [|destruct o; discriminate Hp].
      specialize (Hrange c1 Hc0). cbn in Hlen. lia. }
  cbn [bind]. exists arr, p.
  split; [exact Hlen|]. split; [intros c Hc; apply Hin, Hc|].
  split; [exact Hfill|]. split; [apply np_argmax_first_max, Hp | reflexivity].
Qed.

(** What the evaluation selects when some candidate beats the fill value
    of the score array: a candidate of maximal score, the first such in
    ascending vertex order (a NaN score counting as maximal). *)
Lemma new_position_selects_best_candidate (E : externals) (df : dataframe)
  (idx : nat) (s : seed) (vertex_incol : vcol) (func_data sampling_meants : ndarray2)
  (search padding : list Z) (pcorr : bool) (num_Lverts : nat)
  (netmeants : option (list (string * list Q))) (v : Z) (t : list Q)
  (score : list Q -> option Q) :
  nth_error df idx = Some s ->
  seed_vcol vertex_incol s = Ok v ->
  target_meants df (NETWORK s) (roiidx s) sampling_meants = Ok t ->
  (if pcorr
   then match netmeants with
        | None => Raise AttributeError
        | Some nm =>
            Ok (fun ts => partial_corr E t ts
                            (map snd (filter (fun c => negb (String.eqb (fst c) (NETWORK s)))
                                             nm)))
        end
   else Ok (fun ts => corrcoef E t ts)) = Ok score ->
  (forall c, In c (candidates search padding (roiidx s)) -> (c < shape0 func_data)%nat) ->
  (exists c, In c (candidates search padding (roiidx s)) /\
             (score (nth c (rows func_data) []) = None \/
              exists q, score (nth c (rows func_data) []) = Some q /\ (-1 < q)%Q)) ->
  exists p : nat,
    new_position E df idx vertex_incol func_data sampling_meants search padding
                 pcorr num_Lverts netmeants
    = Ok (match hemi s with
          | R => (Z.of_nat p - Z.of_nat num_Lverts)%Z
          | L => Z.of_nat p
          end) /\
    In p (candidates search padding (roiidx s)) /\
    ((score (nth p (rows func_data) []) = None /\
      forall c, In c (candidates search padding (roiidx s)) -> (c < p)%nat ->
                score (nth c (rows func_data) []) <> None) \/
     (exists q, score (nth p (rows func_data) []) = Some q /\
        forall c, In c (candidates search padding (roiidx s)) ->
          exists qc, score (nth c (rows func_data) []) = Some qc /\
                     (qc <= q)%Q /\ ((c < p)%nat -> (qc < q)%Q))).
Proof.
  intros Hs Hv Ht Hscore Hrange (c0 & Hc0 & Hbeat).
  destruct (new_position_first_max E df idx s vertex_incol func_data sampling_meants
              search padding pcorr num_Lverts netmeants v t score Hs Hv Ht Hscore Hrange)
    as (arr & p & Hlen & Hin & Hfill & Hfm & Hnew).
  { intros Hnil. rewrite Hnil in Hc0. destruct Hc0. }
  set (cand := candidates search padding (roiidx s)) in *.
  exists p. split; [exact Hnew|].
  assert (Hpl : (p < shape0 func_data)%nat).
  { rewrite <- Hlen. apply nth_error_Some.
    destruct Hfm as [[H _]|(q & H & _)]; congruence. }
  assert (Hpc : In p cand).
  { destruct (in_dec Nat.eq_dec p cand) as [Hpc|Hpc]; [exact Hpc|]. exfalso.
    assert (Hpv := Hfill p Hpc Hpl).
    destruct Hfm as [[H _]|(q & H & Hall)]; [congruence|].
    assert (q = (-1)%Q) by congruence. subst q.
    destruct (Hall c0 ltac:(rewrite Hlen; apply Hrange, Hc0)) as (q0 & Hq0 & Hle & _).
    rewrite (Hin c0 Hc0) in Hq0.
    destruct Hbeat as [Hn|(q & Hq & Hgt)]; [congruence|].
    assert (q = q0) by congruence. subst q0.
    exact (Qlt_not_le _ _ Hgt Hle). }
  split; [exact Hpc|].
  assert (Hsp := Hin p Hpc).
  destruct Hfm as [[H Hbefore]|(q & H & Hall)].
  - left. split; [congruence|].
    intros c Hc Hlt Hnone. destruct (Hbefore c Hlt) as [qc Hqc].
    rewrite (Hin c Hc) in Hqc. congruence.
  - right. exists q. split; [congruence|].
    intros c Hc. destruct (Hall c ltac:(rewrite Hlen; apply Hrange, Hc))
      as (qc & Hqc & Hle & Hlt).
    exists qc. rewrite (Hin c Hc) in Hqc. split; [congruence|]. auto.
Qed.

(** When no candidate scores above the fill value and position 0 of the
    stacked time series is not a candidate, the first maximum of the score
    array is position 0: the seed is written a vertex that is not among its
    candidates, whatever the correlation routine. *)
Lemma fill_value_wins_at_position_0 (E : externals) (df : dataframe)
  (idx : nat) (s : seed) (vertex_incol vertex_outcol : vcol)
  (func_data sampling_meants : ndarray2)
  (search padding : list Z) (pcorr : bool) (num_Lverts : nat)
  (netmeants : option (list (string * list Q))) (v : Z) (t : list Q)
  (score : list Q -> option Q) :
  nth_error df idx = Some s ->
  seed_vcol vertex_incol s = Ok v ->
  target_meants df (NETWORK s) (roiidx s) sampling_meants = Ok t ->
  (if pcorr
   then match netmeants with
        | None => Raise AttributeError
        | Some nm =>
            Ok (fun ts => partial_corr E t ts
                            (map snd (filter (fun c => negb (String.eqb (fst c) (NETWORK s)))
                                             nm)))
        end
   else Ok (fun ts => corrcoef E t ts)) = Ok score ->
  candidates search padding (roiidx s) <> [] ->
  (forall c, In c (candidates search padding (roiidx s)) -> (c < shape0 func_data)%nat) ->
  (forall c, In c (candidates search padding (roiidx s)) ->
     exists q, score (nth c (rows func_data) []) = Some q /\ (q <= -1)%Q) ->
  ~ In 0%nat (candidates search padding (roiidx s)) ->
  pint_move_vertex E df idx vertex_incol vertex_outcol func_data sampling_meants
                   search padding pcorr num_Lverts netmeants
  = Ok (set_loc_v df idx vertex_outcol
                  (match hemi s with
                   | R => (0 - Z.of_nat num_Lverts)%Z
                   | L => 0%Z
                   end)).
Proof.
  intros Hs Hv Ht Hscore Hne Hrange Hlow H0.
  destruct (new_position_first_max E df idx s vertex_incol func_data sampling_meants
              search padding pcorr num_Lverts netmeants v t score
              Hs Hv Ht Hscore Hrange Hne)
    as (arr & p & Hlen & Hin & Hfill & Hfm & Hnew).
  set (cand := candidates search padding (roiidx s)) in *.
  assert (Hpos : (0 < shape0 func_data)%nat).
  { destruct cand as [|c cs]; [contradiction|].
    specialize (Hrange c (or_introl eq_refl)). lia. }
  assert (Hentry : forall j, (j < shape0 func_data)%nat ->
                     exists q, nth_error arr j = Some (Some q) /\ (q <= -1)%Q).
  { intros j Hj. destruct (in_dec Nat.eq_dec j cand) as [Hjc|Hjc].
    - destruct (Hlow j Hjc) as (q & Hq & Hle). exists q.
      rewrite (Hin j Hjc), Hq. auto.
    - exists (-1)%Q. rewrite (Hfill j Hjc Hj). split; [reflexivity | apply Qle_refl]. }
  assert (Hp : p = 0%nat).
  { destruct Hfm as [[Hnan _]|(q & Hq & Hall)].
    - assert (Hpl : (p < shape0 func_data)%nat).
      { rewrite <- Hlen. apply nth_error_Some. congruence. }
      destruct (Hentry p Hpl) as (q & Hq & _). congruence.
    - destruct (Nat.eq_dec p 0) as [Hp|Hp]; [exact Hp|]. exfalso.
      assert (Hpl : (p < shape0 func_data)%nat).
      { rewrite <- Hlen. apply nth_error_Some. congruence. }
      destruct (Hentry p Hpl) as (q' & Hq' & Hle).
      assert (q' = q) by congruence. subst q'.
      destruct (Hall 0%nat ltac:(rewrite Hlen; exact Hpos)) as (q0 & Hq0 & _ & Hlt).
      rewrite (Hfill 0%nat H0 Hpos) in Hq0.
      assert (q0 = (-1)%Q) by congruence. subst q0.
      exact (Qlt_not_le _ _ (Hlt ltac:(lia)) Hle). }
  subst p. rewrite pint_move_vertex_new_position, Hnew. reflexivity.
Qed.

(** In binary64 the target of the first seed is the series [waxing] itself,
    and numpy's correlation of the target with the candidates' series is
    the fill value of the score array. *)
Lemma binary64_score_is_fill_value :
  Binary64.opposed_target64 = Binary64.waxing64 /\
  Binary64.corrcoef64 Binary64.opposed_target64 Binary64.waning64 = Binary64.fill_value64.
Proof. split; vm_compute; reflexivity. Qed.

(** C6. A sweep in which every candidate of seed 1 scores exactly -1: its
    candidates, left vertices 1 and 2, carry the series [waning], and the
    target of the seed, the mean of the sampling rows of the three other
    seeds, is the series [waxing], its mirror image.  The score array is
    filled with -1 before the candidates are scored, so no candidate beats
    the fill value and the first maximum of the array is position 0, which
    lies in no mask of the seed: the seed is moved to a vertex outside the
    intersection of its search and padding masks. *)
Theorem fill_value_beats_candidates :
  func_zeros_of opposed_func = Ok [] /\
  build_masks (path_externals 5 in_order) opposed_radii (read_csv opposed_csv)
              tvertex [] = Ok opposed_masks /\
  candidates (search_rois opposed_masks) (padding_rois opposed_masks) 1 = [1; 2]%nat /\
  nth 1 (rows opposed_func) [] = waning /\
  nth 2 (rows opposed_func) [] = waning /\
  calc_sampling_meants opposed_func (sampling_rois opposed_masks)
  = Ok opposed_sampling_meants /\
  target_meants (read_csv opposed_csv) "A" 1 opposed_sampling_meants
  = Ok opposed_target /\
  Forall2 Qeq opposed_target waxing /\
  (exists q, corrcoef (path_externals 5 in_order) opposed_target waning = Some q /\
             (q == -1)%Q) /\
  (exists st',
     sweep (path_externals 5 in_order) opposed_radii opposed_func [] false 5
           (init_state (read_csv opposed_csv) tvertex 0) = Ok st' /\
     loc_v (st_df st') 0 tvertex = Ok 2%Z /\
     loc_v (st_df st') 0 (vertex_ 0) = Ok 0%Z /\
     ~ In 0%nat (candidates (search_rois opposed_masks) (padding_rois opposed_masks) 1)).
Proof.
  split; [reflexivity|]. split; [vm_compute; reflexivity|].
  split; [reflexivity|]. split; [reflexivity|]. split; [reflexivity|].
  split; [vm_compute; reflexivity|]. split; [vm_compute; reflexivity|].
  split; [repeat constructor|]. split.
  - eexists. split; [vm_compute; reflexivity | reflexivity].
  - eexists. split; [vm_compute; reflexivity|].
    split; [reflexivity|]. split; [reflexivity|].
    cbn. intros [H|[H|[]]]; discriminate H.
Qed.

(** ** Rows of the sampling means *)

Lemma insert_unique_In_iff (x y : Z) (l : list Z) :
  In y (insert_unique x l) <-> y = x \/ In y l.
Proof.
  split; [apply insert_unique_In|].
  induction l as [|z l IH]; cbn.
  - intros [->|[]]. now left.
  - destruct (x <? z)%Z eqn:Hlt.
    + intros [->|[->|H]]; cbn; auto.
    + destruct (x =? z)%Z eqn:Heq.
      * apply Z.eqb_eq in Heq. subst z. intros [->|[->|H]]; cbn; auto.
      * intros [->|[->|H]]; cbn; auto.
Qed.

Lemma np_unique_In_iff (y : Z) (l : list Z) : In y (np_unique l) <-> In y l.
Proof.
  induction l as [|x l IH]; cbn; [tauto|].
  rewrite insert_unique_In_iff, IH. intuition congruence.
Qed.

Lemma insert_unique_sorted (x : Z) (l : list Z) :
  StronglySorted Z.lt l -> StronglySorted Z.lt (insert_unique x l).
Proof.
  induction l as [|z l IH]; intros Hs; cbn.
  - repeat constructor.
  - inversion Hs as [|? ? Hs' Hall]; subst.
    destruct (x <? z)%Z eqn:Hlt.
    + apply Z.ltb_lt in Hlt. constructor; [exact Hs|].
      constructor; [exact Hlt|].
      eapply Forall_impl; [|exact Hall]. cbn. intros a Ha. lia.
    + destruct (x =? z)%Z eqn:Heq; [exact Hs|].
      apply Z.ltb_ge in Hlt. apply Z.eqb_neq in Heq.
      constructor; [apply IH, Hs'|].
      apply Forall_forall. intros a Ha. apply insert_unique_In in Ha.
      destruct Ha as [->|Ha]; [lia|].
      rewrite Forall_forall in Hall. now apply Hall.
Qed.

Lemma np_unique_sorted (l : list Z) : StronglySorted Z.lt (np_unique l).
Proof.
  induction l as [|x l IH]; cbn; [constructor | now apply insert_unique_sorted].
Qed.

(** A mask with an unassigned vertex and no negative label has 0 as its
    first distinct value. *)
Lemma np_unique_zero_first (mask : list Z) :
  In 0%Z mask -> Forall (fun l => 0 <= l)%Z mask ->
  np_unique mask = 0%Z :: tl (np_unique mask) /\
  Forall (fun l => 0 < l)%Z (tl (np_unique mask)).
Proof.
  intros H0 Hnn.
  assert (Hs := np_unique_sorted mask).
  assert (Hin : forall y, In y (np_unique mask) <-> In y mask)
    by (intros y; apply np_unique_In_iff).
  destruct (np_unique mask) as [|x u].
  - exfalso. apply (proj2 (Hin 0%Z)) in H0. contradiction.
  - inversion Hs as [|? ? Hs' Hall]; subst. cbn [tl].
    assert (Hx : x = 0%Z).
    { rewrite Forall_forall in Hnn, Hall.
      assert (0 <= x)%Z by (apply Hnn, Hin; now left).
      apply (proj2 (Hin 0%Z)) in H0. destruct H0 as [H0|H0]; [exact H0|].
      apply Hall in H0. lia. }
    subst x. split; [reflexivity | exact Hall].
Qed.

Lemma sorted_index_lower (ls : list Z) :
  StronglySorted Z.lt ls ->
  forall (b : Z) (i : nat) (l : Z),
    Forall (fun x => b < x)%Z ls -> nth_error ls i = Some l ->
    (b + Z.of_nat i + 1 <= l)%Z.
Proof.
  induction 1 as [|x ls Hs IH Hall]; intros b i l Hb Hn.
  - destruct i; discriminate Hn.
  - inversion Hb as [|? ? Hbx Hb']; subst. destruct i as [|i]; cbn in Hn.
    + injection Hn as <-. lia.
    + specialize (IH x i l Hall Hn). lia.
Qed.

Lemma sorted_index_exact (ls : list Z) :
  StronglySorted Z.lt ls ->
  forall (b : Z) (i : nat) (l : Z),
    Forall (fun x => b < x)%Z ls -> nth_error ls i = Some l ->
    (l = b + Z.of_nat i + 1 <-> forall r, b < r < l -> In r ls)%Z.
Proof.
  induction 1 as [|x ls Hs IH Hall]; intros b i l Hb Hn.
  - destruct i; discriminate Hn.
  - inversion Hb as [|? ? Hbx Hb']; subst. destruct i as [|i]; cbn in Hn.
    + injection Hn as <-. split.
      * intros Hx r Hr. lia.
      * intros Hr.
        destruct (Z.eq_dec x (b + 1)) as [->|Hne]; [lia|].
        exfalso. destruct (Hr (b + 1)%Z) as [Hin|Hin]; [lia|lia|].
        rewrite Forall_forall in Hall. apply Hall in Hin. lia.
    + assert (Hlow := sorted_index_lower ls Hs x i l Hall Hn).
      specialize (IH x i l Hall Hn). split.
      * intros Hl r Hr.
        assert (Hx : x = (b + 1)%Z) by lia.
        destruct (Z.eq_dec r x) as [->|Hne]; [now left|].
        right. apply (proj1 IH); lia.
      * intros Hr.
        assert (Hx : x = (b + 1)%Z).
        { destruct (Z.eq_dec x (b + 1)) as [->|Hne]; [reflexivity|].
          exfalso. destruct (Hr (b + 1)%Z) as [Hin|Hin]; [lia|lia|].
          rewrite Forall_forall in Hall. apply Hall in Hin. lia. }
        assert (Hl : l = (x + Z.of_nat i + 1)%Z).
        { apply (proj2 IH). intros r Hrr.
          destruct (Hr r) as [Hin|Hin]; [lia|lia|exact Hin]. }
        lia.
Qed.

(** For a sampling mask that has an unassigned or invalid vertex (label 0)
    and no negative label, the sampling means have one row per distinct
    nonzero label of the mask, in ascending label order, row [i] being the
    mean series of the vertices that carry the [i]-th such label.  The row
    of label [l] sits at index [l - 1], the index the target computation
    uses, exactly when every label from 1 to [l - 1] also occurs in the
    mask; in that case indexing by [l - 1] returns the mean of the vertices
    labelled [l]. *)
Lemma sampling_rows_by_label (func_data : ndarray2) (mask : list Z) (sm : ndarray2) :
  In 0%Z mask ->
  Forall (fun l => 0 <= l)%Z mask ->
  calc_sampling_meants func_data mask = Ok sm ->
  StronglySorted Z.lt (tl (np_unique mask)) /\
  (forall l, In l (tl (np_unique mask)) <-> In l mask /\ l <> 0%Z) /\
  shape0 sm = length (tl (np_unique mask)) /\
  (forall i l, nth_error (tl (np_unique mask)) i = Some l ->
     exists sel,
       take_rows func_data (np_where (Z.eqb l) mask) = Ok sel /\
       nth_error (rows sm) i = Some (mean_axis0 (shape1 func_data) sel) /\
       (Z.of_nat i = (l - 1)%Z <-> (forall r, (1 <= r < l)%Z -> In r mask)) /\
       ((forall r, (1 <= r < l)%Z -> In r mask) ->
        take_label_rows sm [l] = Ok [mean_axis0 (shape1 func_data) sel])).
Proof.
  intros H0 Hnn Hc.
  destruct (np_unique_zero_first mask H0 Hnn) as [Hu Hpos].
  assert (Hs : StronglySorted Z.lt (tl (np_unique mask))).
  { assert (Hs := np_unique_sorted mask). rewrite Hu in Hs. now inversion Hs. }
  assert (Hin : forall l, In l (tl (np_unique mask)) <-> In l mask /\ l <> 0%Z).
  { intros l. rewrite <- (np_unique_In_iff l mask). rewrite Hu at 2. cbn [In].
    rewrite Forall_forall in Hpos. split.
    - intros Hl. split; [now right | apply Hpos in Hl; lia].
    - intros [[Hl|Hl] Hne]; [congruence | exact Hl]. }
  unfold calc_sampling_meants in Hc.
  destruct (mapM _ (tl (np_unique mask))) as [out|] eqn:Hm; [|discriminate Hc].
  cbn [bind] in Hc. injection Hc as <-.
  destruct (mapM_nth _ _ _ Hm) as [Hlen Hnth].
  split; [exact Hs|]. split; [exact Hin|]. split; [exact Hlen|].
  intros i l Hil. destruct (Hnth i l Hil) as (row & Hrow & Hout).
  destruct (take_rows func_data (np_where (Z.eqb l) mask)) as [sel|] eqn:Hsel;
    [|discriminate Hrow].
  cbn [bind] in Hrow. injection Hrow as <-.
  exists sel. split; [reflexivity|]. split; [exact Hout|].
  assert (Hexact := sorted_index_exact _ Hs 0%Z i l Hpos Hil).
  assert (Hiff : Z.of_nat i = (l - 1)%Z <-> (forall r, (1 <= r < l)%Z -> In r mask)).
  { split.
    - intros Hi r Hr. apply Hin. apply (proj1 Hexact); lia.
    - intros Hr. assert (Hl : l = (0 + Z.of_nat i + 1)%Z); [|lia].
      apply (proj2 Hexact). intros r Hrr. apply Hin. split; [apply Hr; lia | lia]. }
  split; [exact Hiff|].
  intros Hr. apply (proj2 Hiff) in Hr.
  unfold take_label_rows. cbn [mapM]. unfold np_index, shape0. cbn [rows].
  assert (Hi : (i < length out)%nat).
  { apply nth_error_Some. congruence. }
  rewrite <- Hr.
  assert (Hb : ((0 <=? Z.of_nat i)%Z && (Z.of_nat i <? Z.of_nat (length out))%Z) = true).
  { apply andb_true_iff. split; [apply Z.leb_le | apply Z.ltb_lt]; lia. }
  rewrite Hb. cbn [bind]. rewrite Nat2Z.id, Hout. reflexivity.
Qed.

Lemma sampling_rows_by_label_witness :
  exists sel,
    take_rows three_vertices (np_where (Z.eqb 2) [1; 0; 2]%Z) = Ok sel /\
    take_label_rows (mk_ndarray2 6 [rising; mixed]) [2%Z]
    = Ok [mean_axis0 (shape1 three_vertices) sel].
Proof.
  destruct (sampling_rows_by_label three_vertices [1; 0; 2]%Z
              (mk_ndarray2 6 [rising; mixed])) as (_ & _ & _ & H).
  - cbn. auto.
  - repeat constructor; lia.
  - vm_compute. reflexivity.
  - destruct (H 1%nat 2%Z eq_refl) as (sel & H1 & _ & _ & H4).
    exists sel. split; [exact H1|]. apply H4.
    intros r Hr. assert (r = 1%Z) as -> by lia. cbn. auto.
Defined.

(** When no vertex of the mask is labelled 0, the first distinct value
    that is dropped is the smallest seed label: two nonzero labels are
    present and one row is produced. *)
Lemma fully_labelled_mask_drops_a_label :
  ~ (forall sm,
       calc_sampling_meants three_vertices [1; 1; 2]%Z = Ok sm ->
       shape0 sm
       = length (nodup Z.eq_dec (filter (fun l => negb (l =? 0)%Z) [1; 1; 2]%Z))).
Proof.
  intros H.
  destruct (calc_sampling_meants three_vertices [1; 1; 2]%Z) as [sm|] eqn:Hsm.
  - specialize (H sm eq_refl). vm_compute in Hsm. injection Hsm as <-.
    vm_compute in H. discriminate H.
  - vm_compute in Hsm. discriminate Hsm.
Qed.

(** C9. A run on a mesh whose every vertex is valid and lies in the
    sampling region of exactly one seed: the sampling mask has the four
    labels 1 to 4 and no 0.  [np.unique(mask)[1:]] then drops label 1
    instead of label 0, so the sampling means have three rows for four
    nonzero labels; row 0, which the target computation reads for label 1,
    is the mean of the vertices labelled 2; label 4 has no row, the target
    of the first seed cannot be computed, and the sweep and the whole run
    raise IndexError. *)
Theorem fully_covered_mesh_loses_a_row :
  func_zeros_of covering_func = Ok [] /\
  (exists (m : masks) (sm : ndarray2),
     build_masks (path_externals 5 in_order) covering_radii (read_csv covering_csv)
                 tvertex [] = Ok m /\
     sampling_rois m = [1; 1; 1; 2; 2; 3; 3; 3; 4; 4]%Z /\
     calc_sampling_meants covering_func (sampling_rois m) = Ok sm /\
     length (nodup Z.eq_dec (filter (fun l => negb (l =? 0)%Z) (sampling_rois m)))
     = 4%nat /\
     shape0 sm = 3%nat /\
     (exists sel,
        take_rows covering_func (np_where (Z.eqb 2) (sampling_rois m)) = Ok sel /\
        take_label_rows sm [1%Z] = Ok [mean_axis0 6 sel]) /\
     take_label_rows sm [4%Z] = Raise IndexError /\
     target_meants (read_csv covering_csv) "A" 1 sm = Raise IndexError) /\
  sweep (path_externals 5 in_order) covering_radii covering_func [] false 5
        (init_state (read_csv covering_csv) tvertex 0) = Raise IndexError /\
  run_PINT (path_externals 5 in_order) 50 covering_arguments covering_csv
           covering_func_L covering_func_R = Some (Raise IndexError).
Proof.
  split; [reflexivity|]. split.
  - eexists. eexists. split; [vm_compute; reflexivity|].
    split; [reflexivity|]. split; [vm_compute; reflexivity|].
    split; [reflexivity|]. split; [reflexivity|]. split.
    + eexists. split; vm_compute; reflexivity.
    + split; vm_compute; reflexivity.
  - split; vm_compute; reflexivity.
Qed.

(** ** Partial correlation *)

Lemma Qsum_app (l l' : list Q) : (Qsum (l ++ l') == Qsum l + Qsum l')%Q.
Proof.
  induction l as [|x l IH].
  - change (Qsum l' == 0 + Qsum l')%Q. ring.
  - change (x + Qsum (l ++ l') == x + Qsum l + Qsum l')%Q. rewrite IH. ring.
Qed.

Lemma Qsum_sumT (f : nat -> Q) (T : nat) : (Qsum (map f (seq 0 T)) == sumT f T)%Q.
Proof.
  induction T as [|T IH]; [reflexivity|].
  rewrite seq_S, map_app, Qsum_app, IH.
  change (sumT f T + (f T + 0) == sumT f T + f T)%Q. ring.
Qed.

Lemma sumT_ext (f g : nat -> Q) (T : nat) :
  (forall t, (t < T)%nat -> f t == g t)%Q -> (sumT f T == sumT g T)%Q.
Proof.
  induction T as [|T IH]; intros H; [reflexivity|].
  cbn. rewrite IH, (H T) by (intros; try apply H; lia). reflexivity.
Qed.

Lemma sumT_plus (f g : nat -> Q) (T : nat) :
  (sumT (fun t => f t + g t) T == sumT f T + sumT g T)%Q.
Proof. induction T as [|T IH]; cbn; [ring | rewrite IH; ring]. Qed.

Lemma sumT_minus (f g : nat -> Q) (T : nat) :
  (sumT (fun t => f t - g t) T == sumT f T - sumT g T)%Q.
Proof. induction T as [|T IH]; cbn; [ring | rewrite IH; ring]. Qed.

Lemma sumT_scale (c : Q) (f : nat -> Q) (T : nat) :
  (sumT (fun t => c * f t) T == c * sumT f T)%Q.
Proof. induction T as [|T IH]; cbn; [ring | rewrite IH; ring]. Qed.

Lemma sumT_zero (T : nat) : (sumT (fun _ => 0) T == 0)%Q.
Proof. induction T as [|T IH]; cbn; [reflexivity | rewrite IH; ring]. Qed.

Lemma sumT_squares_nonneg (f : nat -> Q) (T : nat) :
  (0 <= sumT (fun t => f t * f t) T)%Q.
Proof.
  induction T as [|T IH]; cbn; [apply Qle_refl|].
  assert (H : (0 <= f T * f T)%Q).
  { destruct (Qlt_le_dec (f T) 0) as [Hneg|Hpos].
    - setoid_replace (f T * f T)%Q with ((- f T) * (- f T))%Q by ring.
      apply Qmult_le_0_compat; apply (Qopp_le_compat (f T) 0), Qlt_le_weak, Hneg.
    - now apply Qmult_le_0_compat. }
  setoid_replace 0%Q with (0 + 0)%Q by ring. now apply Qplus_le_compat.
Qed.

Lemma Qsquare_zero (x : Q) : (x * x == 0)%Q -> (x == 0)%Q.
Proof.
  intros H. destruct (Qmult_integral _ _ H); assumption.
Qed.

Lemma sumT_squares_zero (f : nat -> Q) (T : nat) :
  (sumT (fun t => f t * f t) T == 0)%Q -> forall t, (t < T)%nat -> (f t == 0)%Q.
Proof.
  induction T as [|T IH]; intros H t Ht; [lia|].
  cbn in H.
  assert (H1 := sumT_squares_nonneg f T).
  assert (H2 : (0 <= f T * f T)%Q).
  { assert (H2 := sumT_squares_nonneg f (S T)). cbn in H2.
    assert (H3 := sumT_squares_nonneg (fun i => if Nat.eqb i 0 then f T else 0%Q) 1).
    cbn in H3. setoid_replace (0 + f T * f T)%Q with (f T * f T)%Q in H3 by ring.
    exact H3. }
  assert (Hs : (sumT (fun t => f t * f t) T == 0)%Q).
  { apply Qle_antisym; [|exact H1].
    rewrite <- H. setoid_replace (sumT (fun t0 => f t0 * f t0) T)%Q
      with (sumT (fun t0 => f t0 * f t0) T + 0)%Q at 1 by ring.
    apply Qplus_le_compat; [apply Qle_refl | exact H2]. }
  destruct (Nat.eq_dec t T) as [->|Hne].
  - apply Qsquare_zero. rewrite Hs in H. rewrite <- H. ring.
  - apply IH; [exact Hs | lia].
Qed.

Lemma map_combine_seq {A : Type} (h : Q -> Q -> A) (x y : list Q) :
  length y = length x ->
  map (fun p => h (fst p) (snd p)) (combine x y)
  = map (fun t => h (nth t x 0%Q) (nth t y 0%Q)) (seq 0 (length x)).
Proof.
  intros Hlen.
  apply (nth_ext _ _ ((fun p => h (fst p) (snd p)) (0%Q, 0%Q))
                     ((fun t => h (nth t x 0%Q) (nth t y 0%Q)) 0%nat)).
  - rewrite !length_map, length_combine, length_seq, Hlen. apply Nat.min_id.
  - intros n Hn. rewrite length_map, length_combine, Hlen, Nat.min_id in Hn.
    rewrite (map_nth (fun p => h (fst p) (snd p))), combine_nth by (symmetry; exact Hlen).
    rewrite (map_nth (fun t => h (nth t x 0%Q) (nth t y 0%Q))), seq_nth by exact Hn.
    reflexivity.
Qed.

Lemma Zdot_length (T : nat) (Zcols : list (list Q)) (beta : list Q) :
  length (Zdot T Zcols beta) = T.
Proof. unfold Zdot. now rewrite length_map, length_seq. Qed.

Lemma Zdot_nth (T : nat) (Zcols : list (list Q)) (beta : list Q) (t : nat) :
  (t < T)%nat -> nth t (Zdot T Zcols beta) 0%Q = lin Zcols beta t.
Proof.
  intros Ht. unfold Zdot.
  assert (H := map_nth (lin Zcols beta) (seq 0 T) 0%nat t).
  rewrite seq_nth in H by exact Ht. cbn [Nat.add] in H. rewrite <- H.
  apply nth_indep. now rewrite length_map, length_seq.
Qed.

Lemma residual_as_map (X : list Q) (Zcols : list (list Q)) (beta : list Q) :
  residual X Zcols beta
  = map (fun t => (nth t X 0 - lin Zcols beta t)%Q) (seq 0 (length X)).
Proof.
  unfold residual, vsub.
  rewrite (map_combine_seq Qminus) by apply Zdot_length.
  apply map_ext_in. intros t Ht. apply in_seq in Ht.
  rewrite Zdot_nth by lia. reflexivity.
Qed.

Lemma dot_as_sum (x y : list Q) :
  length y = length x ->
  (dot x y == sumT (fun t => nth t x 0 * nth t y 0) (length x))%Q.
Proof.
  intros Hlen. unfold dot. rewrite (map_combine_seq Qmult) by exact Hlen.
  apply Qsum_sumT.
Qed.

Lemma map_seq_nth (f : nat -> Q) (T t : nat) :
  (t < T)%nat -> nth t (map f (seq 0 T)) 0%Q = f t.
Proof.
  intros Ht.
  assert (H := map_nth f (seq 0 T) 0%nat t).
  rewrite seq_nth in H by exact Ht. cbn [Nat.add] in H. rewrite <- H.
  apply nth_indep. now rewrite length_map, length_seq.
Qed.

(** Exchange of the two sums in [D . (Z beta)]. *)
Lemma sum_lin_exchange (D : nat -> Q) (T : nat) (cb : list (list Q * Q)) :
  (sumT (fun t => D t * Qsum (map (fun p => nth t (fst p) 0 * snd p) cb)) T
   == Qsum (map (fun p => snd p * sumT (fun t => nth t (fst p) 0 * D t) T) cb))%Q.
Proof.
  induction cb as [|[z g] cb IH].
  - cbn [map]. change (Qsum []) with 0%Q.
    rewrite (sumT_ext _ (fun _ => 0%Q)); [apply sumT_zero|]. intros; ring.
  - cbn [map fst snd].
    change (Qsum (?a :: ?l)) with (a + Qsum l)%Q.
    rewrite <- IH, <- sumT_scale, <- sumT_plus.
    apply sumT_ext. intros t Ht.
    change (Qsum (?a :: ?l)) with (a + Qsum l)%Q. ring.
Qed.

Lemma Qsum_all_zero (l : list Q) : Forall (fun x => x == 0)%Q l -> (Qsum l == 0)%Q.
Proof.
  induction 1 as [|x l Hx Hl IH]; [reflexivity|].
  change (x + Qsum l == 0)%Q. rewrite Hx, IH. ring.
Qed.

Lemma Forall2_map_same {A : Type} (f g : A -> Q) (l : list A) :
  (forall a, In a l -> f a == g a)%Q -> Forall2 Qeq (map f l) (map g l).
Proof.
  induction l as [|a l IH]; intros H; cbn; constructor.
  - apply H. now left.
  - apply IH. intros b Hb. apply H. now right.
Qed.

Lemma dot_residual (X z : list Q) (Zcols : list (list Q)) (beta : list Q) :
  length z = length X ->
  (dot z (residual X Zcols beta)
   == sumT (fun t => nth t z 0 * (nth t X 0 - lin Zcols beta t)) (length X))%Q.
Proof.
  intros Hz.
  assert (Hlen : length (residual X Zcols beta) = length z).
  { rewrite residual_as_map, length_map, length_seq. now symmetry. }
  rewrite (dot_as_sum _ _ Hlen), Hz.
  apply sumT_ext. intros t Ht.
  rewrite residual_as_map, (map_seq_nth _ _ _ Ht). reflexivity.
Qed.

(** Two solutions of the normal equations leave the same residual, even
    when the coefficients differ. *)
Lemma lstsq_residual_unique (X : list Q) (Zcols : list (list Q)) (b1 b2 : list Q) :
  is_lstsq Zcols X b1 -> is_lstsq Zcols X b2 ->
  Forall2 Qeq (residual X Zcols b1) (residual X Zcols b2).
Proof.
  intros [Hlen H1] [_ H2].
  set (T := length X).
  set (D := fun t => (lin Zcols b2 t - lin Zcols b1 t)%Q).
  assert (Horth : forall z, In z Zcols ->
                    (sumT (fun t => nth t z 0 * D t) T == 0)%Q).
  { intros z Hz. rewrite Forall_forall in Hlen, H1, H2.
    assert (E1 := H1 z Hz). assert (E2 := H2 z Hz).
    rewrite (dot_residual X z Zcols b1 (Hlen z Hz)) in E1.
    rewrite (dot_residual X z Zcols b2 (Hlen z Hz)) in E2.
    fold T in E1, E2.
    rewrite (sumT_ext _ (fun t => nth t z 0 * (nth t X 0 - lin Zcols b1 t)
                                  - nth t z 0 * (nth t X 0 - lin Zcols b2 t))%Q).
    - rewrite sumT_minus, E1, E2. ring.
    - intros t _. unfold D. ring. }
  assert (Hterm : forall b,
            (sumT (fun t => D t * lin Zcols b t) T == 0)%Q).
  { intros b. unfold lin. rewrite sum_lin_exchange. apply Qsum_all_zero.
    apply Forall_forall. intros q Hq. apply in_map_iff in Hq.
    destruct Hq as (p & <- & Hp). destruct p as [z g]. cbn [fst snd].
    apply in_combine_l in Hp. rewrite (Horth z Hp). ring. }
  assert (Hsq : (sumT (fun t => D t * D t) T == 0)%Q).
  { rewrite (sumT_ext _ (fun t => D t * lin Zcols b2 t - D t * lin Zcols b1 t)%Q).
    - rewrite sumT_minus, !Hterm. ring.
    - intros t _. unfold D. ring. }
  rewrite !residual_as_map. apply Forall2_map_same.
  intros t Ht. apply in_seq in Ht.
  assert (Hd := sumT_squares_zero D T Hsq t ltac:(unfold T; lia)).
  unfold D in Hd.
  setoid_replace (lin Zcols b1 t) with (lin Zcols b2 t - (lin Zcols b2 t - lin Zcols b1 t))%Q
    by ring.
  rewrite Hd. ring.
Qed.

Lemma Qsum_Forall2 (l l' : list Q) : Forall2 Qeq l l' -> (Qsum l == Qsum l')%Q.
Proof.
  induction 1 as [|x y l l' Hxy Hl IH]; [reflexivity|].
  change (x + Qsum l == y + Qsum l')%Q. now rewrite Hxy, IH.
Qed.

Lemma Qmean_Forall2 (l l' : list Q) : Forall2 Qeq l l' -> (Qmean l == Qmean l')%Q.
Proof.
  intros H. unfold Qmean.
  rewrite (Qsum_Forall2 _ _ H), (Forall2_length H). reflexivity.
Qed.

Lemma centered_Forall2 (l l' : list Q) :
  Forall2 Qeq l l' -> Forall2 Qeq (centered l) (centered l').
Proof.
  intros H. unfold centered. assert (Hm := Qmean_Forall2 _ _ H).
  revert Hm. generalize (Qmean l) (Qmean l'). intros m m' Hm.
  induction H as [|x y l l' Hxy Hl IH]; cbn; constructor.
  - now rewrite Hxy, Hm.
  - exact IH.
Qed.

Lemma dot_Forall2 (x x' y y' : list Q) :
  Forall2 Qeq x x' -> Forall2 Qeq y y' -> (dot x y == dot x' y')%Q.
Proof.
  intros Hx. revert y y'.
  induction Hx as [|a a' x x' Ha Hx IH]; intros y y' Hy.
  - reflexivity.
  - destruct Hy as [|b b' y y' Hb Hy]; [reflexivity|].
    unfold dot. cbn [combine map fst snd].
    change (a * b + dot x y == a' * b' + dot x' y')%Q.
    now rewrite Ha, Hb, (IH _ _ Hy).
Qed.

Lemma Qeq_bool_compat (a b c d : Q) :
  (a == b)%Q -> (c == d)%Q -> Qeq_bool a c = Qeq_bool b d.
Proof.
  intros H1 H2. destruct (Qeq_bool a c) eqn:E1, (Qeq_bool b d) eqn:E2; try reflexivity.
  - apply Qeq_bool_iff in E1. rewrite H1, H2 in E1. apply Qeq_bool_iff in E1. congruence.
  - apply Qeq_bool_iff in E2. rewrite <- H1, <- H2 in E2. apply Qeq_bool_iff in E2.
    congruence.
Qed.

Lemma Qle_bool_compat (a b c d : Q) :
  (a == b)%Q -> (c == d)%Q -> Qle_bool a c = Qle_bool b d.
Proof.
  intros H1 H2. destruct (Qle_bool a c) eqn:E1, (Qle_bool b d) eqn:E2; try reflexivity.
  - apply Qle_bool_iff in E1. rewrite H1, H2 in E1. apply Qle_bool_iff in E1. congruence.
  - apply Qle_bool_iff in E2. rewrite <- H1, <- H2 in E2. apply Qle_bool_iff in E2.
    congruence.
Qed.

Lemma pearson_Forall2 (x x' y y' : list Q) :
  Forall2 Qeq x x' -> Forall2 Qeq y y' -> score_eq (pearson x y) (pearson x' y').
Proof.
  intros Hx Hy. unfold pearson.
  assert (Hcx := centered_Forall2 _ _ Hx). assert (Hcy := centered_Forall2 _ _ Hy).
  assert (Hc := dot_Forall2 _ _ _ _ Hcx Hcy).
  assert (Hvx := dot_Forall2 _ _ _ _ Hcx Hcx).
  assert (Hvy := dot_Forall2 _ _ _ _ Hcy Hcy).
  set (c := dot (centered x) (centered y)) in *.
  set (c' := dot (centered x') (centered y')) in *.
  set (vx := dot (centered x) (centered x)) in *.
  set (vx' := dot (centered x') (centered x')) in *.
  set (vy := dot (centered y) (centered y)) in *.
  set (vy' := dot (centered y') (centered y')) in *.
  cbv zeta.
  assert (Hv : (vx * vy == vx' * vy')%Q) by now rewrite Hvx, Hvy.
  rewrite (Qeq_bool_compat (vx * vy) (vx' * vy') 0 0 Hv (Qeq_refl 0)).
  destruct (Qeq_bool (vx' * vy') 0); [exact I|].
  rewrite (Qle_bool_compat 0 0 c c' (Qeq_refl 0) Hc).
  destruct (Qle_bool 0 c'); cbn; now rewrite Hc, Hv.
Qed.

Lemma calc_network_meants_columns (sm : ndarray2) (df : dataframe)
  (nm : list (string * list Q)) :
  calc_network_meants sm df = Ok nm ->
  map fst nm = networks_unique df /\
  (forall c, In c nm ->
     exists sel, take_label_rows sm (network_labels df (fst c)) = Ok sel /\
                 snd c = mean_axis0 (shape1 sm) sel).
Proof.
  unfold calc_network_meants. generalize (networks_unique df). intros nets.
  revert nm. induction nets as [|n nets IH]; intros nm H; cbn [mapM] in H.
  - injection H as <-. split; [reflexivity|]. intros c [].
  - destruct (take_label_rows sm (network_labels df n)) as [sel|] eqn:Hsel;
      [|discriminate H].
    cbn [bind] in H. destruct (mapM _ nets) as [rest|]; [|discriminate H].
    cbn [bind] in H. injection H as <-.
    destruct (IH rest eq_refl) as [Hn Hc]. split.
    + cbn. now rewrite Hn.
    + intros c [<-|Hin]; [|now apply Hc]. exists sel. split; [exact Hsel | reflexivity].
Qed.

Lemma map_fst_filter (network : string) (nm : list (string * list Q)) :
  map fst (filter (fun c => negb (String.eqb (fst c) network)) nm)
  = filter (fun n => negb (String.eqb n network)) (map fst nm).
Proof.
  induction nm as [|c nm IH]; [reflexivity|].
  cbn. destruct (negb (String.eqb (fst c) network)); cbn; now rewrite IH.
Qed.

Lemma lin_reference_fit (Zcols : list (list Q)) (beta : list Q) (t : nat) :
  (lin Zcols beta t == reference_fit Zcols beta t)%Q.
Proof.
  unfold lin. revert beta.
  induction Zcols as [|z Zs IH]; intros [|b bs]; cbn [combine map reference_fit];
    try reflexivity.
  change (Qsum (?a :: ?l)) with (a + Qsum l)%Q. cbn [fst snd].
  rewrite IH. ring.
Qed.

Lemma residual_reference (X : list Q) (Zcols : list (list Q)) (beta : list Q) :
  Forall2 Qeq (residual X Zcols beta) (reference_residual X Zcols beta).
Proof.
  rewrite residual_as_map. unfold reference_residual.
  apply Forall2_map_same. intros t _. now rewrite lin_reference_fit.
Qed.

Lemma reference_lstsq_is_lstsq (Zcols : list (list Q)) (X beta : list Q) :
  reference_lstsq Zcols X beta -> is_lstsq Zcols X beta.
Proof.
  intros [Hlen Hn]. split; [exact Hlen|].
  rewrite Forall_forall in *. intros z Hz.
  rewrite (dot_residual X z Zcols beta (Hlen z Hz)), <- (Hn z Hz).
  apply sumT_ext. intros t Ht.
  unfold reference_residual. rewrite (map_seq_nth _ _ _ Ht).
  now rewrite lin_reference_fit.
Qed.

Lemma Forall2_Qeq_trans (a b c : list Q) :
  Forall2 Qeq a b -> Forall2 Qeq b c -> Forall2 Qeq a c.
Proof.
  intros Hab. revert c.
  induction Hab as [|x y a b Hxy Hab IH]; intros c Hbc; inversion Hbc; subst;
    constructor.
  - now rewrite Hxy.
  - now apply IH.
Qed.

(** The residual series [partial_corr] hands to [pearsonr] are, number by
    number, the residuals of any reference least-squares regression. *)
Lemma partial_corr_residuals (E : externals) (X : list Q) (Zcols : list (list Q))
  (bx : list Q) :
  reference_lstsq Zcols X (lstsq E Zcols X) ->
  reference_lstsq Zcols X bx ->
  Forall2 Qeq (vsub X (Zdot (length X) Zcols (lstsq E Zcols X)))
              (reference_residual X Zcols bx).
Proof.
  intros Hx Hbx.
  apply Forall2_Qeq_trans with (b := residual X Zcols bx).
  - exact (lstsq_residual_unique X Zcols _ _ (reference_lstsq_is_lstsq _ _ _ Hx)
                                 (reference_lstsq_is_lstsq _ _ _ Hbx)).
  - apply residual_reference.
Qed.



(** ** A whole sweep *)

Lemma frame_fill_v (incol outcol : vcol) (v : Z) (df : dataframe) :
  vcol_eqb incol outcol = false ->
  map (frame incol) (fill_v df outcol v) = map (frame incol) df.
Proof.
  intros H. unfold fill_v. rewrite map_map. apply map_ext.
  intros s. now apply frame_set_vcol.
Qed.

Lemma frame_fill_d (incol : vcol) (c : dcol) (q : Q) (df : dataframe) :
  map (frame incol) (fill_d df c q) = map (frame incol) df.
Proof. unfold fill_d. rewrite map_map. apply map_ext. intros s. reflexivity. Qed.

Lemma roi_surf_data_frame (E : externals) (c : vcol) (surf : surface)
  (h : hemisphere) (r : Q) :
  forall df df' : dataframe,
    map (frame c) df = map (frame c) df' ->
    roi_surf_data E df c surf h r = roi_surf_data E df' c surf h r.
Proof.
  intros df df' Hf. unfold roi_surf_data.
  assert (H : mapM (seed_vcol c) (filter (fun s => hemisphere_eqb (hemi s) h) df)
              = mapM (seed_vcol c) (filter (fun s => hemisphere_eqb (hemi s) h) df')
              /\ map roiidx (filter (fun s => hemisphere_eqb (hemi s) h) df)
                 = map roiidx (filter (fun s => hemisphere_eqb (hemi s) h) df')).
  { revert df' Hf. induction df as [|s df IH]; intros [|s' df'] Hf;
      try discriminate Hf; [split; reflexivity|].
    cbn [map] in Hf. unfold frame at 1 3 in Hf. injection Hf as Hr Hn Hh Hl Hrest.
    destruct (IH df' Hrest) as [IH1 IH2].
    cbn [filter]. rewrite Hh.
    destruct (hemisphere_eqb (hemi s') h); [|split; assumption].
    cbn [mapM map]. unfold seed_vcol at 1 3. rewrite Hl, IH1, Hr, IH2.
    split; reflexivity. }
  destruct H as [H1 H2]. rewrite H1, H2. reflexivity.
Qed.

Lemma build_masks_frame (E : externals) (rad : radii) (c : vcol)
  (func_zeros : list nat) (df df' : dataframe) :
  map (frame c) df = map (frame c) df' ->
  build_masks E rad df c func_zeros = build_masks E rad df' c func_zeros.
Proof.
  intros Hf. unfold build_masks, rois_bilateral.
  now rewrite !(roi_surf_data_frame E c _ _ _ df df' Hf).
Qed.

Lemma loc_v_frame (c : vcol) (df df' : dataframe) (idx : nat) :
  map (frame c) df = map (frame c) df' -> loc_v df idx c = loc_v df' idx c.
Proof.
  intros Hf.
  assert (Hrow : option_map (frame c) (nth_error df idx)
                 = option_map (frame c) (nth_error df' idx)).
  { rewrite <- !nth_error_map. now rewrite Hf. }
  unfold loc_v.
  destruct (nth_error df idx) as [s|], (nth_error df' idx) as [s'|];
    cbn in Hrow; try discriminate Hrow; [|reflexivity].
  unfold frame in Hrow. injection Hrow as _ _ _ Hl. now rewrite Hl.
Qed.

Lemma writes_frame (incol outcol : vcol) (l : list (nat * Z)) :
  vcol_eqb incol outcol = false ->
  forall d, map (frame incol) (fold_left (write outcol) l d) = map (frame incol) d.
Proof.
  intros Hne. induction l as [|x l IH]; intros d; [reflexivity|].
  cbn. rewrite IH. unfold write. now apply frame_set_loc_v.
Qed.

(** What the per-seed loop leaves in the table. *)
Lemma move_all_positions (E : externals) (vertex_incol vertex_outcol : vcol)
  (func_data sampling_meants : ndarray2) (m : masks) (pcorr : bool)
  (num_Lverts : nat) (netmeants : option (list (string * list Q)))
  (df df1 : dataframe) (order : list nat) :
  vcol_eqb vertex_incol vertex_outcol = false ->
  NoDup order ->
  move_all E order vertex_incol vertex_outcol func_data sampling_meants m
           pcorr num_Lverts netmeants df = Ok df1 ->
  map (frame vertex_incol) df1 = map (frame vertex_incol) df /\
  length df1 = length df /\
  (forall idx, In idx order ->
     exists v,
       new_position E df idx vertex_incol func_data sampling_meants
                    (search_rois m) (padding_rois m) pcorr num_Lverts netmeants = Ok v /\
       loc_v df1 idx vertex_outcol = Ok v).
Proof.
  intros Hne Hnd H.
  rewrite (move_all_writes E vertex_incol vertex_outcol func_data sampling_meants m
             pcorr num_Lverts netmeants df Hne _ df eq_refl) in H.
  set (f := fun idx => new_position E df idx vertex_incol func_data sampling_meants
                         (search_rois m) (padding_rois m) pcorr num_Lverts netmeants)
    in *.
  set (val := fun idx => match f idx with Ok v => v | Raise _ => 0%Z end).
  assert (Hval : forall a v, f a = Ok v -> val a = v).
  { intros a v Ha. unfold val. now rewrite Ha. }
  destruct (mapM_cases f val order Hval) as [[Hall H1]|(a & e & Ha & Hfa & H1)];
    rewrite H1 in H; cbn [bind] in H; [|discriminate H].
  injection H as <-. rewrite combine_map_val. split; [|split].
  - now apply writes_frame.
  - apply writes_length.
  - intros idx Hin. rewrite Forall_forall in Hall. destruct (Hall idx Hin) as [v Hv].
    exists v. split; [exact Hv|]. rewrite <- (Hval _ _ Hv).
    apply writes_loc_same; [exact Hnd | exact Hin |].
    unfold f, new_position in Hv.
    destruct (nth_error df idx) eqn:Hs; [|discriminate Hv].
    apply nth_error_Some. congruence.
Qed.

Lemma dcol_eqb_refl (c : dcol) : dcol_eqb c c = true.
Proof. destruct c; cbn; try reflexivity. apply Nat.eqb_refl. Qed.

Lemma lookup_upsert_same_d (c : dcol) (q : Q) (l : list (dcol * Q)) :
  lookup dcol_eqb c (upsert dcol_eqb c q l) = Some q.
Proof.
  induction l as [|[k w] l IH]; cbn.
  - now rewrite dcol_eqb_refl.
  - destruct (dcol_eqb c k) eqn:Hk; cbn.
    + now rewrite dcol_eqb_refl.
    + now rewrite Hk.
Qed.

Lemma loc_v_set_loc_d (d : dataframe) (i j : nat) (dc : dcol) (q : Q) (c : vcol) :
  loc_v (set_loc_d d i dc q) j c = loc_v d j c.
Proof.
  unfold loc_v, set_loc_d. rewrite nth_error_update_row.
  destruct (Nat.eqb i j); [|reflexivity].
  destruct (nth_error d j); reflexivity.
Qed.

Lemma loc_d_set_loc_d_same (d : dataframe) (i : nat) (dc : dcol) (q : Q) :
  (i < length d)%nat -> loc_d (set_loc_d d i dc q) i dc = Ok q.
Proof.
  intros Hi. unfold loc_d, set_loc_d. rewrite nth_error_update_row, Nat.eqb_refl.
  destruct (nth_error d i) eqn:Hs.
  - cbn. now rewrite lookup_upsert_same_d.
  - apply nth_error_None in Hs. lia.
Qed.

Lemma loc_d_set_loc_d_other (d : dataframe) (i j : nat) (dc c : dcol) (q : Q) :
  i <> j -> loc_d (set_loc_d d i dc q) j c = loc_d d j c.
Proof.
  intros Hne. unfold loc_d, set_loc_d. rewrite nth_error_update_row.
  apply Nat.eqb_neq in Hne. now rewrite Hne.
Qed.

Lemma distance_step_inv (E : externals) (ic oc : vcol) (dc : dcol) (r : Q)
  (d d1 : dataframe) (calls calls1 : list geo_call) (i : nat) :
  distance_step E ic oc dc r (d, calls) i = Ok (d1, calls1) ->
  exists a b q,
    loc_v d i ic = Ok a /\ loc_v d i oc = Ok b /\ (i < length d)%nat /\
    d1 = set_loc_d d i dc q /\ (a = b -> q = 0%Q /\ calls1 = calls).
Proof.
  unfold distance_step. cbn [fst snd]. intros H.
  destruct (loc_v d i ic) as [a|]; [|discriminate H]. cbn [bind] in H.
  destruct (loc_v d i oc) as [b|]; [|discriminate H]. cbn [bind] in H.
  destruct (nth_error d i) as [s|] eqn:Hs; [|discriminate H].
  destruct (calc_surf_distance E _ a b r) as [[q cs]|] eqn:Hc; [|discriminate H].
  cbn [bind fst snd] in H. injection H as <- <-.
  exists a, b, q. repeat split; try reflexivity.
  - apply nth_error_Some. congruence.
  - subst b. unfold calc_surf_distance in Hc. rewrite Z.eqb_refl in Hc. congruence.
  - subst b. unfold calc_surf_distance in Hc. rewrite Z.eqb_refl in Hc.
    injection Hc as _ <-. apply app_nil_r.
Qed.

Lemma distance_fold (E : externals) (ic oc : vcol) (dc : dcol) (r : Q)
  (order : list nat) :
  forall (d d' : dataframe) (calls calls' : list geo_call),
    foldM (distance_step E ic oc dc r) order (d, calls) = Ok (d', calls') ->
    length d' = length d /\
    (forall j c, loc_v d' j c = loc_v d j c) /\
    (forall j, ~ In j order -> loc_d d' j dc = loc_d d j dc) /\
    (NoDup order ->
     forall idx a, In idx order -> loc_v d idx ic = Ok a -> loc_v d idx oc = Ok a ->
                   loc_d d' idx dc = Ok 0%Q).
Proof.
  induction order as [|i order IH]; intros d d' calls calls' H; cbn [foldM] in H.
  - injection H as <- <-. repeat split; try reflexivity. intros _ idx a [].
  - destruct (distance_step E ic oc dc r (d, calls) i) as [[d1 calls1]|] eqn:Hstep;
      [|discriminate H].
    cbn [bind] in H.
    destruct (distance_step_inv _ _ _ _ _ _ _ _ _ _ Hstep)
      as (a & b & q & Ha & Hb & Hi & -> & Hq).
    destruct (IH _ _ _ _ H) as (Hlen & Hv & Hother & Hsame).
    split; [|split; [|split]].
    + rewrite Hlen. apply update_row_length.
    + intros j c. rewrite Hv. apply loc_v_set_loc_d.
    + intros j Hj. rewrite Hother by (intros Hin; apply Hj; now right).
      apply loc_d_set_loc_d_other. intros ->. apply Hj. now left.
    + intros Hnd idx a' Hin Hia Hoa. inversion Hnd as [|? ? Hnin Hnd']; subst.
      destruct (Nat.eq_dec i idx) as [->|Hne].
      * rewrite Hother by exact Hnin.
        assert (a = b) by congruence.
        destruct (Hq H0) as [-> _]. now apply loc_d_set_loc_d_same.
      * apply (Hsame Hnd' idx a').
        -- destruct Hin; [congruence | assumption].
        -- now rewrite loc_v_set_loc_d.
        -- now rewrite loc_v_set_loc_d.
Qed.

Lemma loc_v_fill_d (d : dataframe) (dc : dcol) (q : Q) (j : nat) (c : vcol) :
  loc_v (fill_d d dc q) j c = loc_v d j c.
Proof.
  unfold loc_v, fill_d. rewrite nth_error_map.
  destruct (nth_error d j); reflexivity.
Qed.

(** In a completed sweep, a seed without admissible candidates ends with
    its incoming position in the sweep's vertex column and 0 in the
    sweep's distance column. *)
Lemma sweep_seed_without_candidates (E : externals) (rad : radii)
  (func_data : ndarray2) (func_zeros : list nat) (pcorr : bool) (num_Lverts : nat)
  (st st' : loop_state) (m : masks) (idx : nat) (s : seed) (v : Z) :
  sweep E rad func_data func_zeros pcorr num_Lverts st = Ok st' ->
  Permutation (shuffle E (st_iter_num st) (index_tolist (st_df st)))
              (index_tolist (st_df st)) ->
  vcol_eqb (st_vertex_incol st) (vertex_ (st_iter_num st)) = false ->
  build_masks E rad (st_df st) (st_vertex_incol st) func_zeros = Ok m ->
  nth_error (st_df st) idx = Some s ->
  seed_vcol (st_vertex_incol st) s = Ok v ->
  candidates (search_rois m) (padding_rois m) (roiidx s) = [] ->
  loc_v (st_df st') idx (vertex_ (st_iter_num st)) = Ok v /\
  loc_d (st_df st') idx (dist_ (st_iter_num st)) = Ok 0%Q.
Proof.
  intros H HP Hne Hm Hs Hv Hc. unfold sweep in H.
  set (incol := st_vertex_incol st) in *.
  set (outcol := vertex_ (st_iter_num st)) in *.
  set (dc := dist_ (st_iter_num st)) in *.
  set (dfF := fill_d (fill_v (st_df st) outcol (-999)%Z) dc (-(999 # 10))%Q) in *.
  assert (HfF : map (frame incol) dfF = map (frame incol) (st_df st)).
  { unfold dfF. rewrite frame_fill_d. now apply frame_fill_v. }
  assert (HiF : index_tolist dfF = index_tolist (st_df st)).
  { unfold index_tolist, dfF, fill_d, fill_v. now rewrite !length_map. }
  rewrite (build_masks_frame E rad incol func_zeros dfF (st_df st) HfF), Hm in H.
  cbn [bind] in H.
  destruct (calc_sampling_meants func_data (sampling_rois m)) as [sm|]; [|discriminate H].
  cbn [bind] in H.
  destruct (if pcorr then _ else _) as [nm|]; [|discriminate H]. cbn [bind] in H.
  rewrite HiF in H.
  destruct (move_all E _ incol outcol func_data sm m pcorr num_Lverts nm dfF)
    as [df1|] eqn:Hmove; [|discriminate H].
  cbn [bind] in H.
  destruct (calc_distance_column E df1 incol outcol dc (RADIUS_SEARCH rad))
    as [[d2 calls]|] eqn:Hdist; [|discriminate H].
  cbn [bind fst snd] in H.
  destruct (mapM _ (index_tolist d2)) as [col|]; [|discriminate H]. cbn [bind] in H.
  destruct (max_of col) as [md|]; [|discriminate H]. cbn [bind] in H.
  injection H as <-. cbn [st_df].
  assert (Hidx : (idx < length (st_df st))%nat) by (apply nth_error_Some; congruence).
  assert (Hnd : NoDup (shuffle E (st_iter_num st) (index_tolist (st_df st)))).
  { eapply Permutation_NoDup; [symmetry; exact HP | apply seq_NoDup]. }
  assert (Hin : In idx (shuffle E (st_iter_num st) (index_tolist (st_df st)))).
  { eapply Permutation_in; [symmetry; exact HP | apply in_seq; lia]. }
  destruct (move_all_positions E incol outcol func_data sm m pcorr num_Lverts nm
              dfF df1 _ Hne Hnd Hmove) as (Hf1 & Hlen1 & Hpos).
  destruct (Hpos idx Hin) as (v' & Hnew & Hout).
  rewrite (new_position_frame E dfF (st_df st) idx incol _ _ _ _ _ _ _ HfF) in Hnew.
  unfold new_position in Hnew. rewrite Hs, Hv in Hnew. cbn [bind] in Hnew.
  destruct (target_meants (st_df st) (NETWORK s) (roiidx s) sm) as [t|];
    [|discriminate Hnew].
  cbn [bind] in Hnew. rewrite Hc in Hnew. injection Hnew as <-.
  assert (Hincol : loc_v df1 idx incol = Ok v).
  { rewrite (loc_v_frame incol df1 dfF idx Hf1), (loc_v_frame incol dfF _ idx HfF).
    unfold loc_v. rewrite Hs. unfold seed_vcol in Hv.
    destruct (lookup vcol_eqb incol (vcols s)); congruence. }
  unfold calc_distance_column in Hdist.
  destruct (distance_fold E incol outcol dc (RADIUS_SEARCH rad) _ _ _ _ _ Hdist)
    as (Hlen2 & Hv2 & _ & Hzero).
  split.
  - rewrite Hv2, loc_v_fill_d. exact Hout.
  - apply (Hzero (seq_NoDup _ _) idx v).
    + unfold index_tolist. apply in_seq. unfold fill_d. rewrite length_map, Hlen1.
      unfold dfF, fill_d, fill_v. rewrite !length_map. lia.
    + now rewrite loc_v_fill_d.
    + now rewrite loc_v_fill_d.
Qed.

(** ** The empty candidate window *)

(** C7. A seed whose admissible candidate set is empty keeps its incoming
    position.  For one evaluation: when the seed's target series is
    computable, [pint_move_vertex] returns normally with the incoming
    vertex written to the output column, in either correlation mode; the
    distance between a vertex and itself is 0 with no provider invocation,
    and the distance step of such a seed records 0 and leaves the list of
    provider invocations as it was.  For a whole sweep that completes,
    whatever permutation the shuffle produced: the seed's entry in the
    sweep's vertex column is its incoming position and its entry in the
    sweep's distance column is 0. *)
Theorem empty_candidates_seed_stays :
  (forall (E : externals) (df : dataframe) (idx : nat) (s : seed)
          (vertex_incol vertex_outcol : vcol) (func_data sampling_meants : ndarray2)
          (search padding : list Z) (pcorr : bool) (num_Lverts : nat)
          (netmeants : option (list (string * list Q))) (v : Z) (t : list Q),
     nth_error df idx = Some s ->
     seed_vcol vertex_incol s = Ok v ->
     target_meants df (NETWORK s) (roiidx s) sampling_meants = Ok t ->
     candidates search padding (roiidx s) = [] ->
     pint_move_vertex E df idx vertex_incol vertex_outcol func_data sampling_meants
                      search padding pcorr num_Lverts netmeants
     = Ok (set_loc_v df idx vertex_outcol v) /\
     (forall surf radius, calc_surf_distance E surf v v radius = Ok (0%Q, [])) /\
     (forall (d : dataframe) (distance_outcol : dcol) (radius : Q)
             (calls : list geo_call),
        (idx < length d)%nat ->
        loc_v d idx vertex_incol = Ok v ->
        loc_v d idx vertex_outcol = Ok v ->
        distance_step E vertex_incol vertex_outcol distance_outcol radius (d, calls) idx
        = Ok (set_loc_d d idx distance_outcol 0%Q, calls))) /\
  (forall (E : externals) (rad : radii) (func_data : ndarray2)
          (func_zeros : list nat) (pcorr : bool) (num_Lverts : nat)
          (st st' : loop_state) (m : masks) (idx : nat) (s : seed) (v : Z),
     sweep E rad func_data func_zeros pcorr num_Lverts st = Ok st' ->
     Permutation (shuffle E (st_iter_num st) (index_tolist (st_df st)))
                 (index_tolist (st_df st)) ->
     vcol_eqb (st_vertex_incol st) (vertex_ (st_iter_num st)) = false ->
     build_masks E rad (st_df st) (st_vertex_incol st) func_zeros = Ok m ->
     nth_error (st_df st) idx = Some s ->
     seed_vcol (st_vertex_incol st) s = Ok v ->
     candidates (search_rois m) (padding_rois m) (roiidx s) = [] ->
     loc_v (st_df st') idx (vertex_ (st_iter_num st)) = Ok v /\
     loc_d (st_df st') idx (dist_ (st_iter_num st)) = Ok 0%Q).
Proof.
  split; [|exact sweep_seed_without_candidates].
  intros E df idx s vertex_incol vertex_outcol func_data sampling_meants search padding
         pcorr num_Lverts netmeants v t Hs Hv Ht Hc.
  split; [|split].
  - unfold pint_move_vertex. rewrite Hs, Hv. cbn [bind]. rewrite Ht. cbn [bind].
    rewrite Hc. reflexivity.
  - intros surf radius. unfold calc_surf_distance. now rewrite Z.eqb_refl.
  - intros d distance_outcol radius calls Hlt Hin Hout.
    unfold distance_step. cbn [fst snd]. rewrite Hin, Hout. cbn [bind].
    destruct (nth_error d idx) as [s'|] eqn:Hs'.
    + unfold calc_surf_distance. rewrite Z.eqb_refl. cbn [bind fst snd].
      now rewrite app_nil_r.
    + apply nth_error_None in Hs'. lia.
Qed.

Lemma empty_candidates_seed_stays_witness :
  pint_move_vertex (path_externals 5 in_order) example_df 0 tvertex (vertex_ 0)
                   example_func example_sampling_meants crowded_search crowded_padding
                   false 5 None
  = Ok (set_loc_v example_df 0 (vertex_ 0) 1%Z).
Proof.
  refine (proj1 (proj1 empty_candidates_seed_stays (path_externals 5 in_order)
                   example_df 0%nat
                   (mk_seed 1 "A" L [(tvertex, 1%Z)] []) tvertex (vertex_ 0)
                   example_func example_sampling_meants crowded_search crowded_padding
                   false 5%nat None 1%Z
                   (mean_axis0 6 [nth 1 (rows example_sampling_meants) [];
                                  nth 2 (rows example_sampling_meants) []])
                   _ _ _ _)).
  - reflexivity.
  - reflexivity.
  - vm_compute. reflexivity.
  - reflexivity.
Defined.

(** Along the sweeps of a run the output column is always a new one: the
    first input column is 'tvertex' or 'avertex', every later one is the
    previous sweep's 'vertex_{k}'. *)
Lemma sweeps_fresh_column (E : externals) (rad : radii) (func_data : ndarray2)
  (func_zeros : list nat) (pcorr : bool) (num_Lverts : nat) (k : nat) :
  forall st stk : loop_state,
    vcol_eqb (st_vertex_incol st) (vertex_ (st_iter_num st)) = false ->
    sweeps E rad func_data func_zeros pcorr num_Lverts k st = Ok stk ->
    vcol_eqb (st_vertex_incol stk) (vertex_ (st_iter_num stk)) = false.
Proof.
  induction k as [|k IH]; intros st stk Hfresh H; cbn [sweeps] in H.
  - now injection H as <-.
  - destruct (sweep E rad func_data func_zeros pcorr num_Lverts st) as [st'|] eqn:Hs;
      [|discriminate H].
    cbn [bind] in H. apply (IH st' stk); [|exact H].
    destruct (sweep_iter_num _ _ _ _ _ _ _ _ Hs) as (Hi & _ & _ & Hc).
    rewrite Hc, Hi. cbn. apply Nat.eqb_neq. lia.
Qed.

(** A sweep does not depend on the shuffle. *)
Lemma sweep_shuffle_independent (E : externals)
  (shuffle2 : nat -> list nat -> list nat) (rad : radii) (func_data : ndarray2)
  (func_zeros : list nat) (pcorr : bool) (num_Lverts : nat) (st : loop_state) :
  Permutation (shuffle E (st_iter_num st) (index_tolist (st_df st)))
              (index_tolist (st_df st)) ->
  Permutation (shuffle2 (st_iter_num st) (index_tolist (st_df st)))
              (index_tolist (st_df st)) ->
  vcol_eqb (st_vertex_incol st) (vertex_ (st_iter_num st)) = false ->
  match sweep E rad func_data func_zeros pcorr num_Lverts st with
  | Ok st1 =>
      sweep (mk_externals (geodesic_rois E) (get_surf_distances E) (lstsq E)
                           (corrcoef E) (pearsonr E) shuffle2)
            rad func_data func_zeros pcorr num_Lverts st = Ok st1
  | Raise _ =>
      exists e,
        sweep (mk_externals (geodesic_rois E) (get_surf_distances E) (lstsq E)
                           (corrcoef E) (pearsonr E) shuffle2)
              rad func_data func_zeros pcorr num_Lverts st = Raise e
  end.
Proof.
  intros HP1 HP2 Hne.
  set (E2 := mk_externals (geodesic_rois E) (get_surf_distances E) (lstsq E)
                           (corrcoef E) (pearsonr E) shuffle2).
  unfold sweep.
  set (incol := st_vertex_incol st) in *.
  set (outcol := vertex_ (st_iter_num st)) in *.
  set (dc := dist_ (st_iter_num st)).
  set (dfF := fill_d (fill_v (st_df st) outcol (-999)%Z) dc (-(999 # 10))%Q).
  assert (HiF : index_tolist dfF = index_tolist (st_df st)).
  { unfold index_tolist, dfF, fill_d, fill_v. now rewrite !length_map. }
  rewrite HiF.
  change (build_masks E2 rad dfF incol func_zeros)
    with (build_masks E rad dfF incol func_zeros).
  destruct (build_masks E rad dfF incol func_zeros) as [m|e];
    cbn [bind]; [|exists e; reflexivity].
  destruct (calc_sampling_meants func_data (sampling_rois m)) as [sm|e];
    cbn [bind]; [|exists e; reflexivity].
  destruct (if pcorr then _ else _) as [nm|e]; cbn [bind]; [|exists e; reflexivity].
  change (shuffle E2 (st_iter_num st) (index_tolist (st_df st)))
    with (shuffle2 (st_iter_num st) (index_tolist (st_df st))).
  change (move_all E2) with (move_all E).
  assert (Hnd : NoDup (shuffle E (st_iter_num st) (index_tolist (st_df st)))).
  { eapply Permutation_NoDup; [symmetry; exact HP1 | apply seq_NoDup]. }
  assert (HP : Permutation (shuffle E (st_iter_num st) (index_tolist (st_df st)))
                           (shuffle2 (st_iter_num st) (index_tolist (st_df st)))).
  { etransitivity; [exact HP1 | symmetry; exact HP2]. }
  assert (Hperm := move_all_permutation E incol outcol func_data sm m pcorr num_Lverts
                     nm dfF _ _ Hne Hnd HP).
  destruct (move_all E (shuffle E (st_iter_num st) (index_tolist (st_df st)))
                     incol outcol func_data sm m pcorr num_Lverts nm dfF) as [df1|e].
  - destruct Hperm as [-> _]. cbn [bind].
    change (calc_distance_column E2) with (calc_distance_column E).
    destruct (calc_distance_column E df1 incol outcol dc (RADIUS_SEARCH rad)) as [dl|e];
      cbn [bind]; [|exists e; reflexivity].
    destruct (mapM _ (index_tolist (fst dl))) as [col|e];
      cbn [bind]; [|exists e; reflexivity].
    destruct (max_of col) as [md|e]; cbn [bind]; [reflexivity | exists e; reflexivity].
  - destruct Hperm as [e' ->]. exists e'. reflexivity.
Qed.

(** ** Order independence of a sweep *)

(** C4. Over the same frozen inputs (table of incoming positions, time
    series, sampling means, masks, network means), two visiting orders of
    the same seeds give the same table: if the per-seed loop completes in
    one order it completes in the other with the identical result, and the
    position recorded for every seed is the one its evaluation yields on
    the incoming table alone, untouched by the other seeds' writes; if it
    raises in one order it raises in the other.  The output column is a
    column other than the input column, as in every sweep.  Consequently a
    whole sweep gives the same state under any two shuffles. *)
Theorem move_all_order_independent :
  (forall (E : externals) (vertex_incol vertex_outcol : vcol)
          (func_data sampling_meants : ndarray2) (m : masks) (pcorr : bool)
          (num_Lverts : nat) (netmeants : option (list (string * list Q)))
          (df : dataframe) (order1 order2 : list nat),
     vcol_eqb vertex_incol vertex_outcol = false ->
     NoDup order1 ->
     Permutation order1 order2 ->
     match move_all E order1 vertex_incol vertex_outcol func_data sampling_meants m
                    pcorr num_Lverts netmeants df with
     | Ok df1 =>
         move_all E order2 vertex_incol vertex_outcol func_data sampling_meants m
                  pcorr num_Lverts netmeants df = Ok df1 /\
         (forall idx, In idx order1 ->
            loc_v df1 idx vertex_outcol
            = new_position E df idx vertex_incol func_data sampling_meants
                           (search_rois m) (padding_rois m) pcorr num_Lverts netmeants)
     | Raise _ =>
         exists e, move_all E order2 vertex_incol vertex_outcol func_data
                            sampling_meants m pcorr num_Lverts netmeants df = Raise e
     end) /\
  (forall (E : externals) (shuffle2 : nat -> list nat -> list nat) (rad : radii)
          (func_data : ndarray2) (func_zeros : list nat) (pcorr : bool)
          (num_Lverts : nat) (st : loop_state),
     Permutation (shuffle E (st_iter_num st) (index_tolist (st_df st)))
                 (index_tolist (st_df st)) ->
     Permutation (shuffle2 (st_iter_num st) (index_tolist (st_df st)))
                 (index_tolist (st_df st)) ->
     vcol_eqb (st_vertex_incol st) (vertex_ (st_iter_num st)) = false ->
     match sweep E rad func_data func_zeros pcorr num_Lverts st with
     | Ok st1 =>
         sweep (mk_externals (geodesic_rois E) (get_surf_distances E) (lstsq E)
                           (corrcoef E) (pearsonr E) shuffle2)
               rad func_data func_zeros pcorr num_Lverts st = Ok st1
     | Raise _ =>
         exists e,
           sweep (mk_externals (geodesic_rois E) (get_surf_distances E) (lstsq E)
                           (corrcoef E) (pearsonr E) shuffle2)
                 rad func_data func_zeros pcorr num_Lverts st = Raise e
     end).
Proof.
  split; [exact move_all_permutation | exact sweep_shuffle_independent].
Qed.

Lemma move_all_order_independent_witness :
  match move_all (path_externals 5 in_order) [0; 1; 2]%nat tvertex (vertex_ 0)
                 example_func example_sampling_meants example_masks false 5 None
                 example_df with
  | Ok df1 =>
      move_all (path_externals 5 in_order) [2; 1; 0]%nat tvertex (vertex_ 0)
               example_func example_sampling_meants example_masks false 5 None
               example_df = Ok df1 /\
      (forall idx, In idx [0; 1; 2]%nat ->
         loc_v df1 idx (vertex_ 0)
         = new_position (path_externals 5 in_order) example_df idx tvertex
                        example_func example_sampling_meants
                        (search_rois example_masks) (padding_rois example_masks)
                        false 5 None)
  | Raise _ =>
      exists e, move_all (path_externals 5 in_order) [2; 1; 0]%nat tvertex (vertex_ 0)
                         example_func example_sampling_meants example_masks false 5
                         None example_df = Raise e
  end.
Proof.
  apply (proj1 move_all_order_independent).
  - reflexivity.
  - repeat constructor; cbn; intuition discriminate.
  - exact (Permutation_rev [0; 1; 2]%nat).
Defined.

(** * Further properties of the code *)

(** ** What a run leaves untouched *)

Lemma frame_set_loc_d (c : vcol) (d : dataframe) (i : nat) (dc : dcol) (q : Q) :
  map (frame c) (set_loc_d d i dc q) = map (frame c) d.
Proof. unfold set_loc_d. apply map_update_row. intros s. reflexivity. Qed.

Lemma move_all_frame (E : externals) (c vertex_incol vertex_outcol : vcol)
  (func_data sampling_meants : ndarray2) (m : masks) (pcorr : bool)
  (num_Lverts : nat) (netmeants : option (list (string * list Q)))
  (order : list nat) :
  vcol_eqb c vertex_outcol = false ->
  forall df df1 : dataframe,
    move_all E order vertex_incol vertex_outcol func_data sampling_meants m
             pcorr num_Lverts netmeants df = Ok df1 ->
    map (frame c) df1 = map (frame c) df.
Proof.
  intros Hne. unfold move_all.
  induction order as [|i order IH]; intros df df1 H; cbn [foldM] in H.
  - now injection H as <-.
  - rewrite pint_move_vertex_new_position in H.
    destruct (new_position E df i vertex_incol func_data sampling_meants
                           (search_rois m) (padding_rois m) pcorr num_Lverts netmeants)
      as [v|]; [|discriminate H].
    cbn [bind] in H. rewrite (IH _ _ H). now apply frame_set_loc_v.
Qed.

Lemma distance_fold_frame (E : externals) (c ic oc : vcol) (dc : dcol) (r : Q)
  (order : list nat) :
  forall (d d' : dataframe) (calls calls' : list geo_call),
    foldM (distance_step E ic oc dc r) order (d, calls) = Ok (d', calls') ->
    map (frame c) d' = map (frame c) d.
Proof.
  induction order as [|i order IH]; intros d d' calls calls' H; cbn [foldM] in H.
  - now injection H as <- <-.
  - destruct (distance_step E ic oc dc r (d, calls) i) as [[d1 calls1]|] eqn:Hstep;
      [|discriminate H].
    cbn [bind] in H.
    destruct (distance_step_inv _ _ _ _ _ _ _ _ _ _ Hstep)
      as (a & b & q & _ & _ & _ & -> & _).
    rewrite (IH _ _ _ _ H). apply frame_set_loc_d.
Qed.

Lemma calc_distance_column_frame (E : externals) (c ic oc : vcol) (dc : dcol) (r : Q)
  (d d' : dataframe) (calls : list geo_call) :
  calc_distance_column E d ic oc dc r = Ok (d', calls) ->
  map (frame c) d' = map (frame c) d.
Proof.
  unfold calc_distance_column. intros H.
  rewrite (distance_fold_frame E c ic oc dc r _ _ _ _ _ H). apply frame_fill_d.
Qed.

Lemma sweep_frame (E : externals) (rad : radii) (func_data : ndarray2)
  (func_zeros : list nat) (pcorr : bool) (num_Lverts : nat)
  (st st' : loop_state) (c : vcol) :
  sweep E rad func_data func_zeros pcorr num_Lverts st = Ok st' ->
  vcol_eqb c (vertex_ (st_iter_num st)) = false ->
  map (frame c) (st_df st') = map (frame c) (st_df st).
Proof.
  unfold sweep. intros H Hne.
  destruct (build_masks E rad _ _ func_zeros) as [m|]; [|discriminate H].
  cbn [bind] in H.
  destruct (calc_sampling_meants func_data (sampling_rois m)) as [sm|]; [|discriminate H].
  cbn [bind] in H.
  destruct (if pcorr then _ else _) as [nm|]; [|discriminate H]. cbn [bind] in H.
  destruct (move_all E _ _ _ func_data sm m pcorr num_Lverts nm _) as [df1|] eqn:Hmove;
    [|discriminate H].
  cbn [bind] in H.
  destruct (calc_distance_column E df1 _ _ _ _) as [[d2 calls]|] eqn:Hdist;
    [|discriminate H].
  cbn [bind fst snd] in H.
  destruct (mapM _ (index_tolist d2)) as [col|]; [|discriminate H]. cbn [bind] in H.
  destruct (max_of col) as [md|]; [|discriminate H]. cbn [bind] in H.
  injection H as <-. cbn [st_df].
  rewrite (calc_distance_column_frame E c _ _ _ _ _ _ _ Hdist).
  rewrite (move_all_frame E c _ _ _ _ _ _ _ _ _ Hne _ _ Hmove).
  rewrite frame_fill_d. now apply frame_fill_v.
Qed.

Lemma sweeps_frame (E : externals) (rad : radii) (func_data : ndarray2)
  (func_zeros : list nat) (pcorr : bool) (num_Lverts : nat) (c : vcol) (n : nat) :
  forall st stn : loop_state,
    sweeps E rad func_data func_zeros pcorr num_Lverts n st = Ok stn ->
    (forall k, (st_iter_num st <= k)%nat -> vcol_eqb c (vertex_ k) = false) ->
    map (frame c) (st_df stn) = map (frame c) (st_df st) /\
    st_iter_num stn = (st_iter_num st + n)%nat.
Proof.
  induction n as [|n IH]; intros st stn H Hc; cbn [sweeps] in H.
  - injection H as <-. split; [reflexivity | lia].
  - destruct (sweep E rad func_data func_zeros pcorr num_Lverts st) as [st'|] eqn:Hs;
      [|discriminate H].
    cbn [bind] in H.
    destruct (sweep_iter_num _ _ _ _ _ _ _ _ Hs) as (Hi & _).
    destruct (IH st' stn H) as [Hf Hn].
    + intros k Hk. apply Hc. lia.
    + rewrite Hf, (sweep_frame _ _ _ _ _ _ _ _ c Hs) by (apply Hc; lia).
      split; [reflexivity | lia].
Qed.

Lemma pint_loop_sweeps (E : externals) (rad : radii) (func_data : ndarray2)
  (func_zeros : list nat) (pcorr : bool) (num_Lverts start_iter : nat) (fuel : nat) :
  forall st stn : loop_state,
    pint_loop E rad func_data func_zeros pcorr num_Lverts start_iter fuel st
    = Some (Ok stn) ->
    exists n,
      sweeps E rad func_data func_zeros pcorr num_Lverts n st = Ok stn /\
      ((st_iter_num stn <? start_iter + 50) && Qltb 1 (st_max_distance stn)) = false.
Proof.
  induction fuel as [|fuel IH]; intros st stn H; cbn [pint_loop] in H;
    destruct ((st_iter_num st <? start_iter + 50) && Qltb 1 (st_max_distance st))
      eqn:Hc; try discriminate H.
  - injection H as <-. exists 0%nat. split; [reflexivity | exact Hc].
  - destruct (sweep E rad func_data func_zeros pcorr num_Lverts st) as [st'|] eqn:Hs;
      [|discriminate H].
    destruct (IH st' stn H) as (n & Hn & Hstop).
    exists (S n). cbn [sweeps]. rewrite Hs. cbn [bind]. split; assumption.
  - injection H as <-. exists 0%nat. split; [reflexivity | exact Hc].
Qed.

Lemma sweeps_last_columns (E : externals) (rad : radii) (func_data : ndarray2)
  (func_zeros : list nat) (pcorr : bool) (num_Lverts : nat) (n : nat) :
  forall st stn : loop_state,
    sweeps E rad func_data func_zeros pcorr num_Lverts (S n) st = Ok stn ->
    st_iter_num stn = (st_iter_num st + S n)%nat /\
    st_vertex_outcol stn = Some (vertex_ (st_iter_num stn - 1)) /\
    st_distance_outcol stn = Some (dist_ (st_iter_num stn - 1)).
Proof.
  induction n as [|n IH]; intros st stn H; cbn [sweeps] in H;
    destruct (sweep E rad func_data func_zeros pcorr num_Lverts st) as [st'|] eqn:Hs;
    try discriminate H; cbn [bind] in H;
    destruct (sweep_iter_num _ _ _ _ _ _ _ _ Hs) as (Hi & Hv & Hd & _).
  - injection H as <-. rewrite Hi, Hv, Hd.
    replace (S (st_iter_num st) - 1)%nat with (st_iter_num st) by lia.
    split; [lia | split; reflexivity].
  - destruct (IH st' stn H) as (Hn & Hvo & Hdo). split; [lia | split; assumption].
Qed.

Lemma copy_to_ivertex (vo : vcol) (df dfi : dataframe) :
  mapM (fun s => v <- seed_vcol vo s ;; Ok (set_vcol ivertex v s)) df = Ok dfi ->
  (forall c, vcol_eqb c ivertex = false -> map (frame c) dfi = map (frame c) df) /\
  (forall idx, (idx < length df)%nat ->
     exists v, loc_v df idx vo = Ok v /\ loc_v dfi idx ivertex = Ok v).
Proof.
  revert dfi. induction df as [|s df IH]; intros dfi H; cbn [mapM] in H.
  - injection H as <-. split; [reflexivity|]. intros idx Hidx. cbn in Hidx. lia.
  - destruct (seed_vcol vo s) as [v|] eqn:Hv; [|discriminate H]. cbn [bind] in H.
    destruct (mapM _ df) as [rest|]; [|discriminate H]. cbn [bind] in H.
    injection H as <-. destruct (IH rest eq_refl) as [Hf Hl]. split.
    + intros c Hc. cbn [map]. rewrite (Hf c Hc). now rewrite frame_set_vcol.
    + intros [|idx] Hidx.
      * exists v. unfold loc_v. cbn [nth_error set_vcol vcols].
        rewrite lookup_upsert_same. unfold seed_vcol in Hv.
        destruct (lookup vcol_eqb vo (vcols s)); [|discriminate Hv].
        split; [exact Hv | reflexivity].
      * cbn in Hidx. destruct (Hl idx ltac:(lia)) as (w & H1 & H2).
        exists w. split; assumption.
Qed.

Lemma distance_fold_defined (E : externals) (ic oc : vcol) (dc : dcol) (r : Q)
  (order : list nat) :
  forall (d d' : dataframe) (calls calls' : list geo_call),
    foldM (distance_step E ic oc dc r) order (d, calls) = Ok (d', calls') ->
    forall idx, In idx order -> exists q, loc_d d' idx dc = Ok q.
Proof.
  induction order as [|i order IH]; intros d d' calls calls' H idx Hin;
    [destruct Hin|].
  cbn [foldM] in H.
  destruct (distance_step E ic oc dc r (d, calls) i) as [[d1 calls1]|] eqn:Hstep;
    [|discriminate H].
  cbn [bind] in H.
  destruct (in_dec Nat.eq_dec idx order) as [Hio|Hio]; [now apply (IH _ _ _ _ H)|].
  destruct Hin as [->|Hin]; [|contradiction].
  destruct (distance_step_inv _ _ _ _ _ _ _ _ _ _ Hstep)
    as (a & b & q & _ & _ & Hlt & -> & _).
  destruct (distance_fold E ic oc dc r _ _ _ _ _ H) as (_ & _ & Hother & _).
  exists q. rewrite (Hother idx Hio). now apply loc_d_set_loc_d_same.
Qed.

Lemma frame_components (c : vcol) (d d' : dataframe) :
  map (frame c) d' = map (frame c) d ->
  length d' = length d /\ map roiidx d' = map roiidx d /\
  map NETWORK d' = map NETWORK d /\ map hemi d' = map hemi d.
Proof.
  intros H. split; [|split; [|split]].
  - rewrite <- (length_map (frame c) d'), H. apply length_map.
  - assert (H1 := f_equal (map (fun f => fst (fst (fst f)))) H).
    rewrite !map_map in H1. exact H1.
  - assert (H1 := f_equal (map (fun f => snd (fst (fst f)))) H).
    rewrite !map_map in H1. exact H1.
  - assert (H1 := f_equal (map (fun f => snd (fst f))) H).
    rewrite !map_map in H1. exact H1.
Qed.

(** The states [iterate_pint] goes through, when it returns a result. *)
Lemma iterate_pint_inv (E : externals) (rad : radii) (fuel : nat) (df : dataframe)
  (vertex_incol : vcol) (func_data : ndarray2) (func_zeros : list nat)
  (pcorr : bool) (num_Lverts start_iter : nat) (res : pint_result) :
  iterate_pint E rad fuel df vertex_incol func_data func_zeros pcorr num_Lverts
               start_iter = Some (Ok res) ->
  exists n stn,
    sweeps E rad func_data func_zeros pcorr num_Lverts (S n)
           (init_state df vertex_incol start_iter) = Ok stn /\
    ((st_iter_num stn <? start_iter + 50) && Qltb 1 (st_max_distance stn)) = false /\
    finish E stn = Ok res.
Proof.
  unfold iterate_pint. intros H.
  destruct (pint_loop E rad func_data func_zeros pcorr num_Lverts start_iter fuel
                      (init_state df vertex_incol start_iter)) as [[stn|]|] eqn:Hloop;
    try discriminate H.
  injection H as H.
  destruct (pint_loop_sweeps _ _ _ _ _ _ _ _ _ _ Hloop) as (n & Hn & Hstop).
  destruct n as [|n].
  - exfalso. cbn [sweeps] in Hn. injection Hn as <-.
    cbn [init_state st_iter_num st_max_distance] in Hstop.
    assert (Hlt : (start_iter <? start_iter + 50) = true) by (apply Nat.ltb_lt; lia).
    rewrite Hlt in Hstop. discriminate Hstop.
  - exists n, stn. auto.
Qed.

Lemma finish_frame (E : externals) (st : loop_state) (res : pint_result) (c : vcol) :
  finish E st = Ok res ->
  vcol_eqb c ivertex = false ->
  map (frame c) (res_df res) = map (frame c) (st_df st).
Proof.
  unfold finish. intros H Hc.
  destruct (st_vertex_outcol st) as [vo|]; [|discriminate H].
  destruct (st_distance_outcol st) as [dco|]; [|discriminate H].
  destruct (mapM _ (st_df st)) as [dfi|] eqn:Hcopy; [|discriminate H]. cbn [bind] in H.
  destruct (calc_distance_column E dfi tvertex ivertex distance 150%Q)
    as [[d' calls]|] eqn:Hdist; [|discriminate H].
  cbn [bind fst snd] in H. injection H as <-. cbn [res_df].
  rewrite (calc_distance_column_frame E c _ _ _ _ _ _ _ Hdist).
  exact (proj1 (copy_to_ivertex vo _ _ Hcopy) c Hc).
Qed.

Lemma iterate_pint_frame (E : externals) (rad : radii) (fuel : nat)
  (df : dataframe) (vertex_incol : vcol) (func_data : ndarray2)
  (func_zeros : list nat) (pcorr : bool) (num_Lverts start_iter : nat)
  (res : pint_result) (c : vcol) :
  iterate_pint E rad fuel df vertex_incol func_data func_zeros pcorr num_Lverts
               start_iter = Some (Ok res) ->
  c <> ivertex ->
  (forall k, (start_iter <= k)%nat -> c <> vertex_ k) ->
  map (frame c) (res_df res) = map (frame c) df.
Proof.
  intros H Hi Hk.
  destruct (iterate_pint_inv _ _ _ _ _ _ _ _ _ _ _ H) as (n & stn & Hn & _ & Hf).
  assert (Hci : vcol_eqb c ivertex = false).
  { destruct (vcol_eqb c ivertex) eqn:Heq; [|reflexivity].
    apply vcol_eqb_eq in Heq. contradiction. }
  rewrite (finish_frame E stn res c Hf Hci).
  apply (sweeps_frame E rad func_data func_zeros pcorr num_Lverts c (S n) _ _ Hn).
  intros k Hle. cbn in Hle.
  destruct (vcol_eqb c (vertex_ k)) eqn:Heq; [|reflexivity].
  apply vcol_eqb_eq in Heq. exfalso. exact (Hk k Hle Heq).
Qed.

(** X1. A run of [iterate_pint] that returns a result has kept the seed
    table's rows: their number, and each row's roiidx, NETWORK and hemi;
    and it has left every vertex column alone other than 'ivertex' and the
    'vertex_{k}' of its own sweeps ([k >= start_iter]), in particular
    'tvertex'. *)
Theorem iterate_pint_keeps_seed_table (E : externals) (rad : radii) (fuel : nat)
  (df : dataframe) (vertex_incol : vcol) (func_data : ndarray2)
  (func_zeros : list nat) (pcorr : bool) (num_Lverts start_iter : nat)
  (res : pint_result) :
  iterate_pint E rad fuel df vertex_incol func_data func_zeros pcorr num_Lverts
               start_iter = Some (Ok res) ->
  length (res_df res) = length df /\
  map roiidx (res_df res) = map roiidx df /\
  map NETWORK (res_df res) = map NETWORK df /\
  map hemi (res_df res) = map hemi df /\
  (forall (c : vcol) (idx : nat),
     c <> ivertex ->
     (forall k, (start_iter <= k)%nat -> c <> vertex_ k) ->
     loc_v (res_df res) idx c = loc_v df idx c).
Proof.
  intros H.
  assert (Hframe : forall c,
            c <> ivertex -> (forall k, (start_iter <= k)%nat -> c <> vertex_ k) ->
            map (frame c) (res_df res) = map (frame c) df).
  { intros c. now apply (iterate_pint_frame E rad fuel df vertex_incol func_data
                           func_zeros pcorr num_Lverts start_iter res c). }
  assert (Ht : map (frame tvertex) (res_df res) = map (frame tvertex) df).
  { apply Hframe; [discriminate | intros k _; discriminate]. }
  destruct (frame_components tvertex _ _ Ht) as (H1 & H2 & H3 & H4).
  repeat (split; [assumption|]).
  intros c idx Hi Hk. apply loc_v_frame. now apply Hframe.
Qed.

Lemma iterate_pint_keeps_seed_table_witness :
  map roiidx (res_df example_first) = map roiidx example_df /\
  loc_v (res_df example_first) 1 tvertex = loc_v example_df 1 tvertex.
Proof.
  destruct (iterate_pint_keeps_seed_table (path_externals 5 in_order) example_radii 50
              example_df tvertex example_func [1; 8]%nat false 5 0 example_first)
    as (_ & H2 & _ & _ & H5).
  - vm_compute. reflexivity.
  - split; [exact H2|]. apply H5; [discriminate | intros k _; discriminate].
Defined.

(** X2. When [iterate_pint] returns a result, at least one sweep has run;
    the distance column it names is the last sweep's 'dist_{k}'; every
    seed's 'ivertex' is its entry in the last sweep's 'vertex_{k}'; and
    every seed has a 'distance', which is 0 when its final vertex is its
    template vertex. *)
Theorem iterate_pint_result_columns (E : externals) (rad : radii) (fuel : nat)
  (df : dataframe) (vertex_incol : vcol) (func_data : ndarray2)
  (func_zeros : list nat) (pcorr : bool) (num_Lverts start_iter : nat)
  (res : pint_result) :
  iterate_pint E rad fuel df vertex_incol func_data func_zeros pcorr num_Lverts
               start_iter = Some (Ok res) ->
  (start_iter < res_iter_num res)%nat /\
  res_distance_outcol res = dist_ (res_iter_num res - 1) /\
  (forall idx, (idx < length df)%nat ->
     exists (v : Z) (d : Q),
       loc_v (res_df res) idx ivertex = Ok v /\
       loc_v (res_df res) idx (vertex_ (res_iter_num res - 1)) = Ok v /\
       loc_d (res_df res) idx distance = Ok d /\
       (loc_v (res_df res) idx tvertex = Ok v -> d = 0%Q)).
Proof.
  intros H. destruct (iterate_pint_inv _ _ _ _ _ _ _ _ _ _ _ H) as (n & stn & Hn & _ & Hf).
  destruct (sweeps_last_columns _ _ _ _ _ _ _ _ _ Hn) as (Hi & Hvo & Hdo).
  cbn [init_state st_iter_num] in Hi.
  assert (Hlen : length (st_df stn) = length df).
  { destruct (sweeps_frame E rad func_data func_zeros pcorr num_Lverts tvertex (S n)
                _ _ Hn) as [Hfr _]; [intros k _; reflexivity|].
    exact (proj1 (frame_components tvertex _ _ Hfr)). }
  unfold finish in Hf. rewrite Hvo, Hdo in Hf.
  destruct (mapM _ (st_df stn)) as [dfi|] eqn:Hcopy; [|discriminate Hf].
  cbn [bind] in Hf.
  destruct (calc_distance_column E dfi tvertex ivertex distance 150%Q)
    as [[d' calls]|] eqn:Hdist; [|discriminate Hf].
  cbn [bind fst snd] in Hf. injection Hf as <-.
  cbn [res_df res_iter_num res_distance_outcol].
  split; [lia|]. split; [reflexivity|].
  intros idx Hidx.
  destruct (copy_to_ivertex _ _ _ Hcopy) as [Hfr Hcp].
  destruct (Hcp idx ltac:(lia)) as (v & Hv1 & Hv2).
  assert (Hleni : length dfi = length (st_df stn)).
  { exact (proj1 (frame_components tvertex _ _ (Hfr tvertex eq_refl))). }
  unfold calc_distance_column in Hdist.
  destruct (distance_fold E tvertex ivertex distance 150%Q _ _ _ _ _ Hdist)
    as (_ & Hvs & _ & Hzero).
  assert (Hin : In idx (index_tolist (fill_d dfi distance (- (999 # 10))%Q))).
  { unfold index_tolist, fill_d. rewrite length_map. apply in_seq. lia. }
  destruct (distance_fold_defined E tvertex ivertex distance 150%Q _ _ _ _ _ Hdist
              idx Hin) as [q Hq].
  exists v, q. split; [|split; [|split]].
  - now rewrite Hvs, loc_v_fill_d.
  - rewrite Hvs, loc_v_fill_d.
    rewrite (loc_v_frame (vertex_ (st_iter_num stn - 1)) dfi (st_df stn) idx
               (Hfr (vertex_ (st_iter_num stn - 1)) eq_refl)).
    exact Hv1.
  - exact Hq.
  - intros Ht. rewrite Hvs, loc_v_fill_d in Ht.
    assert (H0 : loc_d d' idx distance = Ok 0%Q).
    { apply (Hzero (seq_NoDup _ _) idx v Hin); now rewrite loc_v_fill_d. }
    congruence.
Qed.

Lemma iterate_pint_result_columns_witness :
  res_distance_outcol example_first = dist_ (res_iter_num example_first - 1).
Proof.
  refine (proj1 (proj2 (iterate_pint_result_columns (path_externals 5 in_order)
                          example_radii 50 example_df tvertex example_func [1; 8]%nat
                          false 5 0 example_first _))).
  vm_compute. reflexivity.
Defined.

(** ** Convergence of an unmoved table *)

Lemma sweep_distances (E : externals) (rad : radii) (func_data : ndarray2)
  (func_zeros : list nat) (pcorr : bool) (num_Lverts : nat) (st st' : loop_state) :
  sweep E rad func_data func_zeros pcorr num_Lverts st = Ok st' ->
  exists (df1 : dataframe) (calls : list geo_call) (col : list Q),
    calc_distance_column E df1 (st_vertex_incol st) (vertex_ (st_iter_num st))
                         (dist_ (st_iter_num st)) (RADIUS_SEARCH rad)
    = Ok (st_df st', calls) /\
    mapM (fun idx => loc_d (st_df st') idx (dist_ (st_iter_num st)))
         (index_tolist (st_df st')) = Ok col /\
    max_of col = Ok (st_max_distance st') /\
    st_calls st' = st_calls st ++ calls.
Proof.
  unfold sweep. intros H.
  destruct (build_masks E rad _ _ func_zeros) as [m|]; [|discriminate H].
  cbn [bind] in H.
  destruct (calc_sampling_meants func_data (sampling_rois m)) as [sm|]; [|discriminate H].
  cbn [bind] in H.
  destruct (if pcorr then _ else _) as [nm|]; [|discriminate H]. cbn [bind] in H.
  destruct (move_all E _ _ _ func_data sm m pcorr num_Lverts nm _) as [df1|];
    [|discriminate H].
  cbn [bind] in H.
  destruct (calc_distance_column E df1 _ _ _ _) as [[d2 calls]|] eqn:Hdist;
    [|discriminate H].
  cbn [bind fst snd] in H.
  destruct (mapM _ (index_tolist d2)) as [col|] eqn:Hcol; [|discriminate H].
  cbn [bind] in H.
  destruct (max_of col) as [md|] eqn:Hmax; [|discriminate H]. cbn [bind] in H.
  injection H as <-. cbn [st_df st_max_distance st_calls].
  exists df1, calls, col. auto.
Qed.

Lemma max_of_zeros {A : Type} (l : list A) (md : Q) :
  max_of (map (fun _ => 0%Q) l) = Ok md -> md = 0%Q.
Proof.
  destruct l as [|a l]; cbn [map max_of]; intros H; [discriminate H|].
  injection H as <-. induction l as [|b l IH]; [reflexivity|]. exact IH.
Qed.

(** X3. If a sweep completes and leaves every seed's entry in the sweep's
    vertex column equal to its entry in the input column, the sweep's
    maximum displacement is 0; when that sweep is the first one,
    [iterate_pint] stops after it, whatever fuel (at least 1) it is
    given. *)
Theorem unmoved_sweep_converges (E : externals) (rad : radii) (df : dataframe)
  (vertex_incol : vcol) (func_data : ndarray2) (func_zeros : list nat)
  (pcorr : bool) (num_Lverts start_iter : nat) (st1 : loop_state) :
  sweep E rad func_data func_zeros pcorr num_Lverts
        (init_state df vertex_incol start_iter) = Ok st1 ->
  (forall idx, (idx < length (st_df st1))%nat ->
     exists a, loc_v (st_df st1) idx vertex_incol = Ok a /\
               loc_v (st_df st1) idx (vertex_ start_iter) = Ok a) ->
  st_max_distance st1 = 0%Q /\
  st_iter_num st1 = S start_iter /\
  (forall fuel,
     iterate_pint E rad (S fuel) df vertex_incol func_data func_zeros pcorr
                  num_Lverts start_iter = Some (finish E st1)).
Proof.
  intros Hs Hsame.
  destruct (sweep_distances _ _ _ _ _ _ _ _ Hs) as (df1 & calls & col & Hdist & Hcol & Hmax & _).
  cbn [init_state st_vertex_incol st_iter_num] in Hdist, Hcol.
  unfold calc_distance_column in Hdist.
  destruct (distance_fold E vertex_incol (vertex_ start_iter) (dist_ start_iter)
              (RADIUS_SEARCH rad) _ _ _ _ _ Hdist) as (Hlen & Hvs & _ & Hzero).
  assert (Hall : forall idx, In idx (index_tolist (st_df st1)) ->
                   loc_d (st_df st1) idx (dist_ start_iter) = Ok 0%Q).
  { intros idx Hin. unfold index_tolist in Hin. apply in_seq in Hin.
    destruct (Hsame idx ltac:(lia)) as (a & Ha1 & Ha2).
    apply (Hzero (seq_NoDup _ _) idx a).
    - unfold index_tolist. apply in_seq. rewrite <- Hlen. lia.
    - now rewrite <- Hvs.
    - now rewrite <- Hvs. }
  assert (Hcol0 : col = map (fun _ => 0%Q) (index_tolist (st_df st1))).
  { set (f := fun idx => loc_d (st_df st1) idx (dist_ start_iter)) in *.
    set (val := fun idx => match f idx with Ok v => v | Raise _ => 0%Q end).
    destruct (mapM_cases f val (index_tolist (st_df st1))) as [[_ H1]|(a & e & Ha & Hfa & _)].
    - intros a v Ha. unfold val. now rewrite Ha.
    - rewrite H1 in Hcol. injection Hcol as <-. apply map_ext_in.
      intros a Ha. unfold val, f. now rewrite (Hall a Ha).
    - unfold f in Hfa. rewrite (Hall a Ha) in Hfa. discriminate Hfa. }
  assert (Hmd : st_max_distance st1 = 0%Q).
  { rewrite Hcol0 in Hmax. exact (max_of_zeros _ _ Hmax). }
  destruct (sweep_iter_num _ _ _ _ _ _ _ _ Hs) as (Hi & _).
  cbn [init_state st_iter_num] in Hi.
  split; [exact Hmd|]. split; [exact Hi|].
  intros fuel. unfold iterate_pint. cbn [pint_loop].
  cbn [init_state st_iter_num st_max_distance].
  assert (Hlt : (start_iter <? start_iter + 50) = true) by (apply Nat.ltb_lt; lia).
  rewrite Hlt. change (Qltb 1 10) with true. cbn [andb].
  fold (init_state df vertex_incol start_iter). rewrite Hs.
  assert (Hstop : pint_loop E rad func_data func_zeros pcorr num_Lverts start_iter fuel st1
                  = Some (Ok st1)).
  { destruct fuel; cbn [pint_loop]; rewrite Hmd;
      change (Qltb 1 0) with false; rewrite andb_false_r; reflexivity. }
  rewrite Hstop. reflexivity.
Qed.

Lemma unmoved_sweep_converges_witness :
  st_max_distance still_state = 0%Q /\
  iterate_pint (path_externals 5 in_order) still_radii 1 example_df tvertex
               example_func [1; 8]%nat false 5 0
  = Some (finish (path_externals 5 in_order) still_state).
Proof.
  destruct (unmoved_sweep_converges (path_externals 5 in_order) still_radii example_df
              tvertex example_func [1; 8]%nat false 5 0 still_state) as (H1 & _ & H3).
  - vm_compute. reflexivity.
  - intros idx Hidx. change (length (st_df still_state)) with 3%nat in Hidx.
    destruct idx as [|[|[|idx]]]; [| | |lia].
    + exists 1%Z. split; reflexivity.
    + exists 3%Z. split; reflexivity.
    + exists 2%Z. split; reflexivity.
  - split; [exact H1 | exact (H3 0%nat)].
Defined.

(** ** The cost of a distance column *)

Lemma filter_map_length {A B : Type} (f : B -> bool) (g : A -> B) (l : list A) :
  length (filter f (map g l)) = length (filter (fun x => f (g x)) l).
Proof.
  induction l as [|a l IH]; [reflexivity|].
  cbn. destruct (f (g a)); cbn; now rewrite IH.
Qed.

Lemma filter_index_length {A : Type} (p : A -> bool) (l : list A) :
  length (filter (fun i => match nth_error l i with
                           | Some x => p x
                           | None => false
                           end) (seq 0 (length l)))
  = length (filter p l).
Proof.
  induction l as [|a l IH]; [reflexivity|].
  cbn [length seq filter nth_error]. rewrite <- seq_shift.
  destruct (p a); cbn [length]; rewrite filter_map_length; cbn [nth_error];
    now rewrite IH.
Qed.

Lemma loc_differs (ic oc : vcol) (d : dataframe) (idx : nat) :
  match loc_v d idx ic, loc_v d idx oc with
  | Ok a, Ok b => negb (a =? b)%Z
  | _, _ => false
  end
  = match nth_error d idx with
    | Some s => position_differs ic oc s
    | None => false
    end.
Proof.
  unfold loc_v, position_differs. destruct (nth_error d idx) as [s|]; [|reflexivity].
  destruct (lookup vcol_eqb ic (vcols s)), (lookup vcol_eqb oc (vcols s)); reflexivity.
Qed.

Lemma distance_step_calls (E : externals) (ic oc : vcol) (dc : dcol) (r : Q)
  (d d1 : dataframe) (calls calls1 : list geo_call) (i : nat) :
  distance_step E ic oc dc r (d, calls) i = Ok (d1, calls1) ->
  exists a b new,
    loc_v d i ic = Ok a /\ loc_v d i oc = Ok b /\ calls1 = calls ++ new /\
    length new = (if (a =? b)%Z then 0 else 1)%nat /\
    Forall (fun c => call_radius c = r /\ call_orig c = a) new.
Proof.
  unfold distance_step. cbn [fst snd]. intros H.
  destruct (loc_v d i ic) as [a|]; [|discriminate H]. cbn [bind] in H.
  destruct (loc_v d i oc) as [b|]; [|discriminate H]. cbn [bind] in H.
  destruct (nth_error d i) as [s|]; [|discriminate H].
  unfold calc_surf_distance in H.
  exists a, b. destruct (a =? b)%Z.
  - cbn [bind fst snd] in H. injection H as _ <-. exists []. repeat split. constructor.
  - destruct (np_index _ b) as [j|]; [|discriminate H]. cbn [bind fst snd] in H.
    injection H as _ <-. eexists. repeat split. constructor; [|constructor].
    cbn. split; reflexivity.
Qed.

Lemma distance_fold_calls (E : externals) (ic oc : vcol) (dc : dcol) (r : Q)
  (order : list nat) :
  forall (d d' : dataframe) (calls calls' : list geo_call),
    foldM (distance_step E ic oc dc r) order (d, calls) = Ok (d', calls') ->
    exists new,
      calls' = calls ++ new /\
      length new
      = length (filter (fun idx => match nth_error d idx with
                                   | Some s => position_differs ic oc s
                                   | None => false
                                   end) order) /\
      Forall (fun c => call_radius c = r) new.
Proof.
  induction order as [|i order IH]; intros d d' calls calls' H; cbn [foldM] in H.
  - injection H as <- <-. exists []. rewrite app_nil_r. repeat split. constructor.
  - destruct (distance_step E ic oc dc r (d, calls) i) as [[d1 calls1]|] eqn:Hstep;
      [|discriminate H].
    cbn [bind] in H.
    destruct (distance_step_calls _ _ _ _ _ _ _ _ _ _ Hstep)
      as (a & b & new1 & Ha & Hb & -> & Hlen1 & Hr1).
    destruct (distance_step_inv _ _ _ _ _ _ _ _ _ _ Hstep)
      as (_ & _ & q & _ & _ & _ & -> & _).
    destruct (IH _ _ _ _ H) as (new & -> & Hlen & Hr).
    exists (new1 ++ new). split; [now rewrite app_assoc|]. split.
    + rewrite length_app, Hlen, Hlen1. cbn [filter].
      rewrite <- (loc_differs ic oc d i), Ha, Hb.
      assert (Hsame : forall idx,
                match nth_error (set_loc_d d i dc q) idx with
                | Some s => position_differs ic oc s
                | None => false
                end
                = match nth_error d idx with
                  | Some s => position_differs ic oc s
                  | None => false
                  end).
      { intros idx. rewrite <- !loc_differs, !loc_v_set_loc_d. reflexivity. }
      rewrite (filter_ext _ _ Hsame).
      destruct (a =? b)%Z; reflexivity.
    + apply Forall_app. split; [|exact Hr].
      eapply Forall_impl; [|exact Hr1]. intros c [Hc _]. exact Hc.
Qed.

(** X4. Computing a distance column invokes the geometry provider once for
    every seed whose two positions differ and never for a seed whose
    positions coincide; every invocation uses the radius passed in. *)
Theorem calc_distance_column_provider_calls (E : externals) (df df' : dataframe)
  (orig_vertex_col target_vertex_col : vcol) (distance_outcol : dcol)
  (radius_search : Q) (calls : list geo_call) :
  calc_distance_column E df orig_vertex_col target_vertex_col distance_outcol
                       radius_search = Ok (df', calls) ->
  length calls
  = length (filter (position_differs orig_vertex_col target_vertex_col) df) /\
  Forall (fun c => call_radius c = radius_search) calls.
Proof.
  unfold calc_distance_column. intros H.
  destruct (distance_fold_calls _ _ _ _ _ _ _ _ _ _ H) as (new & Hc & Hlen & Hr).
  cbn [app] in Hc. subst new. split; [|exact Hr].
  rewrite Hlen. unfold index_tolist. rewrite filter_index_length.
  unfold fill_d. rewrite filter_map_length. reflexivity.
Qed.

Lemma calc_distance_column_provider_calls_witness :
  length (snd example_distances)
  = length (filter (position_differs tvertex ivertex) (res_df example_first)).
Proof.
  refine (proj1 (calc_distance_column_provider_calls (path_externals 5 in_order)
                   (res_df example_first) (fst example_distances) tvertex ivertex
                   (dist_ 7) 3%Q (snd example_distances) _)).
  vm_compute. reflexivity.
Defined.

(** ** Labels of a region mask *)

Lemma fold_left_max_spec (xs : list Z) :
  forall x, let m := fold_left Z.max xs x in
            In m (x :: xs) /\ (forall y, In y (x :: xs) -> (y <= m)%Z).
Proof.
  induction xs as [|a xs IH]; intros x; cbn [fold_left].
  - split; [now left|]. intros y [<-|[]]. lia.
  - destruct (IH (Z.max x a)) as [Hin Hmax]. split.
    + destruct Hin as [Hin|Hin]; [|right; now right].
      rewrite <- Hin. destruct (Z.max_spec x a) as [[_ ->]|[_ ->]];
        [right; now left | now left].
    + intros y [<-|[<-|Hy]].
      * specialize (Hmax _ (or_introl eq_refl)). lia.
      * specialize (Hmax _ (or_introl eq_refl)). lia.
      * apply Hmax. now right.
Qed.

Lemma row_label_spec (vlabels row : list Z) (l : Z) :
  row_label vlabels row = Ok l ->
  Forall (fun x => x = 0 \/ x = 1)%Z row ->
  Forall (fun x => 0 < x)%Z vlabels ->
  length row = length vlabels /\
  (forall j, (j < length vlabels)%nat -> nth j row 0%Z = 1%Z ->
             (nth j vlabels 0 <= l)%Z) /\
  ((l = 0%Z /\ Forall (fun x => x = 0%Z) row) \/
   (exists j, (j < length vlabels)%nat /\ nth j row 0%Z = 1%Z /\ nth j vlabels 0%Z = l)).
Proof.
  unfold row_label. intros H H01 Hpos.
  destruct (length row =? length vlabels) eqn:Hlen; [|discriminate H].
  apply Nat.eqb_eq in Hlen. cbn [negb] in H.
  set (prods := map (fun p => (fst p * snd p)%Z) (combine row vlabels)) in *.
  assert (Hnth : forall j, (j < length vlabels)%nat ->
                           nth j prods 0%Z = (nth j row 0 * nth j vlabels 0)%Z).
  { intros j Hj. unfold prods.
    change 0%Z with ((fun p : Z * Z => (fst p * snd p)%Z) (0%Z, 0%Z)) at 1.
    rewrite map_nth, combine_nth by exact Hlen. reflexivity. }
  assert (Hplen : length prods = length vlabels).
  { unfold prods. rewrite length_map, length_combine, Hlen. apply Nat.min_id. }
  destruct prods as [|x xs] eqn:Hp; [discriminate H|]. injection H as <-.
  destruct (fold_left_max_spec xs x) as [Hin Hmax]. cbv zeta in Hin, Hmax.
  set (m := fold_left Z.max xs x) in *.
  rewrite Forall_forall in H01, Hpos.
  assert (Hrow : forall j, (j < length vlabels)%nat ->
                           nth j row 0%Z = 0%Z \/ nth j row 0%Z = 1%Z).
  { intros j Hj. apply H01, nth_In. lia. }
  assert (Hlab : forall j, (j < length vlabels)%nat -> (0 < nth j vlabels 0)%Z).
  { intros j Hj. apply Hpos, nth_In. exact Hj. }
  split; [exact Hlen|]. split.
  - intros j Hj H1. specialize (Hnth j Hj). rewrite H1, Z.mul_1_l in Hnth.
    rewrite <- Hnth. apply Hmax, nth_In. lia.
  - apply (In_nth _ _ 0%Z) in Hin. destruct Hin as (j & Hj & Hjm).
    rewrite Hplen in Hj. rewrite (Hnth j Hj) in Hjm.
    destruct (Hrow j Hj) as [H0|H1].
    + left. rewrite H0, Z.mul_0_l in Hjm. split; [now symmetry|].
      apply Forall_forall. intros y Hy. apply (In_nth _ _ 0%Z) in Hy.
      destruct Hy as (k & Hk & <-). rewrite Hlen in Hk.
      destruct (Hrow k Hk) as [Hk0|Hk1]; [exact Hk0|]. exfalso.
      assert (Hle : (nth k (x :: xs) 0 <= m)%Z) by (apply Hmax, nth_In; lia).
      rewrite (Hnth k Hk), Hk1, Z.mul_1_l in Hle. specialize (Hlab k Hk). lia.
    + right. exists j. rewrite H1, Z.mul_1_l in Hjm. auto.
Qed.

(** X5. When the geometry provider returns 0/1 membership rows and the
    seeds of the hemisphere have positive labels, [roi_surf_data] gives one
    label per provider row: 0 for a vertex in no seed's disk, otherwise the
    roiidx of a seed of that hemisphere whose disk holds the vertex, and
    the largest such roiidx if the provider reported several. *)
Theorem roi_surf_data_labels (E : externals) (df : dataframe) (vertex_colname : vcol)
  (surf : surface) (hemisphere_ : hemisphere) (roi_radius : Q) (mask : list Z) :
  roi_surf_data E df vertex_colname surf hemisphere_ roi_radius = Ok mask ->
  (forall vs row, In row (geodesic_rois E surf roi_radius vs) ->
                  Forall (fun x => x = 0 \/ x = 1)%Z row) ->
  (forall s, In s df -> hemi s = hemisphere_ -> (0 < roiidx s)%Z) ->
  exists (vertex_list : list Z),
    length mask = length (geodesic_rois E surf roi_radius vertex_list) /\
    (forall v l row,
       nth_error mask v = Some l ->
       nth_error (geodesic_rois E surf roi_radius vertex_list) v = Some row ->
       (forall j s, nth_error (filter (fun s => hemisphere_eqb (hemi s) hemisphere_) df) j
                    = Some s ->
                    nth j row 0%Z = 1%Z -> (roiidx s <= l)%Z) /\
       ((l = 0%Z /\ Forall (fun x => x = 0%Z) row) \/
        (exists j s, nth_error (filter (fun s => hemisphere_eqb (hemi s) hemisphere_) df) j
                     = Some s /\
                     nth j row 0%Z = 1%Z /\ roiidx s = l /\ In s df /\
                     hemi s = hemisphere_))).
Proof.
  unfold roi_surf_data. intros H H01 Hpos.
  set (these := filter (fun s => hemisphere_eqb (hemi s) hemisphere_) df) in *.
  destruct (mapM (seed_vcol vertex_colname) these) as [vertex_list|]; [|discriminate H].
  cbn [bind] in H.
  destruct (map roiidx these) as [|l0 ls] eqn:Hlabels; [discriminate H|].
  rewrite <- Hlabels in H.
  exists vertex_list.
  destruct (mapM_nth _ _ _ H) as [Hlen Hnth]. split; [exact Hlen|].
  intros v l row Hv Hrow. destruct (Hnth v row Hrow) as (l' & Hl' & Hv').
  assert (l' = l) by congruence. subst l'.
  assert (Hthese : forall s, In s these -> In s df /\ hemi s = hemisphere_).
  { intros s Hs. unfold these in Hs. apply filter_In in Hs. destruct Hs as [Hs Hh].
    split; [exact Hs|]. destruct (hemi s), hemisphere_; cbn in Hh; congruence. }
  assert (Hp : Forall (fun x => 0 < x)%Z (map roiidx these)).
  { apply Forall_forall. intros x Hx. apply in_map_iff in Hx.
    destruct Hx as (s & <- & Hs). destruct (Hthese s Hs). now apply Hpos. }
  destruct (row_label_spec _ _ _ Hl' (H01 _ _ (nth_error_In _ _ Hrow)) Hp)
    as (Hrl & Hmax & Hcase).
  rewrite length_map in Hmax, Hcase.
  assert (Hlab : forall j s, nth_error these j = Some s ->
                             nth j (map roiidx these) 0%Z = roiidx s).
  { intros j s Hs. apply nth_error_nth. now rewrite nth_error_map, Hs. }
  split.
  - intros j s Hs H1. rewrite <- (Hlab j s Hs). apply Hmax; [|exact H1].
    apply nth_error_Some. congruence.
  - destruct Hcase as [Hz|(j & Hj & H1 & Hjl)]; [now left|]. right.
    destruct (nth_error these j) as [s|] eqn:Hs.
    + exists j, s. rewrite (Hlab j s Hs) in Hjl.
      destruct (Hthese s (nth_error_In _ _ Hs)). auto.
    + apply nth_error_None in Hs. lia.
Qed.

Lemma path_rois_zero_one (nverts : nat) (surf : surface) (radius : Q) (vs : list Z)
  (row : list Z) :
  In row (path_rois nverts surf radius vs) -> Forall (fun x => x = 0 \/ x = 1)%Z row.
Proof.
  unfold path_rois. intros H. apply in_map_iff in H. destruct H as (v & <- & _).
  apply Forall_forall. intros x Hx. apply in_map_iff in Hx.
  destruct Hx as (c & <- & _).
  destruct (_ && _); [now right | now left].
Qed.

Lemma roi_surf_data_labels_witness :
  exists vertex_list : list Z,
    length example_left_mask
    = length (geodesic_rois (path_externals 5 in_order) surfL 1%Q vertex_list).
Proof.
  destruct (roi_surf_data_labels (path_externals 5 in_order) example_df tvertex surfL L
              1%Q example_left_mask) as (vertex_list & Hlen & _).
  - vm_compute. reflexivity.
  - intros vs row. apply path_rois_zero_one.
  - intros s Hs _. cbn in Hs.
    destruct Hs as [<-|[<-|[<-|[]]]]; reflexivity.
  - exists vertex_list. exact Hlen.
Defined.

(** ** Zeroing the invalid vertices *)

Lemma assign_at_out_of_range {A : Type} (v : A) (idx : list nat) :
  forall l, (exists i, In i idx /\ (length l <= i)%nat) ->
            assign_at l idx v = Raise IndexError.
Proof.
  induction idx as [|i idx IH]; intros l (j & Hj & Hle); [destruct Hj|].
  cbn [assign_at]. destruct (i <? length l) eqn:Hi; [|reflexivity].
  apply Nat.ltb_lt in Hi. apply IH. exists j. rewrite set_at_length.
  destruct Hj as [->|Hj]; [lia|]. auto.
Qed.

(** X6. When the masks of a sweep are built, the sampling and search masks
    keep the length and, at every vertex that is not invalid, the label
    the Region Builder gave; every invalid vertex lies within both
    masks. *)
Theorem build_masks_valid_vertices_keep_labels (E : externals) (rad : radii)
  (df : dataframe) (vertex_incol : vcol) (func_zeros : list nat) (m : masks) :
  build_masks E rad df vertex_incol func_zeros = Ok m ->
  exists sampling0 search0 : list Z,
    rois_bilateral E df vertex_incol (RADIUS_SAMPLING rad) = Ok sampling0 /\
    rois_bilateral E df vertex_incol (RADIUS_SEARCH rad) = Ok search0 /\
    length (sampling_rois m) = length sampling0 /\
    length (search_rois m) = length search0 /\
    (forall v, ~ In v func_zeros ->
               nth v (sampling_rois m) 0%Z = nth v sampling0 0%Z /\
               nth v (search_rois m) 0%Z = nth v search0 0%Z) /\
    (forall v, In v func_zeros ->
               (v < length sampling0)%nat /\ (v < length search0)%nat).
Proof.
  unfold build_masks. intros H.
  destruct (rois_bilateral E df vertex_incol (RADIUS_SAMPLING rad)) as [s0|];
    [|discriminate H].
  cbn [bind] in H.
  destruct (assign_at s0 func_zeros 0%Z) as [s1|] eqn:Hs; [|discriminate H].
  cbn [bind] in H.
  destruct (rois_bilateral E df vertex_incol (RADIUS_SEARCH rad)) as [c0|];
    [|discriminate H].
  cbn [bind] in H.
  destruct (assign_at c0 func_zeros 0%Z) as [c1|] eqn:Hc; [|discriminate H].
  cbn [bind] in H.
  destruct (rois_bilateral E df vertex_incol (RADIUS_PADDING rad)) as [p0|];
    [|discriminate H].
  cbn [bind] in H. injection H as <-. cbn [sampling_rois search_rois].
  destruct (assign_at_spec 0%Z 0%Z func_zeros _ _ Hs) as (Hl1 & Hin1 & Hout1).
  destruct (assign_at_spec 0%Z 0%Z func_zeros _ _ Hc) as (Hl2 & Hin2 & Hout2).
  exists s0, c0. repeat split; auto.
  - apply Hin1, H.
  - apply Hin2, H.
Qed.

Lemma build_masks_valid_vertices_keep_labels_witness :
  exists sampling0 search0 : list Z,
    rois_bilateral (path_externals 5 in_order) example_df tvertex
                   (RADIUS_SAMPLING example_radii) = Ok sampling0 /\
    rois_bilateral (path_externals 5 in_order) example_df tvertex
                   (RADIUS_SEARCH example_radii) = Ok search0 /\
    length (sampling_rois example_masks) = length sampling0 /\
    length (search_rois example_masks) = length search0.
Proof.
  destruct (build_masks_valid_vertices_keep_labels (path_externals 5 in_order)
              example_radii example_df tvertex [1; 8]%nat example_masks)
    as (s0 & c0 & H1 & H2 & H3 & H4 & _).
  - vm_compute. reflexivity.
  - exists s0, c0. auto.
Defined.

(** X7. If the list of invalid vertices names a position beyond the
    sampling mask the Region Builder returned (time series and surface of
    different resolution), building the masks raises IndexError. *)
Theorem build_masks_resolution_mismatch (E : externals) (rad : radii)
  (df : dataframe) (vertex_incol : vcol) (func_zeros : list nat)
  (sampling0 : list Z) (v : nat) :
  rois_bilateral E df vertex_incol (RADIUS_SAMPLING rad) = Ok sampling0 ->
  In v func_zeros ->
  (length sampling0 <= v)%nat ->
  build_masks E rad df vertex_incol func_zeros = Raise IndexError.
Proof.
  intros H Hin Hle. unfold build_masks. rewrite H. cbn [bind].
  rewrite (assign_at_out_of_range 0%Z func_zeros sampling0); [reflexivity|].
  exists v. auto.
Qed.

Lemma build_masks_resolution_mismatch_witness :
  build_masks (path_externals 5 in_order) example_radii example_df tvertex
              [1; 12]%nat = Raise IndexError.
Proof.
  apply (build_masks_resolution_mismatch (path_externals 5 in_order) example_radii
           example_df tvertex [1; 12]%nat [1; 1; 0; 2; 2; 0; 3; 3; 3; 0]%Z 12%nat).
  - vm_compute. reflexivity.
  - cbn. auto.
  - cbn. lia.
Defined.

(** ** Shape of the sampling means *)

Lemma mean_axis0_length (T : nat) (rs : list (list Q)) : length (mean_axis0 T rs) = T.
Proof. unfold mean_axis0. now rewrite length_map, length_seq. Qed.

Lemma map_nth_seq (l : list Q) : map (fun j => nth j l 0%Q) (seq 0 (length l)) = l.
Proof.
  apply (nth_ext _ _ ((fun j => nth j l 0%Q) 0%nat) 0%Q).
  - now rewrite length_map, length_seq.
  - intros n Hn. rewrite length_map, length_seq in Hn.
    rewrite (map_nth (fun j => nth j l 0%Q)), seq_nth by exact Hn. reflexivity.
Qed.

Lemma mean_axis0_single (ts : list Q) :
  Forall2 Qeq (mean_axis0 (length ts) [ts]) ts.
Proof.
  unfold mean_axis0.
  enough (H : Forall2 Qeq
                (map (fun j => Qmean (map (fun r => nth j r 0%Q) [ts]))
                     (seq 0 (length ts)))
                (map (fun j => nth j ts 0%Q) (seq 0 (length ts))))
    by (now rewrite map_nth_seq in H).
  apply Forall2_map_same. intros j _. unfold Qmean. cbn [map Qsum fold_right length].
  change (inject_Z (Z.of_nat 1)) with 1%Q. field.
Qed.

(** X8. The sampling means have as many columns as the time series and
    every row has that length; the row of a label carried by a single
    vertex is that vertex's own series. *)
Theorem calc_sampling_meants_rows (func_data : ndarray2) (mask : list Z)
  (sm : ndarray2) :
  calc_sampling_meants func_data mask = Ok sm ->
  shape1 sm = shape1 func_data /\
  wf_ndarray2 sm /\
  (forall i l v ts,
     nth_error (tl (np_unique mask)) i = Some l ->
     np_where (Z.eqb l) mask = [v] ->
     nth_error (rows func_data) v = Some ts ->
     length ts = shape1 func_data ->
     exists row, nth_error (rows sm) i = Some row /\ Forall2 Qeq row ts).
Proof.
  unfold calc_sampling_meants. intros H.
  destruct (mapM _ (tl (np_unique mask))) as [out|] eqn:Hm; [|discriminate H].
  cbn [bind] in H. injection H as <-. cbn [shape1 rows].
  destruct (mapM_nth _ _ _ Hm) as [Hlen Hnth].
  split; [reflexivity|]. split.
  - unfold wf_ndarray2. cbn [rows shape1]. apply Forall_forall. intros row Hrow.
    apply In_nth_error in Hrow. destruct Hrow as [i Hi].
    assert (Hil : (i < length (tl (np_unique mask)))%nat).
    { rewrite <- Hlen. apply nth_error_Some. congruence. }
    destruct (nth_error (tl (np_unique mask)) i) as [l|] eqn:Hl;
      [|apply nth_error_None in Hl; lia].
    destruct (Hnth i l Hl) as (row' & Hrow' & Hi').
    assert (row' = row) by congruence. subst row'.
    destruct (take_rows func_data _) as [sel|]; [|discriminate Hrow'].
    cbn [bind] in Hrow'. injection Hrow' as <-. apply mean_axis0_length.
  - intros i l v ts Hl Hw Hts Hlts.
    destruct (Hnth i l Hl) as (row & Hrow & Hi). exists row. split; [exact Hi|].
    rewrite Hw in Hrow. unfold take_rows in Hrow. cbn [mapM] in Hrow.
    rewrite Hts in Hrow. cbn [bind] in Hrow. injection Hrow as <-.
    rewrite <- Hlts. apply mean_axis0_single.
Qed.

Lemma calc_sampling_meants_rows_witness :
  exists row,
    nth_error (rows (mk_ndarray2 6 [rising; mixed])) 1 = Some row /\
    Forall2 Qeq row mixed.
Proof.
  destruct (calc_sampling_meants_rows three_vertices [1; 0; 2]%Z
              (mk_ndarray2 6 [rising; mixed])) as (_ & _ & H).
  - vm_compute. reflexivity.
  - apply (H 1%nat 2%Z 2%nat mixed); reflexivity.
Defined.

(** ** The target series leaves the seed's own row out *)

Lemma nth_error_set_at_other {A : Type} (v : A) (l : list A) :
  forall i j, i <> j -> nth_error (set_at i v l) j = nth_error l j.
Proof.
  induction l as [|x l IH]; intros [|i] [|j] H; cbn; try reflexivity; try congruence.
  apply IH. congruence.
Qed.

Lemma mapM_ext_in {A B : Type} (f g : A -> result B) (l : list A) :
  (forall a, In a l -> f a = g a) -> mapM f l = mapM g l.
Proof.
  induction l as [|a l IH]; intros H; [reflexivity|].
  cbn [mapM]. rewrite (H a (or_introl eq_refl)), IH; [reflexivity|].
  intros b Hb. apply H. now right.
Qed.

(** X9. With labels that index the sampling means without wrap-around
    (between 1 and the number of rows), the target series of a seed does
    not depend on the seed's own sampling row: replacing row [roiidx - 1]
    by any other series leaves the target unchanged. *)
Theorem target_meants_ignores_own_row (df : dataframe) (network : string)
  (vlabel : Z) (sampling_meants : ndarray2) (r : list Q) :
  (1 <= vlabel)%Z ->
  (forall l, In l (network_labels df network) ->
             (1 <= l <= Z.of_nat (shape0 sampling_meants))%Z) ->
  target_meants df network vlabel
    (mk_ndarray2 (shape1 sampling_meants)
                 (set_at (Z.to_nat (vlabel - 1)) r (rows sampling_meants)))
  = target_meants df network vlabel sampling_meants.
Proof.
  intros Hv Hrange. unfold target_meants.
  set (netlabels := filter (fun l => negb (l =? vlabel)%Z)
                           (np_unique (network_labels df network))).
  destruct netlabels as [|l0 ls] eqn:Hnl; [reflexivity|]. rewrite <- Hnl.
  cbn [shape1].
  assert (Heq : take_label_rows
                  (mk_ndarray2 (shape1 sampling_meants)
                     (set_at (Z.to_nat (vlabel - 1)) r (rows sampling_meants)))
                  netlabels
                = take_label_rows sampling_meants netlabels).
  { unfold take_label_rows. apply mapM_ext_in. intros l Hl.
    unfold netlabels in Hl. apply filter_In in Hl. destruct Hl as [Hl Hne].
    apply np_unique_In_iff, Hrange in Hl.
    apply negb_true_iff, Z.eqb_neq in Hne.
    unfold shape0. cbn [rows]. rewrite set_at_length.
    unfold np_index.
    assert (Hb : ((0 <=? l - 1)%Z
                  && (l - 1 <? Z.of_nat (length (rows sampling_meants)))%Z) = true).
    { unfold shape0 in Hl. apply andb_true_iff.
      split; [apply Z.leb_le | apply Z.ltb_lt]; lia. }
    rewrite Hb. cbn [bind]. rewrite nth_error_set_at_other; [reflexivity|].
    intros Heq. apply Hne. apply Z2Nat.inj in Heq; lia. }
  rewrite Heq. reflexivity.
Qed.

Lemma target_meants_ignores_own_row_witness :
  target_meants example_df "A" 1
    (mk_ndarray2 (shape1 example_sampling_meants)
                 (set_at (Z.to_nat (1 - 1)) falling (rows example_sampling_meants)))
  = target_meants example_df "A" 1 example_sampling_meants.
Proof.
  apply target_meants_ignores_own_row.
  - lia.
  - intros l Hl. cbn in Hl. change (shape0 example_sampling_meants) with 3%nat.
    destruct Hl as [<-|[<-|[<-|[]]]]; lia.
Defined.

(** ** Which vertex a seed moves to *)

(** X11. For a seed with a computable target and a non-empty candidate set
    inside the time series, [pint_move_vertex] returns normally.  Its score
    array has one entry per vertex of the time series: the entry of a
    candidate is the score the correlation routine of the mode returns for
    the target and the candidate's series, every other entry is the fill
    value -1.  The seed is written the position [p] of the first maximum of
    that array (made local to the hemisphere), a NaN counting as maximal.
    If some candidate scores above -1 or NaN, [p] is a candidate of maximal
    score, the first in ascending vertex order.  [p] is not a candidate only
    if every candidate scores a number that is at most -1. *)
Theorem pint_move_vertex_selection (E : externals) (df : dataframe)
  (idx : nat) (s : seed) (vertex_incol vertex_outcol : vcol)
  (func_data sampling_meants : ndarray2)
  (search padding : list Z) (pcorr : bool) (num_Lverts : nat)
  (netmeants : option (list (string * list Q))) (v : Z) (t : list Q)
  (score : list Q -> option Q) :
  nth_error df idx = Some s ->
  seed_vcol vertex_incol s = Ok v ->
  target_meants df (NETWORK s) (roiidx s) sampling_meants = Ok t ->
  (if pcorr
   then match netmeants with
        | None => Raise AttributeError
        | Some nm =>
            Ok (fun ts => partial_corr E t ts
                            (map snd (filter (fun c => negb (String.eqb (fst c) (NETWORK s)))
                                             nm)))
        end
   else Ok (fun ts => corrcoef E t ts)) = Ok score ->
  candidates search padding (roiidx s) <> [] ->
  (forall c, In c (candidates search padding (roiidx s)) -> (c < shape0 func_data)%nat) ->
  exists (arr : list (option Q)) (p : nat),
    length arr = shape0 func_data /\
    (forall c, In c (candidates search padding (roiidx s)) ->
       nth_error arr c = Some (score (nth c (rows func_data) []))) /\
    (forall j, ~ In j (candidates search padding (roiidx s)) ->
       (j < shape0 func_data)%nat -> nth_error arr j = Some (Some (-1)%Q)) /\
    first_max arr p /\
    pint_move_vertex E df idx vertex_incol vertex_outcol func_data sampling_meants
                     search padding pcorr num_Lverts netmeants
    = Ok (set_loc_v df idx vertex_outcol
                    (match hemi s with
                     | R => (Z.of_nat p - Z.of_nat num_Lverts)%Z
                     | L => Z.of_nat p
                     end)) /\
    (p < shape0 func_data)%nat /\
    ((exists c, In c (candidates search padding (roiidx s)) /\
                (score (nth c (rows func_data) []) = None \/
                 exists q, score (nth c (rows func_data) []) = Some q /\ (-1 < q)%Q)) ->
     In p (candidates search padding (roiidx s)) /\
     ((score (nth p (rows func_data) []) = None /\
       forall c, In c (candidates search padding (roiidx s)) -> (c < p)%nat ->
                 score (nth c (rows func_data) []) <> None) \/
      (exists q, score (nth p (rows func_data) []) = Some q /\
         forall c, In c (candidates search padding (roiidx s)) ->
           exists qc, score (nth c (rows func_data) []) = Some qc /\
                      (qc <= q)%Q /\ ((c < p)%nat -> (qc < q)%Q)))) /\
    (~ In p (candidates search padding (roiidx s)) ->
     (forall c, In c (candidates search padding (roiidx s)) ->
        exists q, score (nth c (rows func_data) []) = Some q /\ (q <= -1)%Q /\
                  ((c < p)%nat -> (q < -1)%Q)) /\
     (forall j, (j < p)%nat -> In j (candidates search padding (roiidx s)))).
Proof.
  intros Hs Hv Ht Hscore Hne Hrange.
  destruct (new_position_first_max E df idx s vertex_incol func_data sampling_meants
              search padding pcorr num_Lverts netmeants v t score
              Hs Hv Ht Hscore Hrange Hne)
    as (arr & p & Hlen & Hin & Hfill & Hfm & Hnew).
  set (cand := candidates search padding (roiidx s)) in *.
  assert (Hpl : (p < shape0 func_data)%nat).
  { rewrite <- Hlen. apply nth_error_Some.
    destruct Hfm as [[H _]|(q & H & _)]; congruence. }
  exists arr, p.
  split; [exact Hlen|]. split; [exact Hin|]. split; [exact Hfill|].
  split; [exact Hfm|]. split; [|split; [exact Hpl|split]].
  - rewrite pint_move_vertex_new_position, Hnew. reflexivity.
  - intros Hbeat.
    destruct (new_position_selects_best_candidate E df idx s vertex_incol func_data
                sampling_meants search padding pcorr num_Lverts netmeants v t score
                Hs Hv Ht Hscore Hrange Hbeat) as (p' & Hnew' & Hres).
    assert (p' = p).
    { fold cand in Hnew'. rewrite Hnew in Hnew'. injection Hnew' as Heq.
      destruct (hemi s); lia. }
    subst p'. exact Hres.
  - intros Hnc.
    assert (Hpv := Hfill p Hnc Hpl).
    destruct Hfm as [[H _]|(q & H & Hall)]; [congruence|].
    assert (q = (-1)%Q) by congruence. subst q.
    split.
    + intros c Hc.
      destruct (Hall c ltac:(rewrite Hlen; apply Hrange, Hc)) as (qc & Hqc & Hle & Hlt).
      exists qc. rewrite (Hin c Hc) in Hqc. split; [congruence|]. auto.
    + intros j Hj.
      destruct (in_dec Nat.eq_dec j cand) as [Hjc|Hjc]; [exact Hjc|]. exfalso.
      destruct (Hall j ltac:(rewrite Hlen; lia)) as (qj & Hqj & _ & Hlt).
      rewrite (Hfill j Hjc ltac:(lia)) in Hqj.
      assert (qj = (-1)%Q) by congruence. subst qj.
      exact (Qlt_irrefl _ (Hlt Hj)).
Qed.

Lemma pint_move_vertex_selection_witness :
  exists p : nat,
    pint_move_vertex (path_externals 5 in_order) example_df 1 tvertex (vertex_ 0)
                     example_func example_sampling_meants
                     (search_rois example_masks) (padding_rois example_masks)
                     false 5 None
    = Ok (set_loc_v example_df 1 (vertex_ 0) (Z.of_nat p)) /\
    (p < shape0 example_func)%nat.
Proof.
  destruct (pint_move_vertex_selection (path_externals 5 in_order) example_df 1
              (mk_seed 2 "A" L [(tvertex, 3%Z)] []) tvertex (vertex_ 0)
              example_func example_sampling_meants
              (search_rois example_masks) (padding_rois example_masks)
              false 5 None 3%Z example_target (fun ts => pearson example_target ts))
    as (arr & p & _ & _ & _ & _ & H1 & H2 & _).
  - reflexivity.
  - reflexivity.
  - vm_compute. reflexivity.
  - reflexivity.
  - vm_compute. discriminate.
  - intros c Hc. vm_compute in Hc. destruct Hc as [<-|[]]. vm_compute. lia.
  - exists p. split; [exact H1 | exact H2].
Defined.

(** ** Order and separation of the candidate sets *)

Lemma where_from_sorted {A : Type} (p : A -> bool) (xs : list A) :
  forall i, StronglySorted lt (where_from i p xs) /\
            Forall (fun v => (i <= v)%nat) (where_from i p xs).
Proof.
  induction xs as [|x xs IH]; intros i; cbn [where_from].
  - split; constructor.
  - destruct (IH (S i)) as [Hs Hf].
    assert (Hf' : Forall (fun v => (i <= v)%nat) (where_from (S i) p xs)).
    { eapply Forall_impl; [|exact Hf]. cbn. intros v Hv. lia. }
    destruct (p x); [|split; assumption]. split.
    + constructor; [exact Hs|]. eapply Forall_impl; [|exact Hf]. cbn. intros v Hv. lia.
    + constructor; [lia | exact Hf'].
Qed.

Lemma filter_sorted (f : nat -> bool) (l : list nat) :
  StronglySorted lt l -> StronglySorted lt (filter f l).
Proof.
  induction 1 as [|a l Hs IH Hall]; cbn [filter]; [constructor|].
  destruct (f a); [|exact IH]. constructor; [exact IH|].
  apply Forall_forall. intros x Hx. apply filter_In in Hx.
  rewrite Forall_forall in Hall. apply Hall. tauto.
Qed.

(** X12. The candidates of a seed are enumerated in strictly ascending
    vertex order, all lie within both masks, and no vertex is a candidate
    of two different labels. *)
Theorem candidates_ascending_and_disjoint (search padding : list Z) (vlabel : Z) :
  StronglySorted lt (candidates search padding vlabel) /\
  (forall v, In v (candidates search padding vlabel) ->
             (v < length search)%nat /\ (v < length padding)%nat) /\
  (forall other v, other <> vlabel ->
                   In v (candidates search padding vlabel) ->
                   ~ In v (candidates search padding other)).
Proof.
  split; [|split].
  - unfold candidates, intersect1d. apply filter_sorted.
    apply (where_from_sorted (Z.eqb vlabel) search 0).
  - intros v Hv. apply candidates_In in Hv. tauto.
  - intros other v Hne Hv Hv'. apply candidates_In in Hv, Hv'.
    destruct Hv as (_ & _ & H1 & _), Hv' as (_ & _ & H2 & _). congruence.
Qed.

Lemma candidates_ascending_and_disjoint_witness :
  ~ In 4%nat (candidates (search_rois example_masks) (padding_rois example_masks) 1).
Proof.
  apply (proj2 (proj2 (candidates_ascending_and_disjoint (search_rois example_masks)
                         (padding_rois example_masks) 2)) 1%Z 4%nat).
  - discriminate.
  - vm_compute. auto.
Defined.

(** ** Labels given when the table has none *)

(** X13. When the csv table has no 'roiidx' column, the table read from it
    has one row per csv row, and row [i] carries the label [i + 1], the
    csv row's hemisphere and network, and 'tvertex' as its only vertex
    column; so the labels are distinct and [roiidx - 1] is the row's own
    index. *)
Theorem read_csv_default_labels (t : csv_table) :
  csv_roiidx t = None ->
  length (read_csv t) = length (csv_rows t) /\
  (forall i s, nth_error (read_csv t) i = Some s ->
     roiidx s = (Z.of_nat i + 1)%Z /\
     exists v, nth_error (csv_rows t) i = Some (hemi s, NETWORK s, v) /\
               vcols s = [(tvertex, v)] /\ dcols s = []) /\
  (forall i j s s', nth_error (read_csv t) i = Some s ->
                    nth_error (read_csv t) j = Some s' ->
                    roiidx s = roiidx s' -> i = j).
Proof.
  intros Hnone. unfold read_csv. rewrite Hnone.
  set (labels := map (fun i => Z.of_nat (S i)) (seq 0 (length (csv_rows t)))).
  set (f := fun p : hemisphere * string * Z * Z =>
              match fst p with
              | (h, n, v) => mk_seed (snd p) n h [(tvertex, v)] []
              end).
  assert (Hll : length labels = length (csv_rows t)).
  { unfold labels. now rewrite length_map, length_seq. }
  assert (Hlen : length (map f (combine (csv_rows t) labels)) = length (csv_rows t)).
  { rewrite length_map, length_combine, Hll. apply Nat.min_id. }
  assert (Hrow : forall i s, nth_error (map f (combine (csv_rows t) labels)) i = Some s ->
            roiidx s = (Z.of_nat i + 1)%Z /\
            exists v, nth_error (csv_rows t) i = Some (hemi s, NETWORK s, v) /\
                      vcols s = [(tvertex, v)] /\ dcols s = []).
  { intros i s Hi.
    assert (Hil : (i < length (csv_rows t))%nat).
    { rewrite <- Hlen. apply nth_error_Some. congruence. }
    rewrite nth_error_map in Hi.
    destruct (nth_error (combine (csv_rows t) labels) i) as [[[[h n] v] l]|] eqn:Hc;
      [|discriminate Hi].
    cbn in Hi. injection Hi as <-. cbn [roiidx hemi NETWORK vcols dcols].
    assert (Hn := nth_error_nth _ _ (L, EmptyString, 0%Z, 0%Z) Hc).
    rewrite combine_nth in Hn by (symmetry; exact Hll). injection Hn as Hr Hl.
    split.
    - rewrite <- Hl. unfold labels.
      change 0%Z with ((fun i => Z.of_nat (S i)) 0%nat - 1)%Z at 1.
      rewrite (nth_indep _ _ ((fun i => Z.of_nat (S i)) 0%nat))
        by (rewrite length_map, length_seq; exact Hil).
      rewrite (map_nth (fun i => Z.of_nat (S i))), seq_nth by exact Hil. lia.
    - exists v. rewrite <- Hr. split; [|split; reflexivity].
      apply nth_error_nth'. exact Hil. }
  split; [exact Hlen|]. split; [exact Hrow|].
  intros i j s s' Hi Hj Heq.
  destruct (Hrow i s Hi) as [H1 _]. destruct (Hrow j s' Hj) as [H2 _]. lia.
Qed.

Lemma read_csv_default_labels_witness :
  length (read_csv example_csv) = length (csv_rows example_csv).
Proof.
  apply (proj1 (read_csv_default_labels example_csv eq_refl)).
Defined.

(** ** The network means *)

Lemma existsb_string_In (x : string) (l : list string) :
  existsb (String.eqb x) l = true <-> In x l.
Proof.
  rewrite existsb_exists. split.
  - intros (y & Hy & Heq). apply String.eqb_eq in Heq. now subst.
  - intros H. exists x. split; [exact H | apply String.eqb_refl].
Qed.

Lemma unique_first_spec (l : list string) :
  forall seen,
    NoDup (unique_first seen l) /\
    (forall x, In x (unique_first seen l) <-> In x l /\ ~ In x seen).
Proof.
  induction l as [|a l IH]; intros seen; cbn [unique_first].
  - split; [constructor|]. intros x. cbn. tauto.
  - destruct (existsb (String.eqb a) seen) eqn:Ha.
    + apply existsb_string_In in Ha. destruct (IH seen) as [Hnd Hin].
      split; [exact Hnd|]. intros x. rewrite Hin. cbn. split.
      * intros [H1 H2]. tauto.
      * intros [[<-|H1] H2]; [contradiction | tauto].
    + assert (Hna : ~ In a seen).
      { intros H. apply existsb_string_In in H. congruence. }
      destruct (IH (a :: seen)) as [Hnd Hin]. split.
      * constructor; [|exact Hnd]. rewrite Hin. cbn. tauto.
      * intros x. cbn [In]. rewrite Hin. cbn [In]. split.
        -- intros [<-|[H1 H2]]; [tauto|]. split; [now right | tauto].
        -- intros [[<-|H1] H2]; [now left|].
           destruct (string_dec a x) as [->|Hne]; [now left|]. right. tauto.
Qed.

(** X14. The network means have one column per network of the table, each
    network once, and every column has the length of a series. *)
Theorem calc_network_meants_one_column_per_network (sampling_meants : ndarray2)
  (df : dataframe) (nm : list (string * list Q)) :
  calc_network_meants sampling_meants df = Ok nm ->
  NoDup (map fst nm) /\
  (forall n, In n (map fst nm) <-> exists s, In s df /\ NETWORK s = n) /\
  (forall c, In c nm -> length (snd c) = shape1 sampling_meants).
Proof.
  intros H. destruct (calc_network_meants_columns _ _ _ H) as [Hn Hc].
  destruct (unique_first_spec (map NETWORK df) []) as [Hnd Hin].
  rewrite Hn. split; [exact Hnd|]. split.
  - intros n. unfold networks_unique. rewrite Hin, in_map_iff. cbn. split.
    + intros [(s & Hs & Hd) _]. exists s. tauto.
    + intros (s & Hs & Hd). split; [exists s; tauto | tauto].
  - intros c Hcin. destruct (Hc c Hcin) as (sel & _ & ->). apply mean_axis0_length.
Qed.

Lemma calc_network_meants_one_column_per_network_witness :
  NoDup (map fst [("A"%string, example_target)]).
Proof.
  apply (proj1 (calc_network_meants_one_column_per_network
                  example_sampling_meants
                  [mk_seed 1 "A" L [] []; mk_seed 3 "A" R [] []]
                  [("A"%string, example_target)] eq_refl)).
Defined.

Lemma mapM_raises_index {A B : Type} (f : A -> result B) (l : list A) :
  (forall a, In a l -> (exists b, f a = Ok b) \/ f a = Raise IndexError) ->
  (exists a, In a l /\ f a = Raise IndexError) ->
  mapM f l = Raise IndexError.
Proof.
  induction l as [|a l IH]; intros Hall (x & Hx & Hfx); [destruct Hx|].
  cbn [mapM]. destruct (Hall a (or_introl eq_refl)) as [[b Hb]|Hb].
  - rewrite Hb. cbn [bind]. rewrite IH; [reflexivity | |].
    + intros a' Ha'. apply Hall. now right.
    + destruct Hx as [->|Hx]; [congruence|]. exists x. auto.
  - rewrite Hb. reflexivity.
Qed.

Lemma label_row_cases (sm : ndarray2) (l : Z) :
  (exists r, (i <- np_index (shape0 sm) (l - 1) ;;
              match nth_error (rows sm) i with
              | Some r => Ok r
              | None => Raise IndexError
              end) = Ok r) \/
  (i <- np_index (shape0 sm) (l - 1) ;;
   match nth_error (rows sm) i with
   | Some r => Ok r
   | None => Raise IndexError
   end) = Raise IndexError.
Proof.
  unfold np_index.
  destruct (_ && _); cbn [bind]; [destruct (nth_error (rows sm) _); eauto|].
  destruct (_ && _); cbn [bind]; [destruct (nth_error (rows sm) _); eauto|].
  now right.
Qed.

Lemma mapM_index_cases {A B : Type} (f : A -> result B) (l : list A) :
  (forall a, (exists b, f a = Ok b) \/ f a = Raise IndexError) ->
  (exists bs, mapM f l = Ok bs) \/ mapM f l = Raise IndexError.
Proof.
  intros Hf. induction l as [|a l IH]; cbn [mapM]; [eauto|].
  destruct (Hf a) as [[b ->]| ->]; cbn [bind]; [|now right].
  destruct IH as [[bs ->]| ->]; cbn [bind]; eauto.
Qed.

Lemma take_label_rows_cases (sm : ndarray2) (labels : list Z) :
  (exists sel, take_label_rows sm labels = Ok sel) \/
  take_label_rows sm labels = Raise IndexError.
Proof.
  unfold take_label_rows. apply mapM_index_cases. intros l. apply label_row_cases.
Qed.

Lemma take_label_rows_out_of_range (sm : ndarray2) (labels : list Z) (l : Z) :
  In l labels -> (Z.of_nat (shape0 sm) < l)%Z ->
  take_label_rows sm labels = Raise IndexError.
Proof.
  intros Hin Hl. unfold take_label_rows. apply mapM_raises_index.
  - intros a _. apply label_row_cases.
  - exists l. split; [exact Hin|]. unfold np_index.
    assert (H1 : ((0 <=? l - 1)%Z && (l - 1 <? Z.of_nat (shape0 sm))%Z) = false).
    { apply andb_false_iff. right. apply Z.ltb_ge. lia. }
    assert (H2 : ((- Z.of_nat (shape0 sm) <=? l - 1)%Z && (l - 1 <? 0)%Z) = false).
    { apply andb_false_iff. right. apply Z.ltb_ge. lia. }
    rewrite H1, H2. reflexivity.
Qed.

(** X15. A seed whose label exceeds the number of rows of the sampling
    means (some smaller label has no sampling region) makes the network
    means raise IndexError, and makes the target series of every other
    seed of its network raise IndexError as well. *)
Theorem label_without_row_raises (sampling_meants : ndarray2) (df : dataframe)
  (s : seed) :
  In s df ->
  (Z.of_nat (shape0 sampling_meants) < roiidx s)%Z ->
  calc_network_meants sampling_meants df = Raise IndexError /\
  (forall vlabel, vlabel <> roiidx s ->
     target_meants df (NETWORK s) vlabel sampling_meants = Raise IndexError).
Proof.
  intros Hs Hl.
  assert (Hlab : In (roiidx s) (network_labels df (NETWORK s))).
  { unfold network_labels. apply in_map. apply filter_In. split; [exact Hs|].
    apply String.eqb_refl. }
  split.
  - unfold calc_network_meants. apply mapM_raises_index.
    + intros n _. destruct (take_label_rows_cases sampling_meants (network_labels df n))
        as [[sel ->]| ->]; cbn [bind]; eauto.
    + exists (NETWORK s). split.
      * unfold networks_unique.
        apply (proj2 (unique_first_spec (map NETWORK df) [])). split; [|tauto].
        now apply in_map.
      * now rewrite (take_label_rows_out_of_range _ _ _ Hlab Hl).
  - intros vlabel Hne. unfold target_meants.
    assert (Hin : In (roiidx s)
                     (filter (fun l => negb (l =? vlabel)%Z)
                             (np_unique (network_labels df (NETWORK s))))).
    { apply filter_In. split; [now apply np_unique_In_iff|].
      apply negb_true_iff, Z.eqb_neq. congruence. }
    destruct (filter _ _) as [|l0 ls] eqn:Hf; [reflexivity|]. rewrite <- Hf.
    rewrite <- Hf in Hin.
    now rewrite (take_label_rows_out_of_range _ _ _ Hin Hl).
Qed.

Lemma label_without_row_raises_witness :
  calc_network_meants (mk_ndarray2 6 [rising; mixed]) example_df = Raise IndexError.
Proof.
  apply (proj1 (label_without_row_raises (mk_ndarray2 6 [rising; mixed]) example_df
                  (mk_seed 3 "A" R [(tvertex, 2%Z)] [])
                  (or_intror (or_intror (or_introl eq_refl))) eq_refl)).
Defined.

(** ** The check against the limits *)

Lemma loc_v_set_loc_v_same (d : dataframe) (i : nat) (c : vcol) (v : Z) :
  (i < length d)%nat -> loc_v (set_loc_v d i c v) i c = Ok v.
Proof.
  intros Hi. unfold loc_v, set_loc_v. rewrite nth_error_update_row, Nat.eqb_refl.
  destruct (nth_error d i) eqn:Hs.
  - cbn. now rewrite lookup_upsert_same.
  - apply nth_error_None in Hs. lia.
Qed.

Lemma loc_v_set_loc_v_other_row (d : dataframe) (i j : nat) (c c' : vcol) (v : Z) :
  i <> j -> loc_v (set_loc_v d i c v) j c' = loc_v d j c'.
Proof.
  intros Hne. unfold loc_v, set_loc_v. rewrite nth_error_update_row.
  apply Nat.eqb_neq in Hne. now rewrite Hne.
Qed.

Lemma hemi_frame (c : vcol) (df df' : dataframe) (idx : nat) :
  map (frame c) df = map (frame c) df' ->
  option_map hemi (nth_error df idx) = option_map hemi (nth_error df' idx).
Proof.
  intros Hf.
  assert (Hrow : option_map (frame c) (nth_error df idx)
                 = option_map (frame c) (nth_error df' idx)).
  { rewrite <- !nth_error_map. now rewrite Hf. }
  destruct (nth_error df idx) as [s|], (nth_error df' idx) as [s'|];
    cbn in Hrow; try discriminate Hrow; [|reflexivity].
  unfold frame in Hrow. injection Hrow as _ _ Hh _. cbn. now rewrite Hh.
Qed.

Lemma within_limits_frame (limits : ndarray2) (n : nat) (df df' : dataframe)
  (idx : nat) :
  map (frame ivertex) df = map (frame ivertex) df' ->
  within_limits limits n df idx -> within_limits limits n df' idx.
Proof.
  intros Hf (h & iv & r & c & Hh & Hiv & Hr & Hc & Hpos).
  exists h, iv, r, c.
  rewrite <- (hemi_frame ivertex df df' idx Hf), <- (loc_v_frame ivertex df df' idx Hf).
  auto.
Qed.

Lemma limits_step_inv (limits : ndarray2) (num_limLverts : nat)
  (d d1 : dataframe) (g g1 : bool) (i : nat) :
  limits_step limits num_limLverts (d, g) i = Ok (d1, g1) ->
  exists iv,
    loc_v d i ivertex = Ok iv /\ (i < length d)%nat /\
    ((d1 = set_loc_v d i avertex iv /\ g1 = g /\
      within_limits limits num_limLverts d i) \/
     (exists tv, loc_v d i tvertex = Ok tv /\ d1 = set_loc_v d i avertex tv /\
                 g1 = false)).
Proof.
  unfold limits_step. cbn [fst snd]. intros H.
  destruct (nth_error d i) as [s|] eqn:Hs; [|discriminate H].
  assert (Hi : (i < length d)%nat) by (apply nth_error_Some; congruence).
  destruct (loc_v d i ivertex) as [iv|] eqn:Hiv; [|discriminate H]. cbn [bind] in H.
  destruct (np_index (shape0 limits) _) as [r|] eqn:Hr; [|discriminate H].
  cbn [bind] in H.
  destruct (np_index (shape1 limits) _) as [c|] eqn:Hc; [|discriminate H].
  cbn [bind] in H.
  exists iv. split; [reflexivity|]. split; [exact Hi|].
  destruct (Qltb 0 _) eqn:Htest.
  - cbn [bind] in H. injection H as <- <-. left.
    split; [reflexivity|]. split; [reflexivity|].
    exists (hemi s), iv, r, c. rewrite Hs. cbn [option_map].
    split; [reflexivity|]. split; [exact Hiv|].
    split; [destruct (hemi s); exact Hr|]. split; [exact Hc|].
    apply Qltb_lt, Htest.
  - destruct (loc_v d i tvertex) as [tv|]; [|discriminate H]. cbn [bind] in H.
    injection H as <- <-. right. exists tv. auto.
Qed.

Lemma limits_fold (limits : ndarray2) (num_limLverts : nat) (order : list nat) :
  forall (d d' : dataframe) (g g' : bool),
    foldM (limits_step limits num_limLverts) order (d, g) = Ok (d', g') ->
    (forall c, vcol_eqb c avertex = false -> map (frame c) d' = map (frame c) d) /\
    (g' = true -> g = true) /\
    (forall j, ~ In j order -> loc_v d' j avertex = loc_v d j avertex) /\
    (g' = true -> NoDup order ->
     forall idx, In idx order ->
       within_limits limits num_limLverts d idx /\
       exists iv, loc_v d idx ivertex = Ok iv /\ loc_v d' idx avertex = Ok iv).
Proof.
  induction order as [|i order IH]; intros d d' g g' H; cbn [foldM] in H.
  - injection H as <- <-. split; [auto|]. split; [auto|]. split; [auto|].
    intros _ _ idx [].
  - destruct (limits_step limits num_limLverts (d, g) i) as [[d1 g1]|] eqn:Hstep;
      [|discriminate H].
    cbn [bind] in H.
    destruct (limits_step_inv _ _ _ _ _ _ _ Hstep) as (iv & Hiv & Hi & Hcase).
    destruct (IH _ _ _ _ H) as (Hfr & Hg & Hother & Hgood).
    assert (Hd1 : exists w, d1 = set_loc_v d i avertex w).
    { destruct Hcase as [[-> _]|(tv & _ & -> & _)]; eauto. }
    destruct Hd1 as [w Hd1].
    split; [|split; [|split]].
    + intros c Hc. rewrite (Hfr c Hc), Hd1. now apply frame_set_loc_v.
    + intros Hg'. specialize (Hg Hg').
      destruct Hcase as [(_ & -> & _)|(tv & _ & _ & ->)]; [exact Hg | discriminate Hg].
    + intros j Hj. rewrite Hother by (intros Hin; apply Hj; now right).
      rewrite Hd1. apply loc_v_set_loc_v_other_row. intros ->. apply Hj. now left.
    + intros Hg' Hnd idx Hin. apply NoDup_cons_iff in Hnd.
      destruct Hnd as [Hnin Hnd']. specialize (Hg Hg').
      destruct Hcase as [(-> & -> & Hwl)|(tv & _ & _ & ->)]; [|discriminate Hg].
      destruct (Nat.eq_dec i idx) as [->|Hne].
      * split; [exact Hwl|].
        exists iv. split; [exact Hiv|]. rewrite (Hother idx Hnin).
        now apply loc_v_set_loc_v_same.
      * destruct (Hgood Hg' Hnd' idx) as (Hwl' & iv' & H1 & H2).
        -- destruct Hin; [congruence | assumption].
        -- split.
           ++ apply (within_limits_frame limits num_limLverts
                       (set_loc_v d i avertex iv) d idx); [|exact Hwl'].
              now apply frame_set_loc_v.
           ++ exists iv'. split; [|exact H2].
              rewrite <- H1. symmetry. apply loc_v_frame. now apply frame_set_loc_v.
Qed.

(** X16. The limits check returns a result only when every seed's final
    vertex is within the limits: the stacked limits array is positive at
    the row of the seed's 'ivertex' (shifted by the number of left limit
    vertices for a right seed) and the column of the seed.  The result is
    then the first pass with an 'avertex' column that repeats 'ivertex',
    the sweep counter and maximum displacement of the first pass, and every
    other vertex column as it was.  A second pass never contributes to a
    returned result. *)
Theorem reconcile_returns_first_pass (E : externals) (rad : radii) (fuel : nat)
  (limitsL limitsR : ndarray2) (func_data : ndarray2) (func_zeros : list nat)
  (pcorr : bool) (num_Lverts : nat) (first res : pint_result) :
  reconcile E rad fuel limitsL limitsR func_data func_zeros pcorr num_Lverts first
  = Some (Ok res) ->
  res_iter_num res = res_iter_num first /\
  res_max_distance res = res_max_distance first /\
  res_distance_outcol res = res_distance_outcol first /\
  (forall c idx, c <> avertex ->
                 loc_v (res_df res) idx c = loc_v (res_df first) idx c) /\
  (forall idx, (idx < length (res_df first))%nat ->
     exists iv, loc_v (res_df first) idx ivertex = Ok iv /\
                loc_v (res_df res) idx avertex = Ok iv) /\
  (exists limits : ndarray2,
     vstack limitsL limitsR = Ok limits /\
     forall idx, (idx < length (res_df first))%nat ->
                 within_limits limits (shape0 limitsL) (res_df first) idx).
Proof.
  unfold reconcile, bindO. intros H.
  destruct (vstack limitsL limitsR) as [limits|]; [|discriminate H].
  set (df0 := fill_v (res_df first) avertex (-99)%Z) in *.
  destruct (foldM (limits_step limits (shape0 limitsL)) (index_tolist df0) (df0, true))
    as [[d' g']|] eqn:Hfold; [|discriminate H].
  cbn [fst snd] in H.
  destruct g'.
  2:{ change (bind_arguments iterate_pint_params 6 ["start_iter"%string])
        with (@Raise unit TypeError) in H. discriminate H. }
  injection H as <-. cbn [res_iter_num res_max_distance res_distance_outcol res_df].
  destruct (limits_fold _ _ _ _ _ _ _ Hfold) as (Hfr & _ & _ & Hgood).
  assert (Hf0 : forall c, vcol_eqb c avertex = false ->
                          map (frame c) df0 = map (frame c) (res_df first)).
  { intros c Hc. unfold df0. now apply frame_fill_v. }
  assert (Hin0 : forall idx, (idx < length (res_df first))%nat ->
                             In idx (index_tolist df0)).
  { intros idx Hidx. unfold index_tolist, df0, fill_v. rewrite length_map.
    apply in_seq. lia. }
  repeat (split; [reflexivity|]). split; [|split].
  - intros c idx Hc.
    assert (Hca : vcol_eqb c avertex = false).
    { destruct (vcol_eqb c avertex) eqn:Heq; [|reflexivity].
      apply vcol_eqb_eq in Heq. contradiction. }
    apply loc_v_frame. now rewrite (Hfr c Hca), (Hf0 c Hca).
  - intros idx Hidx.
    destruct (Hgood eq_refl (seq_NoDup _ _) idx (Hin0 idx Hidx)) as (_ & iv & H1 & H2).
    exists iv. split; [|exact H2].
    rewrite <- H1. symmetry. apply loc_v_frame. now apply Hf0.
  - exists limits. split; [reflexivity|]. intros idx Hidx.
    destruct (Hgood eq_refl (seq_NoDup _ _) idx (Hin0 idx Hidx)) as (Hwl & _).
    apply (within_limits_frame limits (shape0 limitsL) df0 (res_df first) idx);
      [|exact Hwl].
    now apply Hf0.
Qed.

Lemma reconcile_returns_first_pass_witness :
  res_iter_num example_reconciled = res_iter_num example_first /\
  exists iv, loc_v (res_df example_first) 2 ivertex = Ok iv /\
             loc_v (res_df example_reconciled) 2 avertex = Ok iv.
Proof.
  destruct (reconcile_returns_first_pass (path_externals 5 in_order) example_radii 50
              permitting_limits permitting_limits example_func [1; 8]%nat false 5
              example_first example_reconciled) as (H1 & _ & _ & _ & H5 & _).
  - vm_compute. reflexivity.
  - split; [exact H1|]. apply H5. vm_compute. lia.
Defined.

(** ** A run that returns *)

(** X17. [run_PINT] returns a result only when no limits file was given,
    the two hemispheres have the same number of timepoints and there are
    at least 6 of them.  The summary table then has the rows of the csv
    table, with their labels and template vertices unchanged, and both
    side tables of mean series have as many columns as there are
    timepoints. *)
Theorem run_PINT_result (E : externals) (fuel : nat) (args : arguments)
  (origcsv : csv_table) (func_dataL func_dataR : ndarray2) (out : outputs) :
  run_PINT E fuel args origcsv func_dataL func_dataR = Some (Ok out) ->
  arg_roi_limits args = None /\
  shape1 func_dataL = shape1 func_dataR /\
  (6 <= shape1 func_dataL)%nat /\
  length (res_df (out_summary out)) = length (read_csv origcsv) /\
  map roiidx (res_df (out_summary out)) = map roiidx (read_csv origcsv) /\
  (forall idx, loc_v (res_df (out_summary out)) idx tvertex
               = loc_v (read_csv origcsv) idx tvertex) /\
  shape1 (out_tvertex_meants out) = shape1 func_dataL /\
  shape1 (out_ivertex_meants out) = shape1 func_dataL.
Proof.
  unfold run_PINT. intros H.
  destruct (arg_roi_limits args) as [lim|]; [discriminate H|]. cbn [bindO] in H.
  unfold vstack in H at 1.
  destruct (shape1 func_dataL =? shape1 func_dataR) eqn:Hsh; [|discriminate H].
  apply Nat.eqb_eq in Hsh. cbn [bindO] in H.
  set (func_data := mk_ndarray2 (shape1 func_dataL) (rows func_dataL ++ rows func_dataR))
    in *.
  unfold func_zeros_of in H. unfold column in H.
  destruct (5 <? shape1 func_data) eqn:H6; [|discriminate H].
  apply Nat.ltb_lt in H6. cbn [bind bindO] in H.
  set (func_zeros := np_where (fun x => Qltb x 5)
                              (map (fun r => nth 5 r 0%Q) (rows func_data))) in *.
  change (bind_arguments iterate_pint_params 8 []) with (Ok tt) in H.
  cbn [bindO] in H.
  destruct (iterate_pint E (arg_radii args) fuel (read_csv origcsv) tvertex func_data
                         func_zeros (arg_pcorr args) (shape0 func_dataL) 0)
    as [[first|]|] eqn:Hit; try discriminate H.
  cbn [bindO] in H.
  destruct (output_meants E (arg_radii args) (res_df first) tvertex func_data func_zeros)
    as [tm|] eqn:Htm; [|discriminate H].
  cbn [bindO] in H.
  destruct (output_meants E (arg_radii args) (res_df first) ivertex func_data func_zeros)
    as [im|] eqn:Him; [|discriminate H].
  cbn [bindO] in H. injection H as <-.
  cbn [out_summary out_tvertex_meants out_ivertex_meants].
  assert (Hfr : map (frame tvertex) (res_df first)
                = map (frame tvertex) (read_csv origcsv)).
  { apply (iterate_pint_frame _ _ _ _ _ _ _ _ _ _ _ tvertex Hit);
      [discriminate | intros k _; discriminate]. }
  destruct (frame_components tvertex _ _ Hfr) as (H1 & H2 & _ & _).
  assert (Hshape : forall c m,
            output_meants E (arg_radii args) (res_df first) c func_data func_zeros
            = Ok m -> shape1 m = shape1 func_dataL).
  { intros c m Hm. unfold output_meants in Hm.
    destruct (rois_bilateral E _ c _) as [r0|]; [|discriminate Hm]. cbn [bind] in Hm.
    destruct (assign_at r0 func_zeros 0%Z) as [r1|]; [|discriminate Hm].
    cbn [bind] in Hm. unfold calc_sampling_meants in Hm.
    destruct (mapM _ _) as [rows_|]; [|discriminate Hm]. cbn [bind] in Hm.
    injection Hm as <-. reflexivity. }
  split; [reflexivity|]. split; [exact Hsh|]. split; [cbn in H6; lia|].
  split; [exact H1|]. split; [exact H2|]. split.
  - intros idx. now apply loc_v_frame.
  - split; [exact (Hshape _ _ Htm) | exact (Hshape _ _ Him)].
Qed.

Lemma run_PINT_result_witness :
  map roiidx (res_df (out_summary example_outputs)) = map roiidx (read_csv example_csv) /\
  shape1 (out_ivertex_meants example_outputs) = shape1 example_func_L.
Proof.
  destruct (run_PINT_result (path_externals 5 in_order) 50 example_arguments example_csv
              example_func_L example_func_R example_outputs)
    as (_ & _ & _ & _ & H5 & _ & _ & H8).
  - vm_compute. reflexivity.
  - split; [exact H5 | exact H8].
Defined.

(** ** Candidates stay in the seed's hemisphere *)

Lemma roi_surf_data_label_source (E : externals) (df : dataframe)
  (vertex_colname : vcol) (surf : surface) (hemisphere_ : hemisphere)
  (roi_radius : Q) (mask : list Z) :
  roi_surf_data E df vertex_colname surf hemisphere_ roi_radius = Ok mask ->
  (forall vs row, In row (geodesic_rois E surf roi_radius vs) ->
                  Forall (fun x => x = 0 \/ x = 1)%Z row) ->
  (forall s, In s df -> (0 < roiidx s)%Z) ->
  (exists vs, length mask = length (geodesic_rois E surf roi_radius vs)) /\
  (forall v l, nth_error mask v = Some l -> l <> 0%Z ->
               exists s, In s df /\ hemi s = hemisphere_ /\ roiidx s = l).
Proof.
  unfold roi_surf_data. intros H H01 Hpos.
  set (these := filter (fun s => hemisphere_eqb (hemi s) hemisphere_) df) in *.
  destruct (mapM (seed_vcol vertex_colname) these) as [vertex_list|]; [|discriminate H].
  cbn [bind] in H.
  destruct (map roiidx these) as [|l0 ls] eqn:Hlabels; [discriminate H|].
  rewrite <- Hlabels in H.
  destruct (mapM_nth _ _ _ H) as [Hlen Hnth]. split; [eauto|].
  intros v l Hv Hl0.
  assert (Hvl : (v < length (geodesic_rois E surf roi_radius vertex_list))%nat).
  { rewrite <- Hlen. apply nth_error_Some. congruence. }
  destruct (nth_error (geodesic_rois E surf roi_radius vertex_list) v) as [row|] eqn:Hrow;
    [|apply nth_error_None in Hrow; lia].
  destruct (Hnth v row Hrow) as (l' & Hl' & Hv').
  assert (l' = l) by congruence. subst l'.
  assert (Hthese : forall s, In s these -> In s df /\ hemi s = hemisphere_).
  { intros s Hs. unfold these in Hs. apply filter_In in Hs. destruct Hs as [Hs Hh].
    split; [exact Hs|]. destruct (hemi s), hemisphere_; cbn in Hh; congruence. }
  assert (Hp : Forall (fun x => 0 < x)%Z (map roiidx these)).
  { apply Forall_forall. intros x Hx. apply in_map_iff in Hx.
    destruct Hx as (s & <- & Hs). destruct (Hthese s Hs). now apply Hpos. }
  destruct (row_label_spec _ _ _ Hl' (H01 _ _ (nth_error_In _ _ Hrow)) Hp)
    as (_ & _ & [[Hz _]|(j & Hj & _ & Hjl)]); [contradiction|].
  rewrite length_map in Hj.
  destruct (nth_error these j) as [s|] eqn:Hs; [|apply nth_error_None in Hs; lia].
  exists s. destruct (Hthese s (nth_error_In _ _ Hs)) as [H1 H2].
  split; [exact H1|]. split; [exact H2|].
  rewrite <- Hjl. symmetry. apply nth_error_nth. now rewrite nth_error_map, Hs.
Qed.

(** X18. Suppose the provider returns 0/1 rows, one per vertex of the left
    surface ([num_Lverts] of them), all labels are positive, and seeds of
    different hemispheres have different labels.  Then in the search mask
    of a sweep every candidate of a left seed is a left position
    ([< num_Lverts]) and every candidate of a right seed is a right
    position ([>= num_Lverts]); a seed never gets a candidate in the other
    hemisphere. *)
Theorem candidates_stay_in_hemisphere (E : externals) (rad : radii) (df : dataframe)
  (vertex_incol : vcol) (func_zeros : list nat) (m : masks) (num_Lverts : nat)
  (s : seed) (v : nat) :
  build_masks E rad df vertex_incol func_zeros = Ok m ->
  (forall surf vs row, In row (geodesic_rois E surf (RADIUS_SEARCH rad) vs) ->
                       Forall (fun x => x = 0 \/ x = 1)%Z row) ->
  (forall vs, length (geodesic_rois E surfL (RADIUS_SEARCH rad) vs) = num_Lverts) ->
  (forall s', In s' df -> (0 < roiidx s')%Z) ->
  (forall s1 s2, In s1 df -> In s2 df -> roiidx s1 = roiidx s2 -> hemi s1 = hemi s2) ->
  In s df ->
  In v (candidates (search_rois m) (padding_rois m) (roiidx s)) ->
  match hemi s with
  | L => (v < num_Lverts)%nat
  | R => (num_Lverts <= v)%nat
  end.
Proof.
  intros Hb H01 HnL Hpos Hdis Hs Hv.
  apply candidates_In in Hv. destruct Hv as (Hvl & _ & Hlabel & _).
  assert (Hnz : roiidx s <> 0%Z) by (specialize (Hpos s Hs); lia).
  unfold build_masks in Hb.
  destruct (rois_bilateral E df vertex_incol (RADIUS_SAMPLING rad)) as [s0|];
    [|discriminate Hb].
  cbn [bind] in Hb.
  destruct (assign_at s0 func_zeros 0%Z) as [s1|]; [|discriminate Hb].
  cbn [bind] in Hb.
  destruct (rois_bilateral E df vertex_incol (RADIUS_SEARCH rad)) as [c0|] eqn:Hc0;
    [|discriminate Hb].
  cbn [bind] in Hb.
  destruct (assign_at c0 func_zeros 0%Z) as [c1|] eqn:Hc; [|discriminate Hb].
  cbn [bind] in Hb.
  destruct (rois_bilateral E df vertex_incol (RADIUS_PADDING rad)) as [p0|];
    [|discriminate Hb].
  cbn [bind] in Hb. injection Hb as <-. cbn [search_rois] in Hvl, Hlabel.
  destruct (assign_at_spec 0%Z 0%Z func_zeros _ _ Hc) as (Hl & Hin & Hout).
  assert (Hvz : ~ In v func_zeros).
  { intros Hz. destruct (Hin v Hz) as [_ H0]. congruence. }
  rewrite (Hout v Hvz) in Hlabel. rewrite Hl in Hvl.
  unfold rois_bilateral in Hc0.
  destruct (roi_surf_data E df vertex_incol surfL L (RADIUS_SEARCH rad)) as [rl|] eqn:HL;
    [|discriminate Hc0].
  cbn [bind] in Hc0.
  destruct (roi_surf_data E df vertex_incol surfR R (RADIUS_SEARCH rad)) as [rr|] eqn:HR;
    [|discriminate Hc0].
  cbn [bind] in Hc0. injection Hc0 as <-.
  destruct (roi_surf_data_label_source _ _ _ _ _ _ _ HL (H01 surfL) Hpos)
    as [[vsl HlenL] HsrcL].
  destruct (roi_surf_data_label_source _ _ _ _ _ _ _ HR (H01 surfR) Hpos)
    as [_ HsrcR].
  rewrite HnL in HlenL.
  destruct (Nat.lt_ge_cases v num_Lverts) as [Hlt|Hge].
  - assert (Hnth : nth_error rl v = Some (roiidx s)).
    { rewrite <- Hlabel. rewrite app_nth1 by lia. apply nth_error_nth'. lia. }
    destruct (HsrcL v _ Hnth Hnz) as (s' & Hs' & Hh & Hr).
    rewrite <- (Hdis s' s Hs' Hs Hr), Hh. exact Hlt.
  - assert (Hnth : nth_error rr (v - length rl) = Some (roiidx s)).
    { rewrite <- Hlabel. rewrite app_nth2 by lia. apply nth_error_nth'.
      rewrite length_app in Hvl. lia. }
    destruct (HsrcR _ _ Hnth Hnz) as (s' & Hs' & Hh & Hr).
    rewrite <- (Hdis s' s Hs' Hs Hr), Hh. exact Hge.
Qed.

Lemma candidates_stay_in_hemisphere_witness :
  (5 <= 6)%nat.
Proof.
  apply (candidates_stay_in_hemisphere (path_externals 5 in_order) example_radii
           example_df tvertex [1; 8]%nat example_masks 5
           (mk_seed 3 "A" R [(tvertex, 2%Z)] []) 6).
  - vm_compute. reflexivity.
  - intros surf vs row. apply path_rois_zero_one.
  - intros vs. unfold path_externals, geodesic_rois, path_rois.
    now rewrite length_map, length_seq.
  - intros s' Hs'. cbn in Hs'. destruct Hs' as [<-|[<-|[<-|[]]]]; reflexivity.
  - intros s1 s2 H1 H2. cbn in H1, H2.
    destruct H1 as [<-|[<-|[<-|[]]]], H2 as [<-|[<-|[<-|[]]]]; cbn;
      intros Heq; try reflexivity; discriminate Heq.
  - cbn. auto.
  - vm_compute. auto.
Defined.

(** ** Termination and the maximum displacement *)

Lemma fold_left_Qmax_spec (xs : list Q) :
  forall x : Q,
    In (fold_left Qmax xs x) (x :: xs) /\
    forall y, In y (x :: xs) -> (y <= fold_left Qmax xs x)%Q.
Proof.
  induction xs as [|z xs IH]; intros x; cbn [fold_left].
  - split; [now left|]. intros y [<-|[]]. apply Qle_refl.
  - destruct (IH (Qmax x z)) as [Hin Hle].
    assert (Hx : (x <= Qmax x z)%Q /\ (z <= Qmax x z)%Q /\
                 (Qmax x z = x \/ Qmax x z = z)).
    { unfold Qmax. destruct (Qltb x z) eqn:Hlt.
      - apply Qltb_lt in Hlt. split; [now apply Qlt_le_weak|].
        split; [apply Qle_refl | now right].
      - split; [apply Qle_refl|]. split; [|now left].
        apply Qnot_lt_le. intros Hc. apply Qltb_lt in Hc. congruence. }
    destruct Hx as (Hx & Hz & Hc). split.
    + destruct Hin as [Hin|Hin].
      * rewrite <- Hin. destruct Hc as [->| ->]; [now left | right; now left].
      * right. now right.
    + intros y [<-|[<-|Hy]].
      * eapply Qle_trans; [exact Hx|]. apply Hle. now left.
      * eapply Qle_trans; [exact Hz|]. apply Hle. now left.
      * apply Hle. now right.
Qed.

(** [max(col)] is an entry of the column and bounds every entry. *)
Lemma max_of_spec (col : list Q) (md : Q) :
  max_of col = Ok md -> In md col /\ forall y, In y col -> (y <= md)%Q.
Proof.
  destruct col as [|x xs]; cbn [max_of]; intros H; [discriminate H|].
  injection H as <-. apply fold_left_Qmax_spec.
Qed.

Lemma distance_step_value (E : externals) (ic oc : vcol) (dc : dcol) (r : Q)
  (d d1 : dataframe) (calls calls1 : list geo_call) (i : nat) :
  distance_step E ic oc dc r (d, calls) i = Ok (d1, calls1) ->
  exists (h : hemisphere) (a b : Z) (q : Q) (cs : list geo_call),
    option_map hemi (nth_error d i) = Some h /\
    loc_v d i ic = Ok a /\ loc_v d i oc = Ok b /\
    calc_surf_distance E (match h with L => surfL | R => surfR end) a b r
    = Ok (q, cs) /\
    d1 = set_loc_d d i dc q.
Proof.
  unfold distance_step. cbn [fst snd]. intros H.
  destruct (loc_v d i ic) as [a|]; [|discriminate H]. cbn [bind] in H.
  destruct (loc_v d i oc) as [b|]; [|discriminate H]. cbn [bind] in H.
  destruct (nth_error d i) as [s|] eqn:Hs; [|discriminate H].
  destruct (calc_surf_distance E _ a b r) as [[q cs]|] eqn:Hc; [|discriminate H].
  cbn [bind fst snd] in H. injection H as <- <-.
  exists (hemi s), a, b, q, cs. cbn [option_map]. auto.
Qed.

Lemma distance_fold_values (E : externals) (ic oc : vcol) (dc : dcol) (r : Q)
  (order : list nat) :
  forall (d d' : dataframe) (calls calls' : list geo_call),
    foldM (distance_step E ic oc dc r) order (d, calls) = Ok (d', calls') ->
    NoDup order ->
    forall idx, In idx order ->
      exists (h : hemisphere) (a b : Z) (q : Q) (cs : list geo_call),
        option_map hemi (nth_error d idx) = Some h /\
        loc_v d idx ic = Ok a /\ loc_v d idx oc = Ok b /\
        calc_surf_distance E (match h with L => surfL | R => surfR end) a b r
        = Ok (q, cs) /\
        loc_d d' idx dc = Ok q.
Proof.
  induction order as [|i order IH]; intros d d' calls calls' H Hnd idx Hin;
    [destruct Hin|].
  cbn [foldM] in H.
  destruct (distance_step E ic oc dc r (d, calls) i) as [[d1 calls1]|] eqn:Hstep;
    [|discriminate H].
  cbn [bind] in H. apply NoDup_cons_iff in Hnd. destruct Hnd as [Hnin Hnd].
  destruct (distance_step_value _ _ _ _ _ _ _ _ _ _ Hstep)
    as (h & a & b & q & cs & Hh & Ha & Hb & Hc & Hd1).
  destruct (Nat.eq_dec i idx) as [<-|Hne].
  - exists h, a, b, q, cs. repeat (split; [assumption|]).
    destruct (distance_fold E ic oc dc r _ _ _ _ _ H) as (_ & _ & Hother & _).
    rewrite (Hother i Hnin), Hd1. apply loc_d_set_loc_d_same.
    apply nth_error_Some. destruct (nth_error d i); [discriminate | discriminate Hh].
  - destruct (IH _ _ _ _ H Hnd idx) as (h' & a' & b' & q' & cs' & Hh' & Ha' & Hb' & Hc' & Hq').
    { destruct Hin; [congruence | assumption]. }
    exists h', a', b', q', cs'. subst d1.
    rewrite !loc_v_set_loc_d in *.
    split; [|auto].
    rewrite <- Hh'. symmetry.
    apply (hemi_frame ic). apply frame_set_loc_d.
Qed.

(** The maximum displacement a sweep records is the largest entry of its
    distance column, and the entries are the seeds' geodesic displacements. *)
Lemma sweep_records_max_displacement (E : externals) (rad : radii)
  (func_data : ndarray2) (func_zeros : list nat) (pcorr : bool) (num_Lverts : nat)
  (st st' : loop_state) :
  sweep E rad func_data func_zeros pcorr num_Lverts st = Ok st' ->
  sweep_max_displacement E rad st st'.
Proof.
  intros Hs.
  destruct (sweep_distances _ _ _ _ _ _ _ _ Hs)
    as (df1 & calls & col & Hdist & Hcol & Hmax & _).
  destruct (max_of_spec col _ Hmax) as [Hin Hle].
  destruct (mapM_nth _ _ _ Hcol) as [Hlen Hnth].
  unfold calc_distance_column in Hdist.
  set (df0 := fill_d df1 (dist_ (st_iter_num st)) (-(999 # 10))%Q) in *.
  destruct (distance_fold E _ _ _ _ _ _ _ _ _ Hdist) as (Hl & Hv & _ & _).
  assert (Hfr := distance_fold_frame E (st_vertex_incol st) _ _ _ _ _ _ _ _ _ Hdist).
  assert (Hidx : forall idx, (idx < length (st_df st'))%nat ->
                   nth_error (index_tolist (st_df st')) idx = Some idx).
  { intros idx Hi. unfold index_tolist.
    rewrite (nth_error_nth' _ 0%nat) by (rewrite length_seq; exact Hi).
    now rewrite seq_nth. }
  split.
  - intros idx Hi.
    destruct (distance_fold_values E _ _ _ _ _ _ _ _ _ Hdist (seq_NoDup _ _) idx)
      as (h & a & b & q & cs & Hh & Ha & Hb & Hc & Hq).
    { unfold index_tolist. apply in_seq. lia. }
    exists h, a, b, q, cs.
    split; [rewrite <- Hh; now apply (hemi_frame (st_vertex_incol st))|].
    split; [now rewrite Hv|]. split; [now rewrite Hv|]. split; [exact Hc|].
    split; [exact Hq|].
    destruct (Hnth idx idx (Hidx idx Hi)) as (q' & Hq' & Hcq).
    apply Hle. assert (q' = q) by congruence. subst q'.
    eapply nth_error_In, Hcq.
  - apply In_nth_error in Hin. destruct Hin as [i Hi].
    assert (Hil : (i < length (st_df st'))%nat).
    { assert (H : (i < length col)%nat) by (apply nth_error_Some; congruence).
      rewrite Hlen in H. unfold index_tolist in H. now rewrite length_seq in H. }
    exists i. split; [exact Hil|].
    destruct (Hnth i i (Hidx i Hil)) as (q' & Hq' & Hcq). congruence.
Qed.

Lemma sweeps_last (E : externals) (rad : radii) (func_data : ndarray2)
  (func_zeros : list nat) (pcorr : bool) (num_Lverts : nat) (j : nat) :
  forall st st' : loop_state,
    sweeps E rad func_data func_zeros pcorr num_Lverts (S j) st = Ok st' ->
    exists stj,
      sweeps E rad func_data func_zeros pcorr num_Lverts j st = Ok stj /\
      sweep E rad func_data func_zeros pcorr num_Lverts stj = Ok st' /\
      st_iter_num stj = (st_iter_num st + j)%nat.
Proof.
  induction j as [|j IH]; intros st st' H.
  - cbn [sweeps] in H.
    destruct (sweep E rad func_data func_zeros pcorr num_Lverts st) as [s1|] eqn:Hs;
      [|discriminate H].
    cbn [bind] in H. injection H as <-.
    exists st. cbn [sweeps]. split; [reflexivity|]. split; [exact Hs | lia].
  - change (sweeps E rad func_data func_zeros pcorr num_Lverts (S (S j)) st)
      with (st1 <- sweep E rad func_data func_zeros pcorr num_Lverts st ;;
            sweeps E rad func_data func_zeros pcorr num_Lverts (S j) st1) in H.
    destruct (sweep E rad func_data func_zeros pcorr num_Lverts st) as [s1|] eqn:Hs;
      [|discriminate H].
    cbn [bind] in H.
    destruct (IH s1 st' H) as (stj & H1 & H2 & H3).
    exists stj. split; [|split; [exact H2|]].
    + change (sweeps E rad func_data func_zeros pcorr num_Lverts (S j) st)
        with (st1 <- sweep E rad func_data func_zeros pcorr num_Lverts st ;;
              sweeps E rad func_data func_zeros pcorr num_Lverts j st1).
      rewrite Hs. exact H1.
    + destruct (sweep_iter_num E rad func_data func_zeros pcorr num_Lverts _ _ Hs)
        as (Hi & _).
      lia.
Qed.


